(** * grip: shell safety filter, workflow layering, cron-phrase parser,
      legacy cron migration and heartbeat beat

    A shallow embedding of

      - [grip/tools/shell.py]      (the multi-layer deny filter),
      - [grip/workflow/models.py]  (validation and Kahn layering),
      - [grip/tools/scheduler.py]  (phrase parser, legacy migration),
      - [grip/heartbeat/service.py] (one heartbeat beat),

    together with the properties of these functions.

    Python [str] values are modelled as [string]; a character is a code
    point below 256 (Latin-1), and the character classes of Python
    ([str.isspace], [str.isdigit], the regex classes [\s], [\d], [\w]) are
    given for that range. *)

From Stdlib Require Import Bool Arith ZArith Lia List Ascii String.
From Stdlib Require Import Sorting.Sorted Sorting.Permutation Sorting.Mergesort Orders.
From Stdlib Require Import Numbers.DecimalString Numbers.DecimalPos.
From Stdlib Require Import Relations.Relation_Operators.
Import ListNotations.

Open Scope list_scope.
Open Scope string_scope.
Open Scope nat_scope.

(* ===================================================================== *)
(** ** Python string primitives                                           *)
(* ===================================================================== *)

Module PyStr.

(** The code point of a character. *)
Definition code (c : ascii) : N := N_of_ascii c.

Definition between (lo hi n : N) : bool := (lo <=? n)%N && (n <=? hi)%N.

Definition in_range (lo hi : N) (c : ascii) : bool := between lo hi (code c).

Definition is_code (n : N) (c : ascii) : bool := (code c =? n)%N.

(** [str.isspace] on one character: TAB..CR, FS..US, space, NEL, NBSP. *)
Definition isspace_code (n : N) : bool :=
  between 9 13 n || between 28 32 n || (n =? 133)%N || (n =? 160)%N.

Definition isspace (c : ascii) : bool := isspace_code (code c).

(** [0-9]: what the regex class [\d] and [int()] accept below 256. *)
Definition is_decimal (c : ascii) : bool := in_range 48 57 c.

(** [str.isdigit] on one character: decimals and the superscripts
    U+00B2, U+00B3, U+00B9. *)
Definition isdigit_code (n : N) : bool :=
  between 48 57 n || (n =? 178)%N || (n =? 179)%N || (n =? 185)%N.

Definition isdigit_char (c : ascii) : bool := isdigit_code (code c).

Definition is_alpha_code (n : N) : bool := between 65 90 n || between 97 122 n.

(** [A-Za-z] *)
Definition is_alpha_ascii (c : ascii) : bool := is_alpha_code (code c).

(** The regex class [\w] below 256: alphanumerics (in the sense of
    [str.isalnum]) and the underscore. *)
Definition is_word_code (n : N) : bool :=
  is_alpha_code n || between 48 57 n || (n =? 95)%N
  || (n =? 170)%N || (n =? 178)%N || (n =? 179)%N
  || (n =? 181)%N || (n =? 185)%N || (n =? 186)%N
  || between 188 190 n
  || between 192 214 n || between 216 246 n || between 248 255 n.

Definition is_word (c : ascii) : bool := is_word_code (code c).

(** [str.lower] on one character (below 256): A-Z and the capital
    letters of Latin-1 move up by 32. *)
Definition lower_code (n : N) : N :=
  if between 65 90 n || between 192 214 n || between 216 222 n
  then (n + 32)%N else n.

(** The capital letters lie in 65..90 and 192..222, where the bit of
    weight 32 is clear: a character with that bit set is left as it is. *)
Definition lower_char (c : ascii) : ascii :=
  match c with
  | Ascii _ _ _ _ _ true _ _ => c
  | _ => ascii_of_N (lower_code (code c))
  end.

Fixpoint lower (s : string) : string :=
  match s with
  | EmptyString => EmptyString
  | String c s' => String (lower_char c) (lower s')
  end.

Fixpoint all_chars (p : ascii -> bool) (s : string) : bool :=
  match s with
  | EmptyString => true
  | String c s' => p c && all_chars p s'
  end.

Definition is_empty (s : string) : bool :=
  match s with EmptyString => true | _ => false end.

(** [s.isdigit()]: non-empty and every character is a digit. *)
Definition isdigit (s : string) : bool :=
  negb (is_empty s) && all_chars isdigit_char s.

(** [s.startswith(p)]. *)
Definition startswith (p s : string) : bool := String.prefix p s.

(** [s[1:]]. *)
Definition tail (s : string) : string :=
  match s with EmptyString => EmptyString | String _ s' => s' end.

(** [s.lstrip()]. *)
Fixpoint lstrip (s : string) : string :=
  match s with
  | EmptyString => EmptyString
  | String c s' => if isspace c then lstrip s' else s
  end.

(** [s.rstrip(chars)], for the characters accepted by [p]. *)
Fixpoint rstrip_by (p : ascii -> bool) (s : string) : string :=
  match s with
  | EmptyString => EmptyString
  | String c s' =>
      let r := rstrip_by p s' in
      if is_empty r && p c then EmptyString else String c r
  end.

Definition rstrip (s : string) : string := rstrip_by isspace s.

(** [s.strip()]. *)
Definition strip (s : string) : string := rstrip (lstrip s).

(** [s.rstrip("/")]. *)
Definition rstrip_slash (s : string) : string :=
  rstrip_by (fun c => Ascii.eqb c "/") s.

(** [s.split()]: the maximal runs of non-whitespace characters. *)
Fixpoint split_ws_aux (s : string) (cur : string) : list string :=
  match s with
  | EmptyString => if is_empty cur then [] else [cur]
  | String c s' =>
      if isspace c
      then (if is_empty cur then split_ws_aux s' "" else cur :: split_ws_aux s' "")
      else split_ws_aux s' (cur ++ String c "")
  end.

Definition split_ws (s : string) : list string := split_ws_aux s "".

(** [s.rsplit("/", maxsplit=1)[-1]]: what follows the last slash. *)
Fixpoint after_last_slash (s : string) : string :=
  match s with
  | EmptyString => EmptyString
  | String c s' =>
      if Ascii.eqb c "/" then after_last_slash s'
      else if all_chars (fun x => negb (Ascii.eqb x "/")) s' then s
      else after_last_slash s'
  end.

(** [" ".join(l)]. *)
Definition join_space (l : list string) : string := String.concat " " l.

(** [int(s)] for a non-empty string [s] of the decimal digits 0 to 9, the
    only strings to which the functions of this development apply it (a
    group matched by [\d{1,2}] in a text of Latin-1 characters).  On other
    strings Python's [int] may raise [ValueError]; that is not modelled,
    and no property below is stated for them. *)
Definition digit_value (c : ascii) : Z := Z.of_N (code c - 48).

Fixpoint int_acc (s : string) (acc : Z) : Z :=
  match s with
  | EmptyString => acc
  | String c s' => int_acc s' (10 * acc + digit_value c)%Z
  end.

Definition int (s : string) : Z := int_acc s 0%Z.

(** [str(n)] for an integer. *)
Definition str_of_Z (n : Z) : string := NilEmpty.string_of_int (Z.to_int n).

End PyStr.

(* ===================================================================== *)
(** ** Regular expressions: a backtracking matcher in the style of [re]  *)
(* ===================================================================== *)

Module Regex.

(** The fragment of Python's regex syntax that the repository uses.
    Every pattern of the sources is compiled with or behaves the same
    under [re.IGNORECASE], so literal characters compare without case. *)
Inductive re : Type :=
| Eps                          (* the empty pattern *)
| Cls (p : ascii -> bool)      (* one character accepted by p *)
| Seq (r1 r2 : re)             (* r1 r2 *)
| Alt (r1 r2 : re)             (* r1|r2, left alternative first *)
| Star (r : re)                (* r*, greedy *)
| Grp (n : nat) (r : re)       (* capture group number n *)
| Bol                          (* ^ *)
| Eol                          (* $ : at the end or before a final newline *)
| Wb.                          (* \b *)

(** Captured groups, most recent binding first. *)
Definition caps := list (nat * string).

Fixpoint group (n : nat) (c : caps) : option string :=
  match c with
  | [] => None
  | (i, w) :: c' => if i =? n then Some w else group n c'
  end.

Definition newline : ascii := ascii_of_N 10.

(** The text consumed between the position [s] and the later position [s']. *)
Definition consumed (s s' : string) : string :=
  substring 0 (String.length s - String.length s') s.

Definition at_end (s : string) : bool :=
  match s with
  | EmptyString => true
  | String c EmptyString => Ascii.eqb c newline
  | _ => false
  end.

Definition word_before (prev : option ascii) : bool :=
  match prev with Some c => PyStr.is_word c | None => false end.

Definition word_after (s : string) : bool :=
  match s with String c _ => PyStr.is_word c | EmptyString => false end.

Definition at_boundary (prev : option ascii) (s : string) : bool :=
  xorb (word_before prev) (word_after s).

(** [x orelse y]: the first success, [y] being tried only when [x] fails. *)
Notation "x 'orelse' y" :=
  (match x with Some a => Some a | None => y end)
  (at level 60, right associativity, only parsing).

Section Matcher.
Context {A : Type}.

(** A continuation receives the character before the current position,
    the rest of the subject, and the captures so far. *)
Definition kont := option ascii -> string -> caps -> option A.

Definition matcher := option ascii -> string -> caps -> kont -> option A.

(** The repetition of [body], longest first: one more round of [body]
    is tried before the continuation, and a round must consume
    something.  [fuel] bounds the rounds; more rounds than characters
    are never needed. *)
Fixpoint star_loop (body : matcher) (fuel : nat) (prev : option ascii)
                   (s : string) (c : caps) (k : kont) : option A :=
  match fuel with
  | 0 => k prev s c
  | S fuel' =>
      body prev s c
        (fun prev' s' c' =>
           if String.length s' <? String.length s
           then star_loop body fuel' prev' s' c' k else None)
      orelse k prev s c
  end.

(** [m r prev s c k]: match [r] at the position whose rest is [s], in
    backtracking order (first alternative first, longest repetition
    first), and hand every way of matching to [k] until one succeeds. *)
Fixpoint m (r : re) (prev : option ascii) (s : string) (c : caps)
           (k : kont) {struct r} : option A :=
  match r with
  | Eps => k prev s c
  | Cls p =>
      match s with
      | String x s' => if p x then k (Some x) s' c else None
      | EmptyString => None
      end
  | Seq r1 r2 => m r1 prev s c (fun prev' s' c' => m r2 prev' s' c' k)
  | Alt r1 r2 => m r1 prev s c k orelse m r2 prev s c k
  | Star r1 => star_loop (m r1) (S (String.length s)) prev s c k
  | Grp n r1 =>
      m r1 prev s c (fun prev' s' c' => k prev' s' ((n, consumed s s') :: c'))
  | Bol => match prev with None => k prev s c | Some _ => None end
  | Eol => if at_end s then k prev s c else None
  | Wb => if at_boundary prev s then k prev s c else None
  end.
End Matcher.

Definition accept : @kont caps := fun _ _ c => Some c.

(** [re.match]: the pattern must match at the start of the subject. *)
Definition re_match (r : re) (s : string) : option caps := m r None s [] accept.

(** [re.search]: the leftmost position at which the pattern matches. *)
Fixpoint search_from (r : re) (prev : option ascii) (s : string) : option caps :=
  match m r prev s [] accept with
  | Some c => Some c
  | None =>
    match s with
    | String x s' => search_from r (Some x) s'
    | EmptyString => None
    end
  end.

Definition search (r : re) (s : string) : option caps := search_from r None s.

Definition found (r : re) (s : string) : bool :=
  match search r s with Some _ => true | None => false end.

(** *** Pattern combinators *)

(** A literal character under IGNORECASE: [x] is accepted when its lower
    case is the lower-case character [lc]. *)
Definition ci_eqb (lc x : ascii) : bool := Ascii.eqb (PyStr.lower_char x) lc.

Definition chr (c : ascii) : re := Cls (ci_eqb (PyStr.lower_char c)).

(** A literal string. *)
Fixpoint lit (s : string) : re :=
  match s with
  | EmptyString => Eps
  | String c EmptyString => chr c
  | String c s' => Seq (chr c) (lit s')
  end.

Definition ws : re := Cls PyStr.isspace.                         (* \s *)
Definition dg : re := Cls PyStr.is_decimal.                      (* \d *)
Definition dot : re := Cls (fun c => negb (Ascii.eqb c newline)). (* . *)
Definition az : re := Cls PyStr.is_alpha_ascii.        (* [a-z], IGNORECASE *)
Definition plus (r : re) : re := Seq r (Star r).                 (* r+ *)
Definition opt (r : re) : re := Alt r Eps.                       (* r? *)
Definition rep12 (r : re) : re := Seq r (opt r).                 (* r{1,2} *)

Fixpoint seqs (l : list re) : re :=
  match l with
  | [] => Eps
  | [r] => r
  | r :: l' => Seq r (seqs l')
  end.

Fixpoint alts (l : list re) : re :=
  match l with
  | [] => Eps
  | [r] => r
  | r :: l' => Alt r (alts l')
  end.

End Regex.

(* ===================================================================== *)
(** ** grip/tools/shell.py: the shell safety filter                      *)
(* ===================================================================== *)

Module Shell.
Import PyStr Regex.

Definition squote : ascii := "'"%char.
Definition dquote : ascii := ascii_of_N 34.
Definition backslash : ascii := "\"%char.

(** A double quote as a one-character string, to write commands with. *)
Definition dq : string := String dquote "".

Definition str_in (x : string) (l : list string) : bool :=
  existsb (String.eqb x) l.

(** Python truthiness of an [str | None] result. *)
Definition truthy (o : option string) : bool :=
  match o with Some r => negb (is_empty r) | None => false end.

(** *** Layer tables *)

Definition _BLOCKED_COMMANDS : list string :=
  [ "mkfs"; "mkfs.ext2"; "mkfs.ext3"; "mkfs.ext4";
    "mkfs.xfs"; "mkfs.btrfs"; "mkfs.vfat"; "mkfs.ntfs";
    "shutdown"; "reboot"; "halt"; "poweroff" ].

Definition _BLOCKED_SYSTEMCTL_ACTIONS : list string :=
  [ "poweroff"; "reboot"; "halt" ].

Definition _RM_LONG_FLAG_MAP : list (string * ascii) :=
  [ ("--recursive", "r"%char); ("--force", "f"%char);
    ("--interactive", "i"%char); ("--dir", "d"%char);
    ("--verbose", "v"%char); ("--no-preserve-root", "!"%char) ].

Definition _DANGEROUS_RM_TARGETS : list string :=
  [ "/"; "/*"; "~"; "$HOME";
    "/home"; "/etc"; "/var"; "/usr"; "/bin"; "/sbin";
    "/lib"; "/boot"; "/root"; "/opt"; "/srv" ].

Definition _INTERPRETER_COMMANDS : list string :=
  [ "python"; "python3"; "python3.10"; "python3.11"; "python3.12"; "python3.13";
    "bash"; "sh"; "zsh"; "dash"; "ksh"; "fish";
    "perl"; "ruby"; "node"; "lua" ].

Definition env_pem_key : re := alts [lit "env"; lit "pem"; lit "key"].

(** Layer 4: each pattern with its source text. *)
Definition _REGEX_DENY : list (string * re) :=
  [ (":\(\)\s*\{\s*:\|:\s*&\s*\}\s*;",
     seqs [lit ":()"; Star ws; lit "{"; Star ws; lit ":|:"; Star ws;
           lit "&"; Star ws; lit "}"; Star ws; lit ";"]);
    ("\bdd\s+if=", seqs [Wb; lit "dd"; plus ws; lit "if="]);
    (">\s*/dev/sd[a-z]", seqs [lit ">"; Star ws; lit "/dev/sd"; az]);
    (">\s*/dev/nvme", seqs [lit ">"; Star ws; lit "/dev/nvme"]);
    (">\s*/dev/disk", seqs [lit ">"; Star ws; lit "/dev/disk"]);
    ("\bchmod\s+.*\s+/\s*$",
     seqs [Wb; lit "chmod"; plus ws; Star dot; plus ws; lit "/"; Star ws; Eol]);
    ("\bchown\s+.*\s+/\s*$",
     seqs [Wb; lit "chown"; plus ws; Star dot; plus ws; lit "/"; Star ws; Eol]);
    ("\bchattr\s+\+i\s+/", seqs [Wb; lit "chattr"; plus ws; lit "+i"; plus ws; lit "/"]);
    ("\bcurl\b.*\|\s*(ba)?sh\b",
     seqs [Wb; lit "curl"; Wb; Star dot; lit "|"; Star ws; opt (Grp 1 (lit "ba")); lit "sh"; Wb]);
    ("\bwget\b.*\|\s*(ba)?sh\b",
     seqs [Wb; lit "wget"; Wb; Star dot; lit "|"; Star ws; opt (Grp 1 (lit "ba")); lit "sh"; Wb]);
    ("\bcurl\b.*\|\s*python", seqs [Wb; lit "curl"; Wb; Star dot; lit "|"; Star ws; lit "python"]);
    ("\bwget\b.*\|\s*python", seqs [Wb; lit "wget"; Wb; Star dot; lit "|"; Star ws; lit "python"]);
    ("\bcurl\b.*\|\s*perl", seqs [Wb; lit "curl"; Wb; Star dot; lit "|"; Star ws; lit "perl"]);
    ("\bcat\s+.*\.ssh/id_", seqs [Wb; lit "cat"; plus ws; Star dot; lit ".ssh/id_"]);
    ("\bcat\s+.*\.env\b", seqs [Wb; lit "cat"; plus ws; Star dot; lit ".env"; Wb]);
    ("\bcat\s+.*/\.aws/credentials",
     seqs [Wb; lit "cat"; plus ws; Star dot; lit "/.aws/credentials"]);
    ("\bcat\s+.*/\.netrc", seqs [Wb; lit "cat"; plus ws; Star dot; lit "/.netrc"]);
    ("\bcat\s+.*\.(bash_|zsh_)?history",
     seqs [Wb; lit "cat"; plus ws; Star dot; lit ".";
           opt (Grp 1 (Alt (lit "bash_") (lit "zsh_"))); lit "history"]);
    ("\bcurl\b.*-[a-z]*d\s*@.*\.(env|pem|key)\b",
     seqs [Wb; lit "curl"; Wb; Star dot; lit "-"; Star az; lit "d"; Star ws;
           lit "@"; Star dot; lit "."; Grp 1 env_pem_key; Wb]);
    ("\bscp\s+.*\.(env|pem|key)\s",
     seqs [Wb; lit "scp"; plus ws; Star dot; lit "."; Grp 1 env_pem_key; ws]) ].

Definition _INTERPRETER_CODE_PATTERNS : list (string * re) :=
  [ ("rm\s.*-.*r.*-.*f.*\s+/",
     seqs [lit "rm"; ws; Star dot; lit "-"; Star dot; lit "r"; Star dot;
           lit "-"; Star dot; lit "f"; Star dot; plus ws; lit "/"]);
    ("rm\s+-rf\s", seqs [lit "rm"; plus ws; lit "-rf"; ws]);
    ("rm\s+--recursive", seqs [lit "rm"; plus ws; lit "--recursive"]);
    ("\bshutdown\b", seqs [Wb; lit "shutdown"; Wb]);
    ("\breboot\b", seqs [Wb; lit "reboot"; Wb]);
    ("\bhalt\b", seqs [Wb; lit "halt"; Wb]);
    ("\bmkfs\b", seqs [Wb; lit "mkfs"; Wb]);
    ("\.ssh/id_", lit ".ssh/id_");
    ("\.env\b", seqs [lit ".env"; Wb]);
    ("/\.aws/credentials", lit "/.aws/credentials");
    ("\.(bash_|zsh_)?history",
     seqs [lit "."; opt (Grp 1 (Alt (lit "bash_") (lit "zsh_"))); lit "history"]) ].

Definition _MAX_CHECK_DEPTH : nat := 3.

(** The source text of the first pattern of a table found in [text]. *)
Fixpoint first_match (pats : list (string * re)) (text : string) : option string :=
  match pats with
  | [] => None
  | (src, r) :: pats' => if found r text then Some src else first_match pats' text
  end.

(** *** [_split_shell_commands] *)

(** [part = "".join(current).strip(); if part: parts.append(part)] *)
Definition flush (current : string) (parts : list string) : list string :=
  let part := strip current in
  if is_empty part then parts else part :: parts.

Definition push (current : string) (ch : ascii) : string :=
  current ++ String ch "".

(** What one iteration of the scanning loop does at character [ch],
    [rest] being what follows it. *)
Inductive split_step : Type :=
| StepEscape        (* a backslash and the character after it are kept *)
| StepSingle        (* a single quote toggles in_single *)
| StepDouble        (* a double quote toggles in_double *)
| StepSep2          (* an unquoted && or || ends the part *)
| StepSep1          (* an unquoted ; ends the part *)
| StepPlain.        (* the character is kept *)

Definition starts_with_sep2 (ch : ascii) (rest : string) : bool :=
  match rest with
  | String ch2 _ =>
      (Ascii.eqb ch "&" && Ascii.eqb ch2 "&") || (Ascii.eqb ch "|" && Ascii.eqb ch2 "|")
  | EmptyString => false
  end.

Definition classify (ch : ascii) (rest : string) (in_single in_double : bool)
  : split_step :=
  if Ascii.eqb ch backslash && negb (is_empty rest) && negb in_single then StepEscape
  else if Ascii.eqb ch squote && negb in_double then StepSingle
  else if Ascii.eqb ch dquote && negb in_single then StepDouble
  else if negb in_single && negb in_double then
    if starts_with_sep2 ch rest then StepSep2
    else if Ascii.eqb ch ";" then StepSep1
    else StepPlain
  else StepPlain.

(** The scanning loop, at the position whose rest is [s]; the result is the
    list of the parts appended from here on. *)
Fixpoint split_loop (s : string) (in_single in_double : bool)
                    (current : string) : list string :=
  match s with
  | EmptyString => flush current []
  | String ch rest =>
      match classify ch rest in_single in_double with
      | StepEscape =>
          match rest with
          | String ch2 rest2 =>
              split_loop rest2 in_single in_double (push (push current ch) ch2)
          | EmptyString => flush (push current ch) []
          end
      | StepSingle => split_loop rest (negb in_single) in_double (push current ch)
      | StepDouble => split_loop rest in_single (negb in_double) (push current ch)
      | StepSep2 =>
          match rest with
          | String _ rest2 => flush current (split_loop rest2 false false "")
          | EmptyString => flush current []
          end
      | StepSep1 => flush current (split_loop rest false false "")
      | StepPlain => split_loop rest in_single in_double (push current ch)
      end
  end.

Definition _split_shell_commands (command : string) : list string :=
  split_loop command false false "".

(** *** [shlex.split] (POSIX mode, [whitespace_split], no comments)

    The standard library's lexer, as the state machine of
    [shlex.read_token]: [None] is the [ValueError] it raises on an
    unterminated quotation or a trailing escape character. *)

Inductive lex_state : Type :=
| LexWhite                      (* ' ' : between tokens *)
| LexWord                       (* 'a' : inside a word *)
| LexQuote (q : ascii)          (* inside a quotation opened by q *)
| LexEscape (back : lex_state). (* after a backslash; back = escapedstate *)

Definition shlex_whitespace (c : ascii) : bool :=
  Ascii.eqb c " " || in_range 9 10 c || is_code 13 c.

Definition is_quote (c : ascii) : bool := Ascii.eqb c squote || Ascii.eqb c dquote.

Fixpoint lex (s : string) (st : lex_state) (token : string) (quoted : bool)
  : option (list string) :=
  match s with
  | EmptyString =>
      match st with
      | LexWhite => Some []
      | LexWord => Some (if is_empty token && negb quoted then [] else [token])
      | LexQuote _ => None
      | LexEscape _ => None
      end
  | String ch rest =>
      match st with
      | LexWhite =>
          if shlex_whitespace ch then lex rest LexWhite token quoted
          else if Ascii.eqb ch backslash then lex rest (LexEscape LexWord) token quoted
          else if is_quote ch then lex rest (LexQuote ch) token quoted
          else lex rest LexWord (String ch "") quoted
      | LexWord =>
          if shlex_whitespace ch then
            (if negb (is_empty token) || quoted
             then option_map (cons token) (lex rest LexWhite "" false)
             else lex rest LexWhite token quoted)
          else if is_quote ch then lex rest (LexQuote ch) token quoted
          else if Ascii.eqb ch backslash then lex rest (LexEscape LexWord) token quoted
          else lex rest LexWord (push token ch) quoted
      | LexQuote q =>
          if Ascii.eqb ch q then lex rest LexWord token true
          else if Ascii.eqb ch backslash && Ascii.eqb q dquote
          then lex rest (LexEscape (LexQuote q)) token true
          else lex rest (LexQuote q) (push token ch) true
      | LexEscape back =>
          let token' :=
            match back with
            | LexQuote q =>
                if negb (Ascii.eqb ch backslash) && negb (Ascii.eqb ch q)
                then push token backslash else token
            | _ => token
            end in
          lex rest back (push token' ch) quoted
      end
  end.

Definition shlex_split (s : string) : option (list string) := lex s LexWhite "" false.

(** *** [_tokenize], [_strip_sudo] *)

Definition _tokenize (command : string) : list string :=
  match shlex_split command with
  | Some tokens => tokens
  | None => split_ws command
  end.

(** The [while] loop of [_strip_sudo], on [tokens[i:]]: the result is
    [tokens[i:]] for the final [i] (empty when [i] ran past the end). *)
Fixpoint sudo_skip (rest : list string) : list string :=
  match rest with
  | [] => []
  | t :: rest' =>
      if startswith "-" t then
        match rest' with
        | [] => []
        | _ :: rest'' => sudo_skip rest''
        end
      else rest
  end.

Definition _strip_sudo (tokens : list string) : list string :=
  match tokens with
  | [] => tokens
  | t0 :: rest =>
      if negb (String.eqb t0 "sudo") then tokens
      else match sudo_skip rest with
           | [] => tokens
           | kept => kept
           end
  end.

(** *** Layer 2: [rm] *)

(** The flag set: a Python [set] of one-character strings, observed only
    through membership. *)
Definition flag_set := list ascii.

Definition has_flag (c : ascii) (flags : flag_set) : bool :=
  existsb (Ascii.eqb c) flags.

Definition add_flag (c : ascii) (flags : flag_set) : flag_set :=
  if has_flag c flags then flags else c :: flags.

Fixpoint add_flags (s : string) (flags : flag_set) : flag_set :=
  match s with
  | EmptyString => flags
  | String c s' => add_flags s' (add_flag c flags)
  end.

Fixpoint dict_get {V : Type} (d : list (string * V)) (k : string) : option V :=
  match d with
  | [] => None
  | (k', v) :: d' => if String.eqb k' k then Some v else dict_get d' k
  end.

(** The loop of [_extract_rm_flags] over [tokens[1:]]. *)
Fixpoint rm_flags_loop (args : list string) (flags : flag_set) : flag_set :=
  match args with
  | [] => flags
  | token :: args' =>
      if String.eqb token "--" then flags
      else if startswith "--" token then
        match dict_get _RM_LONG_FLAG_MAP token with
        | Some mapped => rm_flags_loop args' (add_flag mapped flags)
        | None => rm_flags_loop args' flags
        end
      else if startswith "-" token && (1 <? String.length token)
              && negb (isdigit (tail token))
      then rm_flags_loop args' (add_flags (tail token) flags)
      else rm_flags_loop args' flags
  end.

Definition _extract_rm_flags (tokens : list string) : flag_set :=
  rm_flags_loop (List.tl tokens) [].

(** The loop of [_extract_rm_targets] over [tokens[1:]]. *)
Fixpoint rm_targets_loop (args : list string) (past_flags : bool) : list string :=
  match args with
  | [] => []
  | token :: args' =>
      if String.eqb token "--" then rm_targets_loop args' true
      else if past_flags || negb (startswith "-" token)
      then token :: rm_targets_loop args' past_flags
      else rm_targets_loop args' past_flags
  end.

Definition _extract_rm_targets (tokens : list string) : list string :=
  rm_targets_loop (List.tl tokens) false.

(** [target.rstrip("/") or "/"] *)
Definition normalize_target (target : string) : string :=
  let n := rstrip_slash target in
  if is_empty n then "/" else n.

Definition matches_dangerous (normalized : string) : bool :=
  existsb (fun dangerous =>
             String.eqb normalized dangerous
             || String.eqb normalized (rstrip_slash dangerous))
          _DANGEROUS_RM_TARGETS.

Fixpoint rm_target_loop (has_recursive has_force : bool) (targets : list string)
  : option string :=
  match targets with
  | [] => None
  | target :: targets' =>
      let normalized := normalize_target target in
      if has_recursive && String.eqb normalized "/"
      then Some "rm -r on root filesystem"
      else if has_recursive && has_force && matches_dangerous normalized
      then Some ("rm -rf on critical path: " ++ target)
      else rm_target_loop has_recursive has_force targets'
  end.

Definition _check_rm (tokens : list string) : option string :=
  let flags := _extract_rm_flags tokens in
  let targets := _extract_rm_targets tokens in
  if has_flag "!" flags && has_flag "r" flags
  then Some "rm with --no-preserve-root and recursive flag"
  else rm_target_loop (has_flag "r" flags) (has_flag "f" flags) targets.

(** *** Layer 3: interpreter escape *)

Fixpoint find_code_arg (tokens : list string) : option string :=
  match tokens with
  | [] => None
  | token :: rest =>
      match rest with
      | next :: _ =>
          if String.eqb token "-c" then Some next
          else if startswith "-c" token && (2 <? String.length token)
          then Some (tail (tail token))
          else find_code_arg rest
      | [] =>
          if startswith "-c" token && (2 <? String.length token)
          then Some (tail (tail token))
          else find_code_arg rest
      end
  end.

Section Interpreter.
(** [_is_dangerous(., _depth=depth + 1)] *)
Variable deeper : string -> option string.

Definition _check_interpreter (tokens : list string) (base_cmd : string)
  : option string :=
  let code_arg :=
    match find_code_arg tokens with
    | Some c => Some c
    | None =>
        if String.eqb base_cmd "eval" && (1 <? List.length tokens)
        then Some (join_space (List.tl tokens)) else None
    end in
  match code_arg with
  | None => None
  | Some code =>
      let danger := deeper code in
      if truthy danger then
        Some ("Interpreter escape via " ++ base_cmd ++ " -c: "
              ++ match danger with Some d => d | None => "" end)
      else
        match first_match _INTERPRETER_CODE_PATTERNS code with
        | Some src =>
            Some ("Interpreter escape via " ++ base_cmd
                  ++ " -c: code contains '" ++ src ++ "'")
        | None =>
            match first_match _REGEX_DENY code with
            | Some src => Some ("Interpreter escape via " ++ base_cmd ++ " -c: " ++ src)
            | None => None
            end
        end
  end.

(** [len(tokens) > 1 and tokens[1] in table] *)
Definition second_in (tokens : list string) (table : list string) : bool :=
  match tokens with
  | _ :: t1 :: _ => str_in t1 table
  | _ => false
  end.

Definition second (tokens : list string) : string := List.nth 1 tokens "".

(** Layers 1 to 3 on the tokens of one sub-command (after [_strip_sudo]):
    [Some reason] where the loop body returns, [None] where it goes on to
    the next sub-command. *)
Definition check_tokens (tokens : list string) : option string :=
  match tokens with
  | [] => None
  | t0 :: _ =>
      let base_cmd := after_last_slash t0 in
      if str_in base_cmd _BLOCKED_COMMANDS
      then Some ("Blocked command: " ++ base_cmd)
      else if String.eqb base_cmd "systemctl"
              && second_in tokens _BLOCKED_SYSTEMCTL_ACTIONS
      then Some ("systemctl " ++ second tokens ++ " is blocked")
      else if String.eqb base_cmd "init" && second_in tokens ["0"; "6"]
      then Some ("init " ++ second tokens ++ " (system halt/reboot)")
      else
        let rm_result :=
          if String.eqb base_cmd "rm" then _check_rm tokens else None in
        if truthy rm_result then rm_result
        else
          let result :=
            if str_in base_cmd _INTERPRETER_COMMANDS || String.eqb base_cmd "eval"
            then _check_interpreter tokens base_cmd else None in
          if truthy result then result else None
  end.

(** The body of the loop of [_is_dangerous] for one sub-command. *)
Definition check_subcommand (subcmd : string) : option string :=
  match _tokenize subcmd with
  | [] => None
  | tokens => check_tokens (_strip_sudo tokens)
  end.
End Interpreter.

(** The first sub-command on which the loop body returns. *)
Fixpoint first_reason (check : string -> option string) (subcmds : list string)
  : option string :=
  match subcmds with
  | [] => None
  | subcmd :: subcmds' => check subcmd orelse first_reason check subcmds'
  end.

(** Layer 4 on a whole command string. *)
Definition regex_deny (command : string) : option string :=
  match first_match _REGEX_DENY command with
  | Some src => Some ("Blocked: matches pattern '" ++ src ++ "'")
  | None => None
  end.

(** [_is_dangerous] with [levels = _MAX_CHECK_DEPTH - _depth] levels of
  interpreter nesting left: [_depth >= _MAX_CHECK_DEPTH] is [levels = 0]. *)
Fixpoint dangerous_within (levels : nat) (command : string) : option string :=
  match levels with
  | 0 => None
  | S levels' =>
    first_reason (check_subcommand (dangerous_within levels'))
                 (_split_shell_commands command)
    orelse regex_deny command
  end.

Definition _is_dangerous (command : string) (_depth : nat) : option string :=
  dangerous_within (_MAX_CHECK_DEPTH - _depth) command.

End Shell.

(* ===================================================================== *)
(** ** grip/tools/shell.py: [ShellTool.execute]                          *)
(* ===================================================================== *)

Module ShellExec.
Import PyStr Shell.

Definition _OUTPUT_LIMIT : Z := 50000.

(** What [execute] reads of its context. *)
Record ToolContext : Type := {
  workspace_path : string;
  shell_timeout : Z;
  dry_run : bool          (* [ctx.extra.get("dry_run")], as a truth value *)
}.

(** How a process that was started ends within the timeout, or not. *)
Inductive process_end : Type :=
| Exited (stdout stderr : string) (returncode : Z)
| TimedOut.

(** What [asyncio.create_subprocess_shell] does. *)
Inductive spawned : Type :=
| Started (e : process_end)
| FileNotFoundError
| OSError (message : string).

(** The calls [execute] makes on the operating system. *)
Inductive os_call : Type :=
| CreateSubprocessShell (command cwd : string)
| Kill.

Inductive tool_result : Type :=
| Returns (s : string)
| RaisesKeyError (key : string).

Definition nl : string := String Regex.newline "".

(** The truncation of an output over the limit. *)
Definition truncate_output (output : string) : string :=
  let len := Z.of_nat (String.length output) in
  if (_OUTPUT_LIMIT <? len)%Z then
    let half := (_OUTPUT_LIMIT / 2)%Z in
    substring 0 (Z.to_nat half) output
    ++ nl ++ nl ++ "[... truncated " ++ str_of_Z (len - _OUTPUT_LIMIT) ++ " chars ...]"
    ++ nl ++ nl
    ++ substring (Z.to_nat (len - half)) (Z.to_nat half) output
  else output.

Definition format_output (stdout stderr : string) (returncode : Z) : string :=
  let parts :=
    ((if is_empty stdout then [] else [stdout])
     ++ (if is_empty stderr then [] else [("[stderr]" ++ nl ++ stderr)%string])
     ++ (if (returncode =? 0)%Z then []
         else [("[exit code: " ++ str_of_Z returncode ++ "]")%string]))%list in
  truncate_output
    (match parts with
     | [] => "(no output)"
     | _ :: _ => String.concat nl parts
     end).

Section Execute.
(** The operating system: what becomes of a command started in a
    directory. *)
Variable os : string -> string -> spawned.

(** [execute]: [command] and [timeout] are [params.get] of these keys. *)
Definition execute (command : option string) (timeout : option Z)
                   (ctx : ToolContext) : list os_call * tool_result :=
  match command with
  | None => ([], RaisesKeyError "command")
  | Some command =>
    let timeout :=
      match timeout with
      | Some t => if (t =? 0)%Z then shell_timeout ctx else t
      | None => shell_timeout ctx
      end in
    let proceed :=
      if dry_run ctx then
        ([], Returns ("[DRY RUN] Would execute: " ++ command
                      ++ " (timeout=" ++ str_of_Z timeout ++ "s)"))
      else
        let cwd := workspace_path ctx in
        let call := CreateSubprocessShell command cwd in
        match os command cwd with
        | Started (Exited stdout stderr returncode) =>
            ([call], Returns (format_output stdout stderr returncode))
        | Started TimedOut =>
            ([call; Kill],
             Returns ("Error: Command timed out after " ++ str_of_Z timeout
                      ++ "s: " ++ command))
        | FileNotFoundError =>
            ([call], Returns ("Error: Shell not found. Cannot execute: " ++ command))
        | OSError message =>
            ([call], Returns ("Error: OS error executing command: " ++ message))
        end in
    match _is_dangerous command 0 with
    | Some danger =>
        if is_empty danger then proceed
        else ([], Returns ("Error: " ++ danger))
    | None => proceed
    end
  end.
End Execute.

End ShellExec.

(* ===================================================================== *)
(** ** grip/workflow/models.py: validation and execution layers          *)
(* ===================================================================== *)

Module Workflow.
Import PyStr.

Record StepDef : Type := {
  name : string;
  prompt : string;
  profile : string;
  depends_on : list string;
  timeout_seconds : Z
}.

(** [name] of the class is [wf_name] here, [StepDef] having a field of
    that name too. *)
Record WorkflowDef : Type := {
  wf_name : string;
  description : string;
  steps : list StepDef
}.

(** *** Exceptions

    A computation returns a value, raises [KeyError] (a failed dictionary
    subscript), or exhausts the iteration bound of a modelled [while]
    loop. *)
Inductive result (A : Type) : Type :=
| Ok (a : A)
| KeyError (key : string)
| OutOfFuel.
Arguments Ok {A} a.
Arguments KeyError {A} key.
Arguments OutOfFuel {A}.

Definition bind {A B : Type} (x : result A) (f : A -> result B) : result B :=
  match x with
  | Ok a => f a
  | KeyError k => KeyError k
  | OutOfFuel => OutOfFuel
  end.

Notation "x <- e ;; k" := (bind e (fun x => k))
  (at level 61, e at next level, right associativity).
Notation "' p <- e ;; k" := (bind e (fun p => k))
  (at level 61, p pattern, e at next level, right associativity).

(** *** Dictionaries

    A Python [dict] keeps its keys in insertion order; assigning to a key
    that is present replaces the value where it stands. *)
Definition dict (V : Type) : Type := list (string * V).

Fixpoint dict_find {V : Type} (d : dict V) (k : string) : option V :=
  match d with
  | [] => None
  | (k', v) :: d' => if String.eqb k' k then Some v else dict_find d' k
  end.

(** [d[k]] *)
Definition dict_get {V : Type} (d : dict V) (k : string) : result V :=
  match dict_find d k with
  | Some v => Ok v
  | None => KeyError k
  end.

(** [d[k] = v] *)
Fixpoint dict_set {V : Type} (d : dict V) (k : string) (v : V) : dict V :=
  match d with
  | [] => [(k, v)]
  | (k', v') :: d' =>
      if String.eqb k' k then (k', v) :: d' else (k', v') :: dict_set d' k v
  end.

Definition keys {V : Type} (d : dict V) : list string := map fst d.

(** [{s.name: v for s in steps}] *)
Definition dict_of_names {V : Type} (steps : list StepDef) (v : V) : dict V :=
  fold_left (fun d s => dict_set d (name s) v) steps [].

(** *** [_build_graph] *)

Definition graph : Type := dict (list string) * dict Z.

(** The inner loop, over [step.depends_on]. *)
Fixpoint add_deps (step_name : string) (deps : list string) (g : graph)
  : result graph :=
  match deps with
  | [] => Ok g
  | dep :: deps' =>
      let (adj, in_degree) := g in
      successors <- dict_get adj dep ;;
      let adj := dict_set adj dep (successors ++ [step_name])%list in
      degree <- dict_get in_degree step_name ;;
      let in_degree := dict_set in_degree step_name (degree + 1)%Z in
      add_deps step_name deps' (adj, in_degree)
  end.

(** The outer loop, over [steps]. *)
Fixpoint add_steps (todo : list StepDef) (g : graph) : result graph :=
  match todo with
  | [] => Ok g
  | step :: todo' =>
      g' <- add_deps (name step) (depends_on step) g ;;
      add_steps todo' g'
  end.

Definition _build_graph (steps : list StepDef) : result graph :=
  add_steps steps (dict_of_names steps [], dict_of_names steps 0%Z).

(** *** [sorted] on strings: a merge sort on the code-point order *)

Module StringOrder <: Orders.TotalLeBool.
Definition t := string.
Definition leb := String.leb.
Definition leb_total : forall a1 a2, leb a1 a2 = true \/ leb a2 a1 = true :=
  String.leb_total.
End StringOrder.

Module StringSort := Mergesort.Sort StringOrder.

Definition sorted (l : list string) : list string := StringSort.sort l.

(** *** [get_execution_order] *)

(** [for neighbor in adj[node]: ...] *)
Fixpoint relax (neighbors : list string) (in_degree : dict Z)
             (queue : list string) : result (dict Z * list string) :=
  match neighbors with
  | [] => Ok (in_degree, queue)
  | neighbor :: neighbors' =>
    degree <- dict_get in_degree neighbor ;;
    let in_degree := dict_set in_degree neighbor (degree - 1)%Z in
    degree' <- dict_get in_degree neighbor ;;
    let queue := if (degree' =? 0)%Z then (queue ++ [neighbor])%list else queue in
    relax neighbors' in_degree queue
  end.

(** [for node in layer: ...] *)
Fixpoint process_layer (adj : dict (list string)) (layer : list string)
                     (in_degree : dict Z) (queue : list string)
  : result (dict Z * list string) :=
  match layer with
  | [] => Ok (in_degree, queue)
  | node :: layer' =>
    neighbors <- dict_get adj node ;;
    '(in_degree, queue) <- relax neighbors in_degree queue ;;
    process_layer adj layer' in_degree queue
  end.

(** The [while queue:] loop; [layers] is returned in order. *)
Fixpoint layers_loop (fuel : nat) (adj : dict (list string))
                   (in_degree : dict Z) (queue : list string)
  : result (list (list string)) :=
  match queue with
  | [] => Ok []
  | _ :: _ =>
    match fuel with
    | 0 => OutOfFuel
    | S fuel' =>
        let layer := sorted queue in
        '(in_degree, queue) <- process_layer adj layer in_degree [] ;;
        layers <- layers_loop fuel' adj in_degree queue ;;
        Ok (layer :: layers)
    end
  end.

(** [deque(n for n, d in in_degree.items() if d == 0)] *)
Definition initial_queue (in_degree : dict Z) : list string :=
  map fst (filter (fun item => (snd item =? 0)%Z) in_degree).

Definition get_execution_order (wf : WorkflowDef) : result (list (list string)) :=
  '(adj, in_degree) <- _build_graph (steps wf) ;;
    layers_loop (List.length (steps wf)) adj in_degree (initial_queue in_degree).

(** *** [validate] *)

(** [_STEP_NAME_RE = re.compile(r"^[\w-]+$")] *)
Definition _STEP_NAME_RE : Regex.re :=
  Regex.seqs [Regex.Bol;
            Regex.plus (Regex.Cls (fun c => is_word c || Ascii.eqb c "-"));
            Regex.Eol].

Definition step_name_ok (n : string) : bool :=
    negb (is_empty n)
  && match Regex.re_match _STEP_NAME_RE n with Some _ => true | None => false end.

(** [not s or not s.strip()] *)
Definition blank (s : string) : bool := is_empty s || is_empty (strip s).

(** The errors of one step, in the order of the first loop. *)
Definition step_errors (step : StepDef) : list string :=
  List.concat
  [ if step_name_ok (name step) then []
    else ["Step name '" ++ name step
          ++ "' is invalid (must be non-empty, only alphanumeric/underscore/hyphen)"];
    if blank (prompt step)
    then ["Step '" ++ name step ++ "' has an empty prompt"] else [];
    if (timeout_seconds step <? 1)%Z
    then ["Step '" ++ name step ++ "' has invalid timeout ("
          ++ str_of_Z (timeout_seconds step) ++ "s); must be >= 1"]
    else [] ].

Definition str_in (x : string) (l : list string) : bool :=
  existsb (String.eqb x) l.

(** [len({s.name for s in steps})] *)
Definition distinct_count (l : list string) : nat :=
  List.length (nodup string_dec l).

(** The errors of the second loop for one step. *)
Definition dep_errors (names : list string) (step : StepDef) : list string :=
  flat_map (fun dep =>
            if str_in dep names then []
            else ["Step '" ++ name step ++ "' depends on unknown step '" ++ dep ++ "'"])
         (depends_on step).

Definition circular_message : string :=
  "Circular dependency detected in workflow steps".

(** Everything [validate] has appended before the [if not errors:] test. *)
Definition name_errors (wf : WorkflowDef) : list string :=
  if blank (wf_name wf) then ["Workflow name cannot be empty"] else [].

Definition prior_errors (wf : WorkflowDef) : list string :=
  let names := map name (steps wf) in
  List.concat
  [ name_errors wf;
    flat_map step_errors (steps wf);
    if distinct_count names =? List.length (steps wf) then []
    else ["Duplicate step names found"];
    flat_map (dep_errors names) (steps wf) ].

(** [sum(len(layer) for layer in layers)] *)
Definition total_in_layers (layers : list (list string)) : nat :=
  fold_left (fun acc layer => acc + List.length layer) layers 0.

Definition validate (wf : WorkflowDef) : result (list string) :=
  match steps wf with
  | [] =>
    Ok (name_errors wf ++ ["Workflow must have at least one step"])%list
  | _ :: _ =>
    let errors := prior_errors wf in
    match errors with
    | [] =>
        layers <- get_execution_order wf ;;
        if total_in_layers layers =? List.length (steps wf)
        then Ok errors
        else Ok (errors ++ [circular_message])%list
    | _ :: _ => Ok errors
    end
  end.

End Workflow.

(* ===================================================================== *)
(** ** grip/tools/scheduler.py: the cron-phrase parser                   *)
(* ===================================================================== *)

Module Scheduler.
Import PyStr Regex.

Definition _DAY_MAP : list (string * string) :=
  [ ("monday", "1"); ("tuesday", "2"); ("wednesday", "3"); ("thursday", "4");
    ("friday", "5"); ("saturday", "6"); ("sunday", "0");
    ("mon", "1"); ("tue", "2"); ("wed", "3"); ("thu", "4");
    ("fri", "5"); ("sat", "6"); ("sun", "0") ].

Fixpoint dict_get (d : list (string * string)) (k : string) : option string :=
  match d with
  | [] => None
  | (k', v) :: d' => if String.eqb k' k then Some v else dict_get d' k
  end.

(** [m.group(n)] inside an f-string, or where a string is expected.  In
    every pattern below the groups read this way take part in each
    match, so the text for [None] is never produced. *)
Definition group_text (n : nat) (m : caps) : string :=
  match group n m with Some w => w | None => "None" end.

Definition every : re := lit "every".
Definition am_pm : re := Alt (lit "am") (lit "pm").

(** monday|tuesday|...|sunday|mon|tue|...|sun *)
Definition day_names : re :=
  alts (map lit [ "monday"; "tuesday"; "wednesday"; "thursday"; "friday";
                  "saturday"; "sunday";
                  "mon"; "tue"; "wed"; "thu"; "fri"; "sat"; "sun" ]).

(** every\s+(\d+)\s+minutes? *)
Definition re_n_minutes : re :=
  seqs [every; plus ws; Grp 1 (plus dg); plus ws; lit "minute"; opt (chr "s")].

(** every\s+(\d+)\s+hours? *)
Definition re_n_hours : re :=
  seqs [every; plus ws; Grp 1 (plus dg); plus ws; lit "hour"; opt (chr "s")].

(** every\s+minute *)
Definition re_minute : re := seqs [every; plus ws; lit "minute"].

(** every\s+hour *)
Definition re_hour : re := seqs [every; plus ws; lit "hour"].

(** every\s+day\s+at\s+(\d{1,2})\s*(am|pm)? *)
Definition re_every_day : re :=
  seqs [every; plus ws; lit "day"; plus ws; lit "at"; plus ws;
        Grp 1 (rep12 dg); Star ws; opt (Grp 2 am_pm)].

(** every\s+(monday|...|sun)\s+at\s+(\d{1,2})\s*(am|pm)? *)
Definition re_day : re :=
  seqs [every; plus ws; Grp 1 day_names; plus ws; lit "at"; plus ws;
        Grp 2 (rep12 dg); Star ws; opt (Grp 3 am_pm)].

(** every\s+month\s+on\s+the\s+(\d{1,2})(st|nd|rd|th)? *)
Definition re_month : re :=
  seqs [every; plus ws; lit "month"; plus ws; lit "on"; plus ws; lit "the";
        plus ws; Grp 1 (rep12 dg);
        opt (Grp 2 (alts [lit "st"; lit "nd"; lit "rd"; lit "th"]))].

(** every\s+weekday\s+at\s+(\d{1,2})\s*(am|pm)? *)
Definition re_weekday : re :=
  seqs [every; plus ws; lit "weekday"; plus ws; lit "at"; plus ws;
        Grp 1 (rep12 dg); Star ws; opt (Grp 2 am_pm)].

(** [*\d/,\-] *)
Definition cron_char (c : ascii) : bool :=
  Ascii.eqb c "*" || is_decimal c || Ascii.eqb c "/" || Ascii.eqb c ","
  || Ascii.eqb c "-".

Definition cron_field : re := plus (Cls cron_char).

(** ^([*\d/,\-]+\s+[*\d/,\-]+\s+[*\d/,\-]+\s+[*\d/,\-]+\s+[*\d/,\-]+)$ *)
Definition re_cron : re :=
  seqs [Bol;
        Grp 1 (seqs [cron_field; plus ws; cron_field; plus ws; cron_field;
                     plus ws; cron_field; plus ws; cron_field]);
        Eol].

(** The rule table: a pattern and its handler, [None] where the source
    has no callable. *)
Definition _NL_PATTERNS : list (re * option (caps -> string)) :=
  [ (re_n_minutes, Some (fun m => "*/" ++ group_text 1 m ++ " * * * *"));
    (re_n_hours, Some (fun m => "0 */" ++ group_text 1 m ++ " * * *"));
    (re_minute, Some (fun _ => "* * * * *"));
    (re_hour, Some (fun _ => "0 * * * *"));
    (re_every_day, None);
    (re_day, None);
    (re_month, Some (fun m => "0 0 " ++ group_text 1 m ++ " * *"));
    (re_weekday, None) ].

(** [hour_str] is a group matched by [\d{1,2}]: one or two decimal
    digits, on which [int] does not raise. *)
Definition _parse_hour (hour_str : string) (ampm : option string) : Z :=
  let hour := int hour_str in
  match ampm with
  | Some a =>
      if is_empty a then hour
      else
        let a := lower a in
        if String.eqb a "pm" && negb (hour =? 12)%Z then (hour + 12)%Z
        else if String.eqb a "am" && (hour =? 12)%Z then 0%Z
        else hour
  | None => hour
  end.

(** The [for pattern, handler in _NL_PATTERNS] loop: the first pattern
    that is found and has a callable handler decides. *)
Fixpoint nl_loop (patterns : list (re * option (caps -> string))) (text : string)
  : option string :=
  match patterns with
  | [] => None
  | (pattern, handler) :: patterns' =>
      match search pattern text with
      | None => nl_loop patterns' text
      | Some m =>
          match handler with
          | Some h => Some (h m)
          | None => nl_loop patterns' text
          end
      end
  end.

(** What follows the loop. *)
Definition after_loop (text : string) : option string :=
  match search re_every_day text with
  | Some m =>
      let hour := _parse_hour (group_text 1 m) (group 2 m) in
      Some ("0 " ++ str_of_Z hour ++ " * * *")
  | None =>
  match search re_day text with
  | Some m =>
      let day :=
        match dict_get _DAY_MAP (lower (group_text 1 m)) with
        | Some d => d
        | None => "0"
        end in
      let hour := _parse_hour (group_text 2 m) (group 3 m) in
      Some ("0 " ++ str_of_Z hour ++ " * * " ++ day)
  | None =>
  match search re_weekday text with
  | Some m =>
      let hour := _parse_hour (group_text 1 m) (group 2 m) in
      Some ("0 " ++ str_of_Z hour ++ " * * 1-5")
  | None =>
  match re_match re_cron text with
  | Some m => Some (group_text 1 m)
  | None => None
  end end end end.

Definition parse_natural_language (expression : string) : option string :=
  let text := strip expression in
  match nl_loop _NL_PATTERNS text with
  | Some cron => Some cron
  | None => after_loop text
  end.

End Scheduler.

(* ===================================================================== *)
(** ** grip/tools/scheduler.py: migration of the legacy cron files       *)
(* ===================================================================== *)

Module Migration.
Import PyStr.

(** Parsed JSON.  Numbers are integers (JSON floats are outside the
    model); an object is the dictionary [json.loads] builds, its keys in
    order. *)
#[warnings="-register-all"]
Inductive json : Type :=
| JNull
| JBool (b : bool)
| JNum (n : Z)
| JStr (s : string)
| JArr (items : list json)
| JObj (fields : list (string * json)).

(** What reading and parsing a file gives. *)
Inductive content : Type :=
| Unreadable            (* OSError or json.JSONDecodeError *)
| Undecodable           (* UnicodeDecodeError: neither of the two *)
| Parsed (v : json).

(** The [cron/] directory: [jobs.json] when it exists, and the other
    [*.json] files in the order [glob] yields them; and what the file
    system refuses: whether writing [jobs.json] (creating the directory,
    writing [jobs.tmp], renaming it) raises [OSError], and for which
    files [unlink] does.  The temporary file [jobs.tmp], which no
    function reads, is not part of the record. *)
Record cron_dir : Type := {
  jobs_file : option content;
  other_files : list (string * content);
  write_fails : bool;
  unlink_fails : string -> bool
}.

Inductive exn : Type :=
| AttributeError
| TypeError
| UnicodeDecodeError
| OSError.

Inductive outcome (A : Type) : Type :=
| Returns (a : A)
| Raises (e : exn).
Arguments Returns {A} a.
Arguments Raises {A} e.

Fixpoint fields_get (fields : list (string * json)) (k : string) : option json :=
  match fields with
  | [] => None
  | (k', v) :: fields' => if String.eqb k' k then Some v else fields_get fields' k
  end.

(** [v.get(k, default)]: only a dictionary has [get]. *)
Definition get (v : json) (k : string) (default : json) : outcome json :=
  match v with
  | JObj fields =>
      Returns (match fields_get fields k with Some x => x | None => default end)
  | _ => Raises AttributeError
  end.

(** Lists and dictionaries are not hashable. *)
Definition hashable (v : json) : bool :=
  match v with
  | JArr _ | JObj _ => false
  | _ => true
  end.

(** [==] on hashable values: [True == 1] and [False == 0]. *)
Definition py_eq (a b : json) : bool :=
  match a, b with
  | JNull, JNull => true
  | JBool x, JBool y => Bool.eqb x y
  | JBool x, JNum n | JNum n, JBool x => (n =? (if x then 1 else 0))%Z
  | JNum n, JNum k => (n =? k)%Z
  | JStr s, JStr t => String.eqb s t
  | _, _ => false
  end.

(** [_load_jobs_file] *)
Definition _load_jobs_file (d : cron_dir) : outcome (list json) :=
  match jobs_file d with
  | None => Returns []
  | Some Unreadable => Returns []
  | Some Undecodable => Raises UnicodeDecodeError
  | Some (Parsed (JArr jobs)) => Returns jobs
  | Some (Parsed _) => Returns []
  end.

(** [{j.get("id") for j in jobs}] *)
Fixpoint existing_ids_of (jobs : list json) : outcome (list json) :=
  match jobs with
  | [] => Returns []
  | j :: jobs' =>
      match get j "id" JNull with
      | Raises e => Raises e
      | Returns id =>
          if hashable id then
            match existing_ids_of jobs' with
            | Returns ids => Returns (id :: ids)
            | Raises e => Raises e
            end
          else Raises TypeError
      end
  end.

(** [x in ids] for a set [ids]. *)
Definition in_ids (x : json) (ids : list json) : outcome bool :=
  if hashable x then Returns (existsb (py_eq x) ids) else Raises TypeError.

(** [_save_jobs_file]: [jobs.json] is replaced by the serialised list
    through [jobs.tmp]; when the file system refuses one of the steps,
    [OSError] is raised and [jobs.json] is as it was. *)
Definition _save_jobs_file (d : cron_dir) (jobs : list json)
  : cron_dir * outcome unit :=
  if write_fails d then (d, Raises OSError)
  else ({| jobs_file := Some (Parsed (JArr jobs));
           other_files := other_files d;
           write_fails := write_fails d;
           unlink_fails := unlink_fails d |}, Returns tt).

Definition field_or (entry : list (string * json)) (k : string) (default : json)
  : json :=
  match fields_get entry k with Some v => v | None => default end.

(** The [migrated] dictionary of an entry whose id is the string
    [entry_id], [stamp] being what [datetime.now(UTC).isoformat()] gives
    when the dictionary is built. *)
Definition migrated_entry (stamp : string) (entry : list (string * json))
                          (entry_id : string) : json :=
  JObj
    [ ("id", JStr (if startswith "cron_" entry_id then entry_id
                   else "cron_" ++ entry_id));
      ("name", field_or entry "name" (JStr "Unnamed task"));
      ("schedule", field_or entry "cron" (field_or entry "schedule" (JStr "")));
      ("prompt", field_or entry "command" (field_or entry "prompt" (JStr "")));
      ("enabled", field_or entry "enabled" (JBool true));
      ("last_run", field_or entry "last_run" JNull);
      ("created_at", field_or entry "created_at" (JStr stamp));
      ("reply_to", field_or entry "reply_to" (JStr "")) ].

Section Migrate.
(** The clock: [now k] is what the call number [k] of
    [datetime.now(UTC).isoformat()] returns.  The migration reads it once
    for every entry it migrates. *)
Variable now : nat -> string.

(** The [for f in individual_files] loop.  The state is the list [jobs],
    the number of clock readings so far, and the files still on disk:
    [kept] collects the files the loop has passed without unlinking.  An
    exception leaves the file at which it is raised and the files not
    yet visited where they are. *)
Fixpoint migrate_loop (refused : string -> bool) (files : list (string * content))
                      (existing_ids : list json) (jobs : list json)
                      (kept : list (string * content)) (readings : nat)
  : list (string * content) * outcome (list json) :=
  match files with
  | [] => (kept, Returns jobs)
  | (f, c) :: files' =>
      match c with
      | Unreadable =>
          migrate_loop refused files' existing_ids jobs (kept ++ [(f, c)])%list
                       readings
      | Undecodable => ((kept ++ files)%list, Raises UnicodeDecodeError)
      | Parsed entry =>
          match get entry "id" (JStr "") with
          | Raises e => ((kept ++ files)%list, Raises e)
          | Returns entry_id =>
              match in_ids entry_id existing_ids with
              | Raises e => ((kept ++ files)%list, Raises e)
              | Returns true =>
                  if refused f then ((kept ++ files)%list, Raises OSError)
                  else migrate_loop refused files' existing_ids jobs kept readings
              | Returns false =>
                  match entry_id, entry with
                  | JStr id, JObj fields =>
                      if refused f then ((kept ++ files)%list, Raises OSError)
                      else
                        migrate_loop refused files' existing_ids
                          (jobs ++ [migrated_entry (now readings) fields id])%list
                          kept (S readings)
                  | _, _ => ((kept ++ files)%list, Raises AttributeError)
                  end
              end
          end
      end
  end.

(** [_migrate_individual_files]: the directory afterwards, and how the
    call ends. *)
Definition _migrate_individual_files (d : cron_dir) : cron_dir * outcome unit :=
  match other_files d with
  | [] => (d, Returns tt)
  | individual_files =>
      match _load_jobs_file d with
      | Raises e => (d, Raises e)
      | Returns jobs =>
          match existing_ids_of jobs with
          | Raises e => (d, Raises e)
          | Returns existing_ids =>
              let (remaining, ended) :=
                migrate_loop (unlink_fails d) individual_files existing_ids jobs [] 0 in
              let d1 := {| jobs_file := jobs_file d; other_files := remaining;
                           write_fails := write_fails d;
                           unlink_fails := unlink_fails d |} in
              match ended with
              | Raises e => (d1, Raises e)
              | Returns jobs' => _save_jobs_file d1 jobs'
              end
          end
      end
  end.
End Migrate.

End Migration.

(* ===================================================================== *)
(** ** grip/tools/scheduler.py: creating and deleting scheduled tasks    *)
(* ===================================================================== *)

Module SchedulerTool.
Import PyStr Migration Scheduler.

(** The parameters of a call, as the tool's schema declares them: a
    dictionary from names to strings. *)
Definition params := list (string * string).

(** [params.get(k, default)] *)
Definition param (p : params) (k default : string) : string :=
  match Scheduler.dict_get p k with Some v => v | None => default end.

(** [":" in s] *)
Fixpoint has_colon (s : string) : bool :=
  match s with
  | EmptyString => false
  | String c s' => Ascii.eqb c ":" || has_colon s'
  end.

Section Tool.
(** [datetime.now(UTC).isoformat()] and [uuid.uuid4().hex[:8]] *)
Variable now : string.
Variable fresh : string.

Definition new_entry (task_name cron_expr command reply_to : string) : json :=
  JObj
    [ ("id", JStr ("cron_" ++ fresh));
      ("name", JStr task_name);
      ("schedule", JStr cron_expr);
      ("prompt", JStr command);
      ("enabled", JBool true);
      ("last_run", JNull);
      ("created_at", JStr now);
      ("reply_to", JStr reply_to) ].

Definition created_message (task_name cron_expr schedule command reply_to : string)
  : string :=
  "Scheduled task created:" ++ String Regex.newline ""
  ++ "  ID: cron_" ++ fresh ++ String Regex.newline ""
  ++ "  Name: " ++ task_name ++ String Regex.newline ""
  ++ "  Cron: " ++ cron_expr ++ String Regex.newline ""
  ++ "  Schedule: " ++ schedule ++ String Regex.newline ""
  ++ "  Prompt: " ++ command
  ++ (if is_empty reply_to then ""
      else String Regex.newline "" ++ "  Reply to: " ++ reply_to).

(** [SchedulerTool._create]: the directory afterwards, and the text
    returned or the exception raised. *)
Definition _create (p : params) (d : cron_dir) : cron_dir * outcome string :=
  let schedule := param p "schedule" "" in
  let task_name := param p "task_name" "Unnamed task" in
  let command := param p "command" "" in
  let reply_to := param p "reply_to" "" in
  if is_empty schedule
  then (d, Returns "Error: schedule is required for create action.")
  else if negb (is_empty reply_to) && negb (has_colon reply_to)
  then (d, Returns ("Error: invalid reply_to format '" ++ reply_to ++ "'. "
                    ++ "Expected 'channel:chat_id' (e.g. 'telegram:12345')."))
  else
    match parse_natural_language schedule with
    | None =>
        (d, Returns ("Error: could not parse schedule '" ++ schedule ++ "'. "
                     ++ "Try formats like: 'every 5 minutes', 'every day at 9am', "
                     ++ "'every Monday at 3pm', "
                     ++ "or a raw cron expression like '*/5 * * * *'."))
    | Some cron_expr =>
        match _load_jobs_file d with
        | Raises e => (d, Raises e)
        | Returns jobs =>
            match _save_jobs_file d
                    (jobs ++ [new_entry task_name cron_expr command reply_to])%list
            with
            | (d', Raises e) => (d', Raises e)
            | (d', Returns _) =>
                (d', Returns (created_message task_name cron_expr schedule command
                                              reply_to))
            end
        end
    end.

(** [j.get("id") != task_id] *)
Definition other_id (task_id : string) (j : json) : outcome bool :=
  match get j "id" JNull with
  | Raises e => Raises e
  | Returns (JStr id) => Returns (negb (String.eqb id task_id))
  | Returns _ => Returns true
  end.

(** [[j for j in jobs if j.get("id") != task_id]] *)
Fixpoint without_id (task_id : string) (jobs : list json) : outcome (list json) :=
  match jobs with
  | [] => Returns []
  | j :: jobs' =>
      match other_id task_id j with
      | Raises e => Raises e
      | Returns keep =>
          match without_id task_id jobs' with
          | Raises e => Raises e
          | Returns rest => Returns (if keep then j :: rest else rest)
          end
      end
  end.

(** [SchedulerTool._delete] *)
Definition _delete (p : params) (d : cron_dir) : cron_dir * outcome string :=
  let task_id := param p "task_id" "" in
  if is_empty task_id
  then (d, Returns "Error: task_id is required for delete action.")
  else
    match _load_jobs_file d with
    | Raises e => (d, Raises e)
    | Returns jobs =>
        match without_id task_id jobs with
        | Raises e => (d, Raises e)
        | Returns filtered =>
            if List.length filtered =? List.length jobs
            then (d, Returns ("Error: no scheduled task found with ID '"
                              ++ task_id ++ "'."))
            else
              match _save_jobs_file d filtered with
              | (d', Raises e) => (d', Raises e)
              | (d', Returns _) =>
                  (d', Returns ("Deleted scheduled task: " ++ task_id))
              end
        end
    end.
End Tool.

End SchedulerTool.

(* ===================================================================== *)
(** ** grip/workflow/models.py: [to_dict] and [from_dict]                *)
(* ===================================================================== *)

Module WorkflowDict.
Import PyStr Migration.

(** [from_dict] checks no type: the fields of the dataclasses it builds
    hold whatever the dictionary holds, apart from [timeout_seconds],
    which goes through [int]. *)
Record StepData : Type := {
  step_name : json;
  step_prompt : json;
  step_profile : json;
  step_depends_on : json;
  step_timeout_seconds : Z
}.

Record WorkflowData : Type := {
  data_name : json;
  data_description : json;
  data_steps : list StepData
}.

(** The dataclasses of a workflow whose fields have their declared types. *)
Definition step_data (s : Workflow.StepDef) : StepData :=
  {| step_name := JStr (Workflow.name s);
     step_prompt := JStr (Workflow.prompt s);
     step_profile := JStr (Workflow.profile s);
     step_depends_on := JArr (map JStr (Workflow.depends_on s));
     step_timeout_seconds := Workflow.timeout_seconds s |}.

Definition data_of (wf : Workflow.WorkflowDef) : WorkflowData :=
  {| data_name := JStr (Workflow.wf_name wf);
     data_description := JStr (Workflow.description wf);
     data_steps := map step_data (Workflow.steps wf) |}.

Inductive error : Type :=
| KeyError (key : string)
| TypeError
| AttributeError
| ValueError.

Inductive raising (A : Type) : Type :=
| Return (a : A)
| Raise (e : error).
Arguments Return {A} a.
Arguments Raise {A} e.

Definition and_then {A B : Type} (x : raising A) (f : A -> raising B) : raising B :=
  match x with
  | Return a => f a
  | Raise e => Raise e
  end.

Notation "x <- e ;; k" := (and_then e (fun x => k))
  (at level 61, e at next level, right associativity).

(** [v[k]] for a string [k] *)
Definition subscript (v : json) (k : string) : raising json :=
  match v with
  | JObj fields =>
      match fields_get fields k with
      | Some x => Return x
      | None => Raise (KeyError k)
      end
  | _ => Raise TypeError
  end.

(** [v.get(k, default)] *)
Definition get_or (v : json) (k : string) (default : json) : raising json :=
  match v with
  | JObj fields =>
      Return (match fields_get fields k with Some x => x | None => default end)
  | _ => Raise AttributeError
  end.

(** [for s in v]: the items of a list, the characters of a string, the
    keys of a dictionary. *)
Definition iterate (v : json) : raising (list json) :=
  match v with
  | JArr items => Return items
  | JStr s => Return (map (fun c => JStr (String c "")) (list_ascii_of_string s))
  | JObj fields => Return (map (fun kv => JStr (fst kv)) fields)
  | _ => Raise TypeError
  end.

Fixpoint map_m {A B : Type} (f : A -> raising B) (l : list A) : raising (list B) :=
  match l with
  | [] => Return []
  | x :: l' =>
      y <- f x ;;
      ys <- map_m f l' ;;
      Return (y :: ys)
  end.

(** [to_dict] *)
Definition step_to_dict (s : StepData) : json :=
  JObj [ ("name", step_name s);
         ("prompt", step_prompt s);
         ("profile", step_profile s);
         ("depends_on", step_depends_on s);
         ("timeout_seconds", JNum (step_timeout_seconds s)) ].

Definition to_dict (w : WorkflowData) : json :=
  JObj [ ("name", data_name w);
         ("description", data_description w);
         ("steps", JArr (map step_to_dict (data_steps w))) ].

Section FromDict.
(** [int] on a string: the number it denotes, if any. *)
Variable int_of_str : string -> option Z.

(** [int(v)] *)
Definition int_ (v : json) : raising Z :=
  match v with
  | JNum n => Return n
  | JBool b => Return (if b then 1 else 0)%Z
  | JStr s =>
      match int_of_str s with
      | Some n => Return n
      | None => Raise ValueError
      end
  | _ => Raise TypeError
  end.

(** The [StepDef(...)] of the comprehension. *)
Definition step_from_dict (s : json) : raising StepData :=
  name <- subscript s "name" ;;
  prompt <- subscript s "prompt" ;;
  profile <- get_or s "profile" (JStr "default") ;;
  depends_on <- get_or s "depends_on" (JArr []) ;;
  timeout <- get_or s "timeout_seconds" (JNum 300) ;;
  timeout_seconds <- int_ timeout ;;
  Return {| step_name := name; step_prompt := prompt; step_profile := profile;
            step_depends_on := depends_on;
            step_timeout_seconds := timeout_seconds |}.

(** [from_dict] *)
Definition from_dict (data : json) : raising WorkflowData :=
  steps_value <- get_or data "steps" (JArr []) ;;
  items <- iterate steps_value ;;
  steps <- map_m step_from_dict items ;;
  name <- subscript data "name" ;;
  description <- get_or data "description" (JStr "") ;;
  Return {| data_name := name; data_description := description;
            data_steps := steps |}.
End FromDict.

End WorkflowDict.

(* ===================================================================== *)
(** ** grip/heartbeat/service.py: one beat                               *)
(* ===================================================================== *)

Module Heartbeat.
Import PyStr.

Definition SESSION_KEY : string := "heartbeat:periodic".

(** What [engine.run] returns. *)
Record AgentRunResult : Type := {
  response : string;
  iterations : Z;
  total_tokens : Z
}.

Record OutboundMessage : Type := {
  channel : string;
  chat_id : string;
  text : string
}.

(** An awaited call returns or raises an [Exception], whose [str()] is
    kept. *)
Inductive outcome (A : Type) : Type :=
| Returns (a : A)
| Raises (message : string).
Arguments Returns {A} a.
Arguments Raises {A} message.

(** The calls a beat makes on its collaborators, in order. *)
Inductive event : Type :=
| EngineRun (prompt : string) (session_key : string)
| PublishOutbound (msg : OutboundMessage).

(** [s.split(":", 1)] when it has two parts. *)
Fixpoint split_colon (s : string) : option (string * string) :=
  match s with
  | EmptyString => None
  | String c s' =>
      if Ascii.eqb c ":" then Some ("", s')
      else match split_colon s' with
           | Some (a, b) => Some (String c a, b)
           | None => None
           end
  end.

Section Service.
(** The collaborators and the configuration of one [HeartbeatService]:
    the engine, the bus when there is one, [reply_to], and what
    [HEARTBEAT.md] gives when it exists: its text, or the exception that
    [read_text] raises (the file cannot be read, or is not UTF-8). *)
Variable engine_run : string -> string -> outcome AgentRunResult.
Variable bus : option (OutboundMessage -> outcome unit).
Variable reply_to : string.
Variable heartbeat_file : option (outcome string).

(** [_publish_result]: the events, and how the call ends. *)
Definition _publish_result (publish : OutboundMessage -> outcome unit)
                           (text : string) : list event * outcome unit :=
  match split_colon reply_to with
  | None => ([], Returns tt)
  | Some (channel, chat_id) =>
      let msg := {| channel := channel; chat_id := chat_id; text := text |} in
      match publish msg with
      | Returns _ => ([PublishOutbound msg], Returns tt)
      | Raises _ => ([PublishOutbound msg], Returns tt)
      end
  end.

(** [if self._reply_to and self._bus (and text): await self._publish_result(text)] *)
Definition publish_if_routed (guard : bool) (text : string)
  : list event * outcome unit :=
  match bus with
  | Some publish =>
      if negb (is_empty reply_to) && guard then _publish_result publish text
      else ([], Returns tt)
  | None => ([], Returns tt)
  end.

(** [_beat]: the events, and how the call ends.  The file is read
    before the [try]: what [read_text] raises leaves the beat. *)
Definition _beat : list event * outcome unit :=
  match heartbeat_file with
  | None => ([], Returns tt)
  | Some (Raises message) => ([], Raises message)
  | Some (Returns file_text) =>
      let content := strip file_text in
      if is_empty content then ([], Returns tt)
      else
        let call := EngineRun content SESSION_KEY in
        (* try: *)
        let (events, ended) :=
          match engine_run content SESSION_KEY with
          | Returns result =>
              let (evs, r) :=
                publish_if_routed (negb (is_empty (response result)))
                                  (response result) in
              (call :: evs, r)
          | Raises message => ([call], Raises message)
          end in
        (* except Exception as exc: *)
        match ended with
        | Returns _ => (events, Returns tt)
        | Raises message =>
            let (evs, r) :=
              publish_if_routed true ("Heartbeat run failed: " ++ message) in
            ((events ++ evs)%list, r)
        end
  end.
End Service.

End Heartbeat.

(* ===================================================================== *)
(** ** The shell filter: notions used to state its properties            *)
(* ===================================================================== *)

Module ShellSpec.
Import PyStr Regex Shell.

(** The command of the interpreter-escape scenario. *)
Definition python_rm : string :=
  "python3 -c " ++ dq ++ "import os; os.system('rm -rf /')" ++ dq.

Fixpoint occurs (c : ascii) (s : string) : Prop :=
  match s with
  | EmptyString => False
  | String x s' => x = c \/ occurs c s'
  end.

(** The token [tok] gives the flag [c]: it is a long flag that the table
    maps to [c], or a bundle of short flags, not numeric-looking, in
    which [c] occurs. *)
Definition token_flag (tok : string) (c : ascii) : Prop :=
  Shell.dict_get _RM_LONG_FLAG_MAP tok = Some c
  \/ (startswith "--" tok = false /\ startswith "-" tok = true
      /\ 1 < String.length tok /\ isdigit (tail tok) = false
      /\ occurs c (tail tok)).

(** [c] is a normalised flag of the arguments [args]: some token before
    the first [--] gives it. *)
Definition is_flag (args : list string) (c : ascii) : Prop :=
  exists pre tok post,
    args = (pre ++ tok :: post)%list /\ ~ In "--" pre /\ tok <> "--"
    /\ token_flag tok c.

(** [t] is a target of the arguments [args]: a token other than [--]
    that follows a [--] or does not start with a dash. *)
Definition is_target (args : list string) (t : string) : Prop :=
  exists pre post,
    args = (pre ++ t :: post)%list /\ t <> "--"
    /\ (In "--" pre \/ startswith "-" t = false).

(** The three rejection conditions of the [rm] layer on a tokenised
    sub-command. *)
Definition rm_rejectable (tokens : list string) : Prop :=
  let args := List.tl tokens in
  (is_flag args "!" /\ is_flag args "r")
  \/ (is_flag args "r" /\ exists t, is_target args t /\ normalize_target t = "/")
  \/ (is_flag args "r" /\ is_flag args "f"
      /\ exists t, is_target args t
                   /\ In (normalize_target t) _DANGEROUS_RM_TARGETS).

(** The text that the scanning loop of [_split_shell_commands] appends
    to [current] from the position whose rest is [s] up to the next
    separator, and what follows that separator, if there is one. *)
Fixpoint first_part (s : string) (in_single in_double : bool)
  : string * option string :=
  match s with
  | EmptyString => (EmptyString, None)
  | String ch rest =>
      match classify ch rest in_single in_double with
      | StepEscape =>
          match rest with
          | String ch2 rest2 =>
              let (w, after) := first_part rest2 in_single in_double in
              (String ch (String ch2 w), after)
          | EmptyString => (String ch EmptyString, None)
          end
      | StepSingle =>
          let (w, after) := first_part rest (negb in_single) in_double in
          (String ch w, after)
      | StepDouble =>
          let (w, after) := first_part rest in_single (negb in_double) in
          (String ch w, after)
      | StepSep2 =>
          match rest with
          | String _ rest2 => (EmptyString, Some rest2)
          | EmptyString => (EmptyString, None)
          end
      | StepSep1 => (EmptyString, Some rest)
      | StepPlain =>
          let (w, after) := first_part rest in_single in_double in
          (String ch w, after)
      end
  end.

(** The loop scans [w] to its end without meeting a separator. *)
Definition unbroken (w : string) (in_single in_double : bool) : Prop :=
  first_part w in_single in_double = (w, None).

(** Two rests that the loop cannot tell apart at the character before
    them: both empty, or with the same first character. *)
Definition same_head (r1 r2 : string) : Prop :=
  match r1, r2 with
  | EmptyString, EmptyString => True
  | String x _, String y _ => x = y
  | _, _ => False
  end.

(** Layers 1 to 3 on one sub-command, at the recursion depth [_depth]. *)
Definition structural_check (_depth : nat) (subcmd : string) : option string :=
  check_subcommand (dangerous_within (_MAX_CHECK_DEPTH - _depth - 1)) subcmd.

(** Layer 4 judges the chain as it judges its sub-commands. *)
Definition layer4_agrees (command : string) : Prop :=
  regex_deny command = None <->
  (forall subcmd, In subcmd (_split_shell_commands command) ->
                  regex_deny subcmd = None).

End ShellSpec.

(* ===================================================================== *)
(** ** The heartbeat and the migration: what they are expected to do     *)
(* ===================================================================== *)

Module HeartbeatSpec.
Import PyStr Heartbeat.

(** [reply_to] is set and has the form [channel:id]. *)
Definition routed (reply_to : string) : Prop :=
  reply_to <> "" /\ split_colon reply_to <> None.

Definition published (events : list event) : Prop :=
  exists msg, In (PublishOutbound msg) events.

(** An engine that answers with the empty response. *)
Definition silent_engine : string -> string -> outcome AgentRunResult :=
  fun _ _ => Returns {| response := ""; iterations := 1; total_tokens := 0 |}.

Definition working_bus : OutboundMessage -> outcome unit := fun _ => Returns tt.

Section Expected.
Variable engine_run : string -> string -> outcome AgentRunResult.
Variable bus : option (OutboundMessage -> outcome unit).
Variable reply_to : string.
Variable heartbeat_file : option (outcome string).

(** The text to deliver after the engine call: the response when it is
    not empty, the diagnostic when the engine failed. *)
Definition payload (content : string) : option string :=
  match engine_run content SESSION_KEY with
  | Returns result =>
      if is_empty (response result) then None else Some (response result)
  | Raises message => Some ("Heartbeat run failed: " ++ message)
  end.

(** The message published for a payload: only with a bus and a
    [reply_to] of the form [channel:id]. *)
Definition delivery (text : option string) : list event :=
  match bus, split_colon reply_to, text with
  | Some _, Some (channel, chat_id), Some t =>
      [PublishOutbound {| channel := channel; chat_id := chat_id; text := t |}]
  | _, _, _ => []
  end.

(** The events of one beat. *)
Definition expected_events : list event :=
  match heartbeat_file with
  | Some (Returns file_text) =>
      let content := strip file_text in
      if is_empty content then []
      else EngineRun content SESSION_KEY :: delivery (payload content)
  | _ => []
  end.

(** How one beat ends: with the exception of the read, if there is one. *)
Definition expected_end : outcome unit :=
  match heartbeat_file with
  | Some (Raises message) => Raises message
  | _ => Returns tt
  end.
End Expected.

End HeartbeatSpec.

Module MigrationSpec.
Import PyStr Migration.

(** What a legacy entry holds under the first of [keys] that it has,
    [default] when it has none of them. *)
Fixpoint first_of (legacy : list (string * json)) (keys : list string)
                  (default : json) : json :=
  match keys with
  | [] => default
  | k :: keys' =>
      match fields_get legacy k with
      | Some v => v
      | None => first_of legacy keys' default
      end
  end.

(** [id'] is [id] with the [cron_] prefix, added when missing. *)
Definition prefixed (id id' : string) : Prop :=
  (startswith "cron_" id = true /\ id' = id)
  \/ (startswith "cron_" id = false /\ id' = "cron_" ++ id).

(** [e] is the legacy entry [legacy] in the current schema: the eight
    fields of a job under their names; [schedule] holds the legacy
    [cron], [prompt] the legacy [command]; the id carries the [cron_]
    prefix; an entry without [created_at] gets the time [stamp]. *)
Definition in_new_schema (legacy : list (string * json)) (stamp : string)
                         (e : json) : Prop :=
  exists id id',
    first_of legacy ["id"] (JStr "") = JStr id
    /\ prefixed id id'
    /\ e = JObj
             [ ("id", JStr id');
               ("name", first_of legacy ["name"] (JStr "Unnamed task"));
               ("schedule", first_of legacy ["cron"; "schedule"] (JStr ""));
               ("prompt", first_of legacy ["command"; "prompt"] (JStr ""));
               ("enabled", first_of legacy ["enabled"] (JBool true));
               ("last_run", first_of legacy ["last_run"] JNull);
               ("created_at", first_of legacy ["created_at"] (JStr stamp));
               ("reply_to", first_of legacy ["reply_to"] (JStr "")) ].

(** The entries [extra] are legacy files of [d] in the current schema,
    the first of them stamped with the reading [k] of the clock, the
    next with the reading after it, and so on. *)
Fixpoint migrated_from (now : nat -> string) (d : cron_dir) (k : nat)
                       (extra : list json) : Prop :=
  match extra with
  | [] => True
  | e :: extra' =>
      (exists f legacy,
          In (f, Parsed (JObj legacy)) (other_files d)
          /\ in_new_schema legacy (now k) e)
      /\ migrated_from now d (S k) extra'
  end.

(** The [id] of an entry carries the [cron_] prefix. *)
Definition has_cron_id (e : json) : Prop :=
  exists id, get e "id" JNull = Returns (JStr id) /\ startswith "cron_" id = true.

End MigrationSpec.

(* ===================================================================== *)
(** ** Workflows: notions used to state the properties of the layering   *)
(* ===================================================================== *)

Module WorkflowSpec.
Import Workflow.

Definition names (wf : WorkflowDef) : list string := map name (steps wf).

(** Every [depends_on] names a step of the workflow. *)
Definition resolved (wf : WorkflowDef) : Prop :=
  forall s dep, In s (steps wf) -> In dep (depends_on s) -> In dep (names wf).

(** [depends wf a b]: a step named [a] lists [b] in its [depends_on]. *)
Definition depends (wf : WorkflowDef) (a b : string) : Prop :=
  exists s, In s (steps wf) /\ name s = a /\ In b (depends_on s).

(** The dependency graph has a cycle. *)
Definition cyclic (wf : WorkflowDef) : Prop :=
  exists a, Relation_Operators.clos_trans string (depends wf) a a.

(** [n] is in the layer of index [k]. *)
Definition in_layer (layers : list (list string)) (k : nat) (n : string) : Prop :=
  exists layer, nth_error layers k = Some layer /\ In n layer.

(** Sorted on the code-point order of strings. *)
Definition lex_sorted (l : list string) : Prop :=
  Sorted (fun a b => String.leb a b = true) l.

(** The dependency edges [(dep, step)], in the order [_build_graph]
    visits them. *)
Definition edges (steps : list StepDef) : list (string * string) :=
  flat_map (fun s => map (fun dep => (dep, name s)) (depends_on s)) steps.

(** The steps that depend on [m], in that order: what [adj[m]] holds. *)
Definition successors (E : list (string * string)) (m : string) : list string :=
  map snd (filter (fun e => String.eqb (fst e) m) E).

(** The number of dependencies of [n] on steps outside [D]. *)
Definition pending (E : list (string * string)) (D : list string) (n : string) : nat :=
  List.length (filter (fun e => String.eqb (snd e) n && negb (str_in (fst e) D)) E).

Definition count (l : list string) (n : string) : nat := count_occ string_dec l n.

(** How a key list grows when a key is assigned. *)
Definition add_key (ks : list string) (k : string) : list string :=
  if str_in k ks then ks else (ks ++ [k])%list.

(** The keys of [{s.name: v for s in steps}]: the names, each at its
    first occurrence. *)
Definition key_order (steps : list StepDef) : list string :=
  fold_left add_key (map name steps) [].

(** [g] is the graph of the edges [E1] over the keys [K]. *)
Definition graph_ok (K : list string) (E1 : list (string * string)) (g : graph)
  : Prop :=
  keys (fst g) = K /\ keys (snd g) = K
  /\ (forall m, In m K -> dict_find (fst g) m = Some (successors E1 m))
  /\ (forall n, In n K -> dict_find (snd g) n = Some (Z.of_nat (pending E1 [] n))).

(** The in-degree that [n] must hold while the successors [nbs] of the
    node being visited are still to be relaxed. *)
Definition potential (E : list (string * string)) (D nbs : list string)
                     (n : string) : nat :=
  pending E D n + count nbs n.

(** The state of the layering loop: [in_degree] holds the potentials, and
    the nodes queued so far ([B], then [queue]) are distinct keys of
    potential zero. *)
Definition loop_inv (K : list string) (E : list (string * string))
                    (B D nbs : list string) (in_degree : dict Z)
                    (queue : list string) : Prop :=
  keys in_degree = K
  /\ (forall n, In n K ->
                dict_find in_degree n = Some (Z.of_nat (potential E D nbs n)))
  /\ (forall n, In n (B ++ queue)%list -> potential E D nbs n = 0)
  /\ NoDup (B ++ queue)%list
  /\ incl queue K.

(** What the layers returned after the nodes [D] satisfy. *)
Definition good_layers (K : list string) (E : list (string * string))
                       (D : list string) (layers : list (list string)) : Prop :=
  NoDup (D ++ List.concat layers)%list
  /\ incl (List.concat layers) K
  /\ Forall lex_sorted layers
  /\ (forall k n m, in_layer layers k n -> In (m, n) E ->
                    In m D \/ exists j, j < k /\ in_layer layers j m).

(** The layers partition the steps of the workflow, dependencies first. *)
Definition partitions (wf : WorkflowDef) (layers : list (list string)) : Prop :=
  total_in_layers layers = List.length (steps wf)
  /\ (forall s, In s (steps wf) -> exists k, in_layer layers k (name s))
  /\ (forall n k k', in_layer layers k n -> in_layer layers k' n -> k = k')
  /\ NoDup (List.concat layers)
  /\ (forall s k dep,
        In s (steps wf) -> in_layer layers k (name s) -> In dep (depends_on s) ->
        exists j, j < k /\ in_layer layers j dep)
  /\ Forall lex_sorted layers.

(** A workflow with the steps [a] and [b], each depending on the other,
    and an empty name. *)
Definition step_of (n : string) (deps : list string) : StepDef :=
  {| name := n; prompt := "do it"; profile := "default";
     depends_on := deps; timeout_seconds := 300 |}.

Definition unnamed_cycle : WorkflowDef :=
  {| wf_name := ""; description := "";
     steps := [step_of "a" ["b"]; step_of "b" ["a"]] |}.

(** The same cycle in a workflow that has a name. *)
Definition named_cycle : WorkflowDef :=
  {| wf_name := "test"; description := "";
     steps := [step_of "a" ["b"]; step_of "b" ["a"]] |}.

(** A workflow whose only step depends on a step that does not exist. *)
Definition dangling : WorkflowDef :=
  {| wf_name := "test"; description := "";
     steps := [step_of "a" ["nonexistent"]] |}.

(** Two independent steps and a third that joins them. *)
Definition join_workflow : WorkflowDef :=
  {| wf_name := "test"; description := "";
     steps := [step_of "a" []; step_of "b" []; step_of "c" ["a"; "b"]] |}.

End WorkflowSpec.

(* ===================================================================== *)
(** ** Regular expressions: what a match means                           *)
(* ===================================================================== *)

Module RegexSpec.
Import PyStr Regex.

(** [Den r s s' c c']: the pattern [r] can match at the position whose
    rest is [s], ending at the position whose rest is [s'], and turns the
    captures [c] into [c'].  The assertions [^] and [\b] are not looked
    into: the relation bounds the matcher from above. *)
Inductive Den : re -> string -> string -> caps -> caps -> Prop :=
| DEps s c : Den Eps s s c c
| DCls p x s c : p x = true -> Den (Cls p) (String x s) s c c
| DSeq r1 r2 s s1 s2 c c1 c2 :
    Den r1 s s1 c c1 -> Den r2 s1 s2 c1 c2 -> Den (Seq r1 r2) s s2 c c2
| DAltL r1 r2 s s' c c' : Den r1 s s' c c' -> Den (Alt r1 r2) s s' c c'
| DAltR r1 r2 s s' c c' : Den r2 s s' c c' -> Den (Alt r1 r2) s s' c c'
| DStarStop r s c : Den (Star r) s s c c
| DStarStep r s s1 s2 c c1 c2 :
    Den r s s1 c c1 -> Den (Star r) s1 s2 c1 c2 -> Den (Star r) s s2 c c2
| DGrp n r s s' c c' :
    Den r s s' c c' -> Den (Grp n r) s s' c ((n, consumed s s') :: c')
| DBol s c : Den Bol s s c c
| DEol s c : at_end s = true -> Den Eol s s c c
| DWb s c : Den Wb s s c c.

(** The pattern has no capture group. *)
Fixpoint no_groups (r : re) : bool :=
  match r with
  | Seq r1 r2 | Alt r1 r2 => no_groups r1 && no_groups r2
  | Star r1 => no_groups r1
  | Grp _ _ => false
  | _ => true
  end.

(** The character before the position reached after [w]. *)
Fixpoint prev_after (prev : option ascii) (w : string) : option ascii :=
  match w with
  | EmptyString => prev
  | String x w' => prev_after (Some x) w'
  end.

(** The first character of [s], if any, is rejected by [p]. *)
Definition head_fails (p : ascii -> bool) (s : string) : Prop :=
  match s with
  | EmptyString => True
  | String x _ => p x = false
  end.

(** No character of [s] is accepted by [p]. *)
Fixpoint none_of (p : ascii -> bool) (s : string) : Prop :=
  match s with
  | EmptyString => True
  | String x s' => p x = false /\ none_of p s'
  end.

(** The pattern cannot match without a character accepted by [p]. *)
Fixpoint needs (p : ascii -> bool) (r : re) : Prop :=
  match r with
  | Cls q => q = p
  | Seq r1 r2 => needs p r1 \/ needs p r2
  | Alt r1 r2 => needs p r1 /\ needs p r2
  | Grp _ r1 => needs p r1
  | _ => False
  end.


End RegexSpec.

(* ===================================================================== *)
(** ** The cron-phrase parser: the table of the specification            *)
(* ===================================================================== *)

Module SchedulerSpec.
Import PyStr Regex Scheduler.

(** A number: a non-empty string of decimal digits. *)
Definition is_number (n : string) : bool :=
  negb (is_empty n) && all_chars is_decimal n.

(** A field of a cron expression: non-empty, over [* 0-9 / , -]. *)
Definition is_field (f : string) : bool :=
  negb (is_empty f) && all_chars cron_char f.

(** Five fields, one space between them. *)
Definition cron5 (f1 f2 f3 f4 f5 : string) : string :=
  f1 ++ " " ++ f2 ++ " " ++ f3 ++ " " ++ f4 ++ " " ++ f5.

(** The hour conversion: 12 am is 0, 12 pm is 12, H pm is H+12
    otherwise, H am is H otherwise. *)
Definition hour24 (h : Z) (ampm : string) : Z :=
  if String.eqb ampm "am" then (if (h =? 12)%Z then 0 else h)%Z
  else if String.eqb ampm "pm" then (if (h =? 12)%Z then 12 else h + 12)%Z
  else h.

(** The days of the week from Sunday to Saturday, full and three-letter. *)
Definition week : list (string * string) :=
  [ ("sunday", "sun"); ("monday", "mon"); ("tuesday", "tue");
    ("wednesday", "wed"); ("thursday", "thu"); ("friday", "fri");
    ("saturday", "sat") ].

Fixpoint weekday_index (days : list (string * string)) (i : Z) (day : string)
  : option Z :=
  match days with
  | [] => None
  | (full, short) :: days' =>
      if String.eqb day full || String.eqb day short then Some i
      else weekday_index days' (i + 1)%Z day
  end.

(** Sunday is 0, ..., Saturday is 6, whatever the case of the name. *)
Definition weekday_number (day : string) : option string :=
  option_map str_of_Z (weekday_index week 0%Z (lower day)).

(** The patterns of the rule table. *)
Definition rules : list re :=
  [ re_n_minutes; re_n_hours; re_minute; re_hour; re_every_day; re_day;
    re_month; re_weekday ].

End SchedulerSpec.

(* ===================================================================== *)
(** ** The shell filter: further notions                                 *)
(* ===================================================================== *)

Module ShellSpec2.
Import PyStr Regex RegexSpec Shell.

(** A quote character or a backslash. *)
Definition quoting (c : ascii) : bool :=
  Ascii.eqb c squote || Ascii.eqb c dquote || Ascii.eqb c backslash.

Fixpoint last_char (a : string) : option ascii :=
  match a with
  | EmptyString => None
  | String x EmptyString => Some x
  | String _ a' => last_char a'
  end.

(** The last character of [a], if any, is neither [&] nor [|]. *)
Definition ends_clean (a : string) : bool :=
  match last_char a with
  | Some x => negb (Ascii.eqb x "&" || Ascii.eqb x "|")
  | None => true
  end.

(** [q] between two quote characters [quote]. *)
Definition quoted (quote : ascii) (q : string) : string :=
  String quote (q ++ String quote "").

(** The base command of the tokens of a sub-command. *)
Definition base_of (tokens : list string) : string :=
  after_last_slash (hd "" tokens).

(** What Layer 1 blocks: a blocked base command, [systemctl] with a
    blocked action, [init 0] or [init 6]. *)
Definition layer1_blocked (tokens : list string) : Prop :=
  In (base_of tokens) _BLOCKED_COMMANDS
  \/ (base_of tokens = "systemctl"
      /\ exists t0 t1 rest, tokens = t0 :: t1 :: rest
                            /\ In t1 _BLOCKED_SYSTEMCTL_ACTIONS)
  \/ (base_of tokens = "init"
      /\ exists t0 t1 rest, tokens = t0 :: t1 :: rest /\ In t1 ["0"; "6"]).

(** The tokens [-flag arg -flag arg ...] of a list of options. *)
Definition option_tokens (opts : list (string * string)) : list string :=
  flat_map (fun o => [fst o; snd o]) opts.

(** The code argument that [_check_interpreter] extracts. *)
Definition code_argument (tokens : list string) (base_cmd : string)
  : option string :=
  match find_code_arg tokens with
  | Some c => Some c
  | None =>
      if String.eqb base_cmd "eval" && (1 <? List.length tokens)
      then Some (join_space (List.tl tokens)) else None
  end.

(** The base commands that Layer 3 looks into. *)
Definition interpreter_base (base_cmd : string) : Prop :=
  In base_cmd _INTERPRETER_COMMANDS \/ base_cmd = "eval".

(** One of the patterns scanned for in inline code is found in [code]. *)
Definition code_pattern_found (code : string) : Prop :=
  first_match _INTERPRETER_CODE_PATTERNS code <> None
  \/ first_match _REGEX_DENY code <> None.

End ShellSpec2.

(* ===================================================================== *)
(** ** The cron-phrase parser: further notions                           *)
(* ===================================================================== *)

Module SchedulerSpec2.
Import PyStr Regex Scheduler SchedulerSpec.

(** A non-empty run of white space. *)
Definition is_blank (w : string) : bool :=
  negb (is_empty w) && all_chars isspace w.

(** Five cron fields with white space between them. *)
Definition cron_shaped (cron : string) : Prop :=
  exists f1 w1 f2 w2 f3 w3 f4 w4 f5,
    cron = f1 ++ w1 ++ f2 ++ w2 ++ f3 ++ w3 ++ f4 ++ w4 ++ f5
    /\ is_field f1 = true /\ is_blank w1 = true
    /\ is_field f2 = true /\ is_blank w2 = true
    /\ is_field f3 = true /\ is_blank w3 = true
    /\ is_field f4 = true /\ is_blank w4 = true
    /\ is_field f5 = true.

(** Lower case on what the matcher works with. *)
Definition lower_prev (prev : option ascii) : option ascii :=
  option_map lower_char prev.

Definition lower_caps (c : caps) : caps :=
  map (fun g => (fst g, lower (snd g))) c.

(** A character class that does not tell a letter from its lower case. *)
Definition blind (p : ascii -> bool) : Prop :=
  forall x, p (lower_char x) = p x.

(** A pattern all of whose classes are blind. *)
Fixpoint case_blind (r : re) : Prop :=
  match r with
  | Cls p => blind p
  | Seq r1 r2 | Alt r1 r2 => case_blind r1 /\ case_blind r2
  | Star r1 | Grp _ r1 => case_blind r1
  | _ => True
  end.

(** [k'] does on lowered arguments what [k] does, up to the case of the
    captures. *)
Definition lowered (k k' : @kont caps) : Prop :=
  forall prev s c,
    k' (lower_prev prev) (lower s) (lower_caps c)
    = option_map lower_caps (k prev s c).

End SchedulerSpec2.

(* ===================================================================== *)
(** ** The scheduler tool and the migration: further notions             *)
(* ===================================================================== *)

Module ToolSpec.
Import PyStr Migration Scheduler SchedulerTool.

(** The legacy files that cannot be read or parsed. *)
Definition unreadable (file : string * content) : bool :=
  match snd file with Unreadable => true | _ => false end.

Definition unreadable_files (files : list (string * content))
  : list (string * content) :=
  filter unreadable files.

(** The job is an object whose [id] is the string [task_id]. *)
Definition has_id (task_id : string) (j : json) : bool :=
  match j with
  | JObj fields =>
      match fields_get fields "id" with
      | Some (JStr id) => String.eqb id task_id
      | _ => false
      end
  | _ => false
  end.

Definition is_object (j : json) : bool :=
  match j with JObj _ => true | _ => false end.

(** The string that a field of an object holds. *)
Definition field_string (j : json) (k : string) : option string :=
  match j with
  | JObj fields =>
      match fields_get fields k with Some (JStr s) => Some s | _ => None end
  | _ => None
  end.

(** The directory after [jobs.json] has been written with [jobs]. *)
Definition written (d : cron_dir) (jobs : list json) : cron_dir :=
  {| jobs_file := Some (Parsed (JArr jobs));
     other_files := other_files d;
     write_fails := write_fails d;
     unlink_fails := unlink_fails d |}.

(** Two clocks: the readings of a first run and of a later one. *)
Definition clock (k : nat) : string :=
  "2026-01-01T00:00:0" ++ NilEmpty.string_of_uint (Nat.to_uint k) ++ "+00:00".

Definition later (k : nat) : string :=
  "2026-01-02T00:00:0" ++ NilEmpty.string_of_uint (Nat.to_uint k) ++ "+00:00".

End ToolSpec.

(* ===================================================================== *)
(** ** Workflows: further notions                                        *)
(* ===================================================================== *)

Module WorkflowSpec2.
Import PyStr Workflow WorkflowSpec.

(** A character of a step name: a word character or a hyphen. *)
Definition name_char (c : ascii) : bool := is_word c || Ascii.eqb c "-".

(** Every key whose in-degree has reached zero has been queued. *)
Definition zero_queued (K : list string) (E : list (string * string))
                       (B D nbs queue : list string) : Prop :=
  forall n, In n K -> potential E D nbs n = 0 -> In n (B ++ queue)%list.

(** Consecutive elements of the list are related. *)
Fixpoint chain (R : string -> string -> Prop) (l : list string) : Prop :=
  match l with
  | a :: ((b :: _) as l') => R a b /\ chain R l'
  | _ => True
  end.

(** What [validate] checks apart from cycles. *)
Definition well_formed (wf : WorkflowDef) : Prop :=
  blank (wf_name wf) = false
  /\ steps wf <> []
  /\ (forall s, In s (steps wf) ->
        step_name_ok (name s) = true
        /\ blank (prompt s) = false
        /\ (1 <= timeout_seconds s)%Z)
  /\ NoDup (names wf)
  /\ resolved wf.

(** No step of that name has a dependency. *)
Definition independent (wf : WorkflowDef) (n : string) : Prop :=
  forall s, In s (steps wf) -> name s = n -> depends_on s = [].

(** The layers leave no slack: none is empty, the first one holds the
    names of the steps without dependencies, and a step of a later layer
    depends on a step of the layer before. *)
Definition tight (wf : WorkflowDef) (layers : list (list string)) : Prop :=
  Forall (fun layer => layer <> []) layers
  /\ (forall n, in_layer layers 0 n <-> In n (names wf) /\ independent wf n)
  /\ (forall k n, in_layer layers (S k) n ->
        exists m, in_layer layers k m /\ depends wf n m).

(** A chain of [j] dependencies starts at [n]. *)
Definition descends (wf : WorkflowDef) (j : nat) (n : string) : Prop :=
  exists l, List.length l = j /\ chain (depends wf) (n :: l).

(** The first dependency, in the order [_build_graph] visits them, that
    names no step. *)
Definition first_unknown (wf : WorkflowDef) : option string :=
  find (fun dep => negb (str_in dep (names wf)))
       (flat_map depends_on (steps wf)).

End WorkflowSpec2.

(* ===================================================================== *)
(** ** Heartbeat: routing                                                *)
(* ===================================================================== *)

Module HeartbeatSpec2.
Import PyStr.

(** The string holds no colon. *)
Definition no_colon (s : string) : bool :=
  all_chars (fun c => negb (Ascii.eqb c ":")) s.

End HeartbeatSpec2.

(* ===================================================================== *)
(** ** Shell tool: what a call does                                      *)
(* ===================================================================== *)

Module ShellSpec3.
Import PyStr Shell ShellExec.

(** The call starts a process. *)
Definition spawns (r : list os_call * tool_result) : Prop :=
  exists command cwd, In (CreateSubprocessShell command cwd) (fst r).

(** An operating system on which every command prints [done]. *)
Definition quiet_os : string -> string -> spawned :=
  fun _ _ => Started (Exited "done" "" 0).

Definition plain_context : ToolContext :=
  {| workspace_path := "/workspace"; shell_timeout := 60; dry_run := false |}.

End ShellSpec3.

(* ===================================================================== *)
(** ** The cron-phrase parser: the rule table, phrase by phrase          *)
(* ===================================================================== *)

Module CronTable.
Import PyStr SchedulerSpec SchedulerSpec2.

(** An element of a phrase shape: a word, written in any case, or white
    space, one character at least. *)
Inductive item : Type :=
| W (w : string)
| Sp.



(** The [am] or [pm] with which [s] begins after its leading white
    space, as it is written; the empty string when there is none. *)
Definition am_pm_of (s : string) : string :=
  let a := substring 0 2 (lstrip s) in
  if String.eqb (lower a) "am" || String.eqb (lower a) "pm" then a else "".











End CronTable.

(* ===================================================================== *)
(** ** The patterns and handlers of the parser, row by row               *)
(* ===================================================================== *)

Module CronRules.
Import PyStr Regex Scheduler CronTable.










(** The words of a shape are in lower case and hold no white space, and
    white space is followed by a word, or by a [rest] that does not
    begin with white space. *)
Fixpoint spaced (items : list item) (rest : string) : Prop :=
  match items with
  | [] => True
  | W w :: items' =>
      w <> "" /\ lower w = w /\ RegexSpec.none_of isspace w /\ spaced items' rest
  | Sp :: items' =>
      match items' with
      | [] => RegexSpec.head_fails isspace rest
      | W _ :: _ => True
      | Sp :: _ => False
      end
      /\ spaced items' rest
  end.



End CronRules.

(* ===================================================================== *)
(** * Properties of strings and of the regular-expression matcher        *)
(* ===================================================================== *)

Module StrFacts.
Import PyStr.

(** [lower_char] is the code point arithmetic of [lower_code]. *)
Lemma lower_char_code c : lower_char c = ascii_of_N (lower_code (code c)).
Proof. destruct c as [[] [] [] [] [] [] [] []]; reflexivity. Qed.

Lemma append_nil_r s : s ++ "" = s.
Proof. induction s; simpl; congruence. Qed.

Lemma append_assoc s1 s2 s3 : (s1 ++ s2) ++ s3 = s1 ++ (s2 ++ s3).
Proof. induction s1; simpl; congruence. Qed.

Lemma length_append s1 s2 :
  String.length (s1 ++ s2) = String.length s1 + String.length s2.
Proof. induction s1; simpl; congruence. Qed.

Lemma all_chars_append p s1 s2 :
  all_chars p (s1 ++ s2) = all_chars p s1 && all_chars p s2.
Proof.
  induction s1 as [|x s1 IH]; simpl; [reflexivity|].
  rewrite IH. now rewrite andb_assoc.
Qed.

Lemma substring_prefix w s : substring 0 (String.length w) (w ++ s) = w.
Proof.
  induction w as [|x w IH]; simpl.
  - destruct s; reflexivity.
  - now rewrite IH.
Qed.

Lemma none_of_append p s1 s2 :
  RegexSpec.none_of p (s1 ++ s2) <-> RegexSpec.none_of p s1 /\ RegexSpec.none_of p s2.
Proof.
  induction s1 as [|x s1 IH]; simpl; [tauto|]. rewrite IH. tauto.
Qed.

Lemma none_of_all_chars p q s :
  (forall x, q x = true -> p x = false) ->
  all_chars q s = true -> RegexSpec.none_of p s.
Proof.
  intros Hpq. induction s as [|x s IH]; simpl; [trivial|].
  intros H. apply andb_prop in H as [Hx Hs]. auto.
Qed.

(** **** [strip] *)

Lemma lstrip_head s : RegexSpec.head_fails isspace s -> lstrip s = s.
Proof. destruct s as [|x s]; simpl; [reflexivity|]. now intros ->. Qed.

Lemma lstrip_head_fails s : RegexSpec.head_fails isspace (lstrip s).
Proof.
  induction s as [|x s IH]; simpl; [trivial|].
  destruct (isspace x) eqn:E; [assumption|]. simpl. assumption.
Qed.

Lemma rstrip_by_none p f : RegexSpec.none_of p f -> rstrip_by p f = f.
Proof.
  induction f as [|x f IH]; simpl; [reflexivity|].
  intros [Hx Hf]. rewrite (IH Hf), Hx. now rewrite andb_false_r.
Qed.

Lemma rstrip_by_append p w f :
  RegexSpec.none_of p f -> f <> "" -> rstrip_by p (w ++ f) = w ++ f.
Proof.
  intros Hf Hne. induction w as [|x w IH]; simpl.
  - now apply rstrip_by_none.
  - rewrite IH. destruct (w ++ f) eqn:E; [|reflexivity].
    destruct w; simpl in E; [contradiction|discriminate].
Qed.

Lemma rstrip_by_idem p s : rstrip_by p (rstrip_by p s) = rstrip_by p s.
Proof.
  induction s as [|x s IH]; simpl; [reflexivity|].
  destruct (is_empty (rstrip_by p s) && p x) eqn:E; [reflexivity|].
  simpl. rewrite IH, E. reflexivity.
Qed.

Lemma rstrip_by_last p s w x :
  rstrip_by p s = w ++ String x "" -> p x = false.
Proof.
  revert w. induction s as [|y s IH]; intros w H; simpl in H.
  - destruct w; discriminate.
  - destruct (is_empty (rstrip_by p s) && p y) eqn:E.
    + destruct w; discriminate.
    + destruct w as [|z w]; simpl in H; injection H as -> H.
      * rewrite H in E. simpl in E. exact E.
      * exact (IH w H).
Qed.

Lemma rstrip_by_head p x s :
  rstrip_by p (String x s) = "" \/ exists r, rstrip_by p (String x s) = String x r.
Proof.
  simpl. destruct (is_empty (rstrip_by p s) && p x); eauto.
Qed.

Lemma strip_idem s : strip (strip s) = strip s.
Proof.
  unfold strip, rstrip. pose proof (lstrip_head_fails s) as Hh.
  destruct (lstrip s) as [|x u]; [reflexivity|]. simpl in Hh.
  assert (E : rstrip_by isspace (String x u) = String x (rstrip_by isspace u)).
  { simpl. rewrite Hh. now rewrite andb_false_r. }
  rewrite E. rewrite lstrip_head by exact Hh. rewrite <- E.
  apply rstrip_by_idem.
Qed.

(** A string that starts and ends with characters that are not spaces
    is its own [strip]. *)
Lemma strip_fixed w f :
  RegexSpec.head_fails isspace (w ++ f) ->
  RegexSpec.none_of isspace f -> f <> "" ->
  strip (w ++ f) = w ++ f.
Proof.
  intros Hh Hf Hne. unfold strip, rstrip. rewrite lstrip_head by assumption.
  now apply rstrip_by_append.
Qed.

Lemma strip_no_trailing_space s w x :
  strip s = w ++ String x "" -> isspace x = false.
Proof. unfold strip, rstrip. apply rstrip_by_last. Qed.

End StrFacts.

Module RegexFacts.
Import PyStr Regex RegexSpec StrFacts.

Lemma consumed_append w s : consumed (w ++ s) s = w.
Proof.
  unfold consumed. rewrite length_append.
  replace (String.length w + String.length s - String.length s)
    with (String.length w) by lia.
  apply substring_prefix.
Qed.

(** **** The matcher only finds matches of the relation *)

Section Soundness.
Context {A : Type}.

Definition sound_for (r : re) (body : @matcher A) : Prop :=
  forall prev s c k a,
    body prev s c k = Some a ->
    exists prev' s' c', Den r s s' c c' /\ k prev' s' c' = Some a.

Lemma star_loop_sound r body :
  sound_for r body ->
  forall fuel, sound_for (Star r) (star_loop body fuel).
Proof.
  intros Hbody. induction fuel as [|fuel IH]; intros prev s c k a H; simpl in H.
  - exists prev, s, c. split; [constructor|assumption].
  - destruct (body prev s c _) as [a'|] eqn:E.
    + injection H as ->. apply Hbody in E.
      destruct E as (p1 & s1 & c1 & D1 & H1).
      destruct (String.length s1 <? String.length s); [|discriminate].
      apply IH in H1. destruct H1 as (p2 & s2 & c2 & D2 & H2).
      exists p2, s2, c2. split; [|assumption]. eapply DStarStep; eassumption.
    + exists prev, s, c. split; [constructor|assumption].
Qed.

Lemma m_sound r : sound_for r (m r).
Proof.
  induction r as [|p|r1 IH1 r2 IH2|r1 IH1 r2 IH2|r1 IH1|n r1 IH1| | |];
    intros prev s c k a H; cbn [m] in H.
  - exists prev, s, c. split; [constructor|assumption].
  - destruct s as [|x s]; [discriminate|].
    destruct (p x) eqn:E; [|discriminate].
    exists (Some x), s, c. split; [now constructor|assumption].
  - apply IH1 in H. destruct H as (p1 & s1 & c1 & D1 & H1).
    apply IH2 in H1. destruct H1 as (p2 & s2 & c2 & D2 & H2).
    exists p2, s2, c2. split; [|assumption]. eapply DSeq; eassumption.
  - destruct (m r1 prev s c k) as [a'|] eqn:E.
    + injection H as ->. apply IH1 in E. destruct E as (p1 & s1 & c1 & D1 & H1).
      exists p1, s1, c1. split; [now apply DAltL|assumption].
    + apply IH2 in H. destruct H as (p1 & s1 & c1 & D1 & H1).
      exists p1, s1, c1. split; [now apply DAltR|assumption].
  - exact (star_loop_sound r1 (m r1) IH1 _ prev s c k a H).
  - apply IH1 in H. destruct H as (p1 & s1 & c1 & D1 & H1).
    exists p1, s1, ((n, consumed s s1) :: c1). split; [now constructor|assumption].
  - destruct prev; [discriminate|].
    exists None, s, c. split; [constructor|assumption].
  - destruct (at_end s) eqn:E; [|discriminate].
    exists prev, s, c. split; [now constructor|assumption].
  - destruct (at_boundary prev s); [|discriminate].
    exists prev, s, c. split; [constructor|assumption].
Qed.
End Soundness.

Lemma re_match_sound r s c :
  re_match r s = Some c -> exists s', Den r s s' [] c.
Proof.
  unfold re_match. intros H. apply m_sound in H.
  destruct H as (p' & s' & c' & D & H). unfold accept in H.
  injection H as ->. eauto.
Qed.

Lemma search_from_sound r : forall s prev c,
  search_from r prev s = Some c ->
  exists pre s1 s', s = pre ++ s1 /\ Den r s1 s' [] c.
Proof.
  induction s as [|x s IH]; intros prev c H; simpl in H.
  - destruct (m r prev "" [] accept) as [c'|] eqn:E; [|discriminate].
    injection H as ->. apply m_sound in E.
    destruct E as (p' & s' & c' & D & H). injection H as ->.
    exists "", "", s'. split; [reflexivity|assumption].
  - destruct (m r prev (String x s) [] accept) as [c'|] eqn:E.
    + injection H as ->. apply m_sound in E.
      destruct E as (p' & s' & c' & D & H). injection H as ->.
      exists "", (String x s), s'. split; [reflexivity|assumption].
    + apply IH in H. destruct H as (pre & s1 & s' & -> & D).
      exists (String x pre), s1, s'. split; [reflexivity|assumption].
Qed.

Lemma search_sound r s c :
  search r s = Some c -> exists pre s1 s', s = pre ++ s1 /\ Den r s1 s' [] c.
Proof. apply search_from_sound. Qed.

Lemma search_of_match r s c :
  m r None s [] accept = Some c -> search r s = Some c.
Proof.
  unfold search. intros H. destruct s; simpl; now rewrite H.
Qed.

(** **** What the relation says about a match *)

Lemma den_suffix r s s' c c' : Den r s s' c c' -> exists w, s = w ++ s'.
Proof.
  induction 1 as [s c|p x s c Hp|r1 r2 s s1 s2 c c1 c2 _ [w1 ->] _ [w2 ->]
                 |r1 r2 s s' c c' _ IH|r1 r2 s s' c c' _ IH|r s c
                 |r s s1 s2 c c1 c2 _ [w1 ->] _ [w2 ->]
                 |n r s s' c c' _ IH|s c|s c _|s c];
    try (exists ""; reflexivity); try exact IH.
  - exists (String x ""). reflexivity.
  - exists (w1 ++ w2). now rewrite append_assoc.
  - exists (w1 ++ w2). now rewrite append_assoc.
Qed.

Lemma den_no_groups r s s' c c' :
  Den r s s' c c' -> no_groups r = true -> c' = c.
Proof.
  induction 1; simpl; intros Hg; try reflexivity;
    try (apply andb_prop in Hg as [Hg1 Hg2]); try discriminate; auto.
  - rewrite IHDen2, IHDen1; auto.
  - rewrite IHDen2, IHDen1; auto.
Qed.

Lemma den_star_cls p s s' c c' :
  Den (Star (Cls p)) s s' c c' ->
  c' = c /\ exists w, s = w ++ s' /\ all_chars p w = true.
Proof.
  intros H. remember (Star (Cls p)) as r eqn:Er.
  induction H; try discriminate.
  - split; [reflexivity|]. exists "". split; reflexivity.
  - injection Er as ->. specialize (IHDen2 eq_refl).
    destruct IHDen2 as (-> & w & -> & Hw).
    inversion H; subst. split; [reflexivity|].
    exists (String x w). split; [reflexivity|]. simpl.
    match goal with Hp : p x = true |- _ => now rewrite Hp end.
Qed.

Lemma den_plus_cls p s s' c c' :
  Den (plus (Cls p)) s s' c c' ->
  c' = c /\ exists w, s = w ++ s' /\ w <> "" /\ all_chars p w = true.
Proof.
  unfold plus. intros H. inversion H; subst.
  match goal with H1 : Den (Cls p) _ _ _ _ |- _ => inversion H1; subst end.
  match goal with H2 : Den (Star (Cls p)) _ _ _ _ |- _ =>
    apply den_star_cls in H2; destruct H2 as (-> & w & -> & Hw) end.
  split; [reflexivity|]. exists (String x w).
  repeat split; [discriminate|]. simpl.
  match goal with Hp : p x = true |- _ => now rewrite Hp end.
Qed.

(** **** Repetitions of a character class are matched greedily *)

Section Greedy.
Context {A : Type}.

Lemma star_cls_greedy p : forall w s' prev c (k : @kont A) a fuel,
  all_chars p w = true ->
  head_fails p s' ->
  String.length w < fuel ->
  k (prev_after prev w) s' c = Some a ->
  star_loop (m (Cls p)) fuel prev (w ++ s') c k = Some a.
Proof.
  set (body := m (Cls p)).
  induction w as [|x w IH]; intros s' prev c k a fuel Hw Hs' Hfuel Hk.
  - simpl in Hk. change ("" ++ s') with s'.
    destruct fuel as [|fuel]; cbn [star_loop]; [assumption|].
    unfold body at 1. cbn [m].
    destruct s' as [|y s']; [assumption|]. simpl in Hs'. now rewrite Hs'.
  - simpl in Hw. apply andb_prop in Hw as [Hx Hw].
    destruct fuel as [|fuel]; [simpl in Hfuel; lia|].
    change (String x w ++ s') with (String x (w ++ s')).
    cbn [star_loop]. unfold body at 1. cbn [m]. rewrite Hx.
    replace (String.length (w ++ s') <? String.length (String x (w ++ s')))
      with true by (symmetry; apply Nat.ltb_lt; simpl; lia).
    rewrite (IH s' (Some x) c k a fuel); auto. simpl in Hfuel. lia.
Qed.


Lemma plus_greedy p w s' prev c (k : @kont A) a :
  w <> "" ->
  all_chars p w = true ->
  head_fails p s' ->
  k (prev_after prev w) s' c = Some a ->
  m (plus (Cls p)) prev (w ++ s') c k = Some a.
Proof.
  intros Hne Hw Hs' Hk. destruct w as [|x w]; [contradiction|].
  simpl in Hw. apply andb_prop in Hw as [Hx Hw].
  change (String x w ++ s') with (String x (w ++ s')).
  unfold plus. cbn [m]. rewrite Hx.
  apply star_cls_greedy; auto. rewrite length_append. lia.
Qed.

(** A pattern that starts with a character class fails where the class
    does. *)
Lemma m_first_fails p X Y prev s c (k : @kont A) :
  head_fails p s -> m (Seq (Seq (Cls p) X) Y) prev s c k = None.
Proof.
  intros H. cbn [m]. destruct s as [|x s]; [reflexivity|].
  simpl in H. now rewrite H.
Qed.

Lemma seq_plus_greedy p R w s' prev c (k : @kont A) a :
  w <> "" ->
  all_chars p w = true ->
  head_fails p s' ->
  m R (prev_after prev w) s' c k = Some a ->
  m (Seq (plus (Cls p)) R) prev (w ++ s') c k = Some a.
Proof.
  intros Hne Hw Hs' H. change (m (Seq (plus (Cls p)) R) prev (w ++ s') c k)
    with (m (plus (Cls p)) prev (w ++ s') c (fun p' s1 c' => m R p' s1 c' k)).
  now apply plus_greedy.
Qed.

End Greedy.

Lemma none_of_head p s : none_of p s -> head_fails p s.
Proof. destruct s; simpl; tauto. Qed.



(** A pattern that needs a character of a class matches nowhere in a
    string that has none. *)
Lemma den_needs p r s s' c c' :
  Den r s s' c c' -> needs p r -> none_of p s -> False.
Proof.
  induction 1 as [s c|q x s c Hq|r1 r2 s s1 s2 c c1 c2 D1 IH1 D2 IH2
                 |r1 r2 s s' c c' _ IH|r1 r2 s s' c c' _ IH|r s c
                 |r s s1 s2 c c1 c2 _ _ _ _
                 |n r s s' c c' _ IH|s c|s c _|s c];
    simpl; intros Hn Hs; try contradiction.
  - subst q. destruct Hs as [Hx _]. congruence.
  - destruct Hn as [Hn|Hn]; [now apply IH1|].
    apply IH2; [assumption|].
    destruct (den_suffix _ _ _ _ _ D1) as [w ->].
    apply none_of_append in Hs. tauto.
  - apply IH; tauto.
  - apply IH; tauto.
  - now apply IH.
Qed.

Lemma search_none_needs p r s :
  needs p r -> none_of p s -> search r s = None.
Proof.
  intros Hn Hs. destruct (search r s) as [c|] eqn:E; [|reflexivity].
  exfalso. apply search_sound in E. destruct E as (pre & s1 & s' & -> & D).
  apply (den_needs p r s1 s' [] c D Hn).
  apply none_of_append in Hs. tauto.
Qed.

End RegexFacts.

(* ===================================================================== *)
(** * Properties of the shell safety filter                              *)
(* ===================================================================== *)

Module ShellFacts.
Import PyStr Regex Shell ShellSpec.

(** C1.  The six bypass commands of the coverage scenario are rejected
    (a reason is returned) and the three harmless commands pass (nothing
    is returned), at the default depth 0. *)
Theorem bypass_coverage :
  Forall (fun command => _is_dangerous command 0 <> None)
         [ "rm -r -f /"; "rm --recursive --force /"; python_rm;
           "sudo rm -rf /"; "echo ok; rm -rf /"; "/usr/bin/rm -rf /" ]
  /\ Forall (fun command => _is_dangerous command 0 = None)
            [ "rm -rf ./build"; "ls -la /tmp"; "python3 -m pytest tests/" ].
Proof.
  split; repeat constructor; vm_compute; congruence.
Qed.

(** *** The [rm] layer *)

Lemma rm_target_loop_root r f targets :
  r = true ->
  (exists t, In t targets /\ normalize_target t = "/") ->
  rm_target_loop r f targets <> None.
Proof.
  intros -> (t & Hin & Hn).
  induction targets as [|x targets IH]; [contradiction|].
  simpl. destruct Hin as [->|Hin].
  - rewrite Hn. simpl. discriminate.
  - destruct (String.eqb (normalize_target x) "/"); [discriminate|].
    simpl. destruct (f && matches_dangerous (normalize_target x)); [discriminate|].
    now apply IH.
Qed.

Lemma matches_dangerous_in n :
  In n _DANGEROUS_RM_TARGETS -> matches_dangerous n = true.
Proof.
  intros H. unfold matches_dangerous. apply existsb_exists.
  exists n. split; [assumption|]. now rewrite String.eqb_refl.
Qed.

Lemma rm_target_loop_critical targets :
  (exists t, In t targets /\ In (normalize_target t) _DANGEROUS_RM_TARGETS) ->
  rm_target_loop true true targets <> None.
Proof.
  intros (t & Hin & Hn).
  induction targets as [|x targets IH]; [contradiction|].
  simpl. destruct Hin as [->|Hin].
  - destruct (String.eqb (normalize_target t) "/"); [discriminate|].
    rewrite (matches_dangerous_in _ Hn). discriminate.
  - destruct (String.eqb (normalize_target x) "/"); [discriminate|].
    destruct (matches_dangerous (normalize_target x)); [discriminate|].
    now apply IH.
Qed.

(** **** What [_extract_rm_flags] and [_extract_rm_targets] compute *)

Lemma has_flag_add c x flags :
  has_flag c (add_flag x flags) = Ascii.eqb c x || has_flag c flags.
Proof.
  unfold add_flag. destruct (has_flag x flags) eqn:E; [|reflexivity].
  destruct (Ascii.eqb_spec c x) as [->|]; [now rewrite E|reflexivity].
Qed.

Lemma has_flag_add_flags c s : forall flags,
  has_flag c (add_flags s flags) = true <-> occurs c s \/ has_flag c flags = true.
Proof.
  induction s as [|x s IH]; intros flags; simpl.
  - tauto.
  - rewrite IH, has_flag_add, orb_true_iff.
    destruct (Ascii.eqb_spec c x) as [->|Hne]; intuition congruence.
Qed.

Lemma long_flag_prefix tok c :
  Shell.dict_get _RM_LONG_FLAG_MAP tok = Some c -> startswith "--" tok = true.
Proof.
  intros H. unfold _RM_LONG_FLAG_MAP in H. cbn [Shell.dict_get] in H.
  repeat (match type of H with
          | context [String.eqb ?k tok] =>
              destruct (String.eqb_spec k tok) as [<-|_]; [reflexivity|]
          end).
  discriminate.
Qed.

Lemma token_flag_dashes c : ~ token_flag "--" c.
Proof.
  intros [H|(H & _)]; vm_compute in H; discriminate.
Qed.

(** One iteration of the loop of [_extract_rm_flags], for a token other
    than [--]: the flags that the token gives are added. *)
Lemma rm_flags_loop_step tok args flags :
  tok <> "--" ->
  exists flags',
    rm_flags_loop (tok :: args) flags = rm_flags_loop args flags'
    /\ forall c, has_flag c flags' = true
                 <-> has_flag c flags = true \/ token_flag tok c.
Proof.
  intros Hne. cbn [rm_flags_loop].
  destruct (String.eqb_spec tok "--") as [|_]; [contradiction|].
  destruct (startswith "--" tok) eqn:E2.
  - destruct (Shell.dict_get _RM_LONG_FLAG_MAP tok) as [mapped|] eqn:Em.
    + exists (add_flag mapped flags). split; [reflexivity|]. intros c.
      rewrite has_flag_add, orb_true_iff. unfold token_flag. rewrite Em.
      destruct (Ascii.eqb_spec c mapped) as [->|Hc]; split; intros H; auto.
      * destruct H as [H|H]; [discriminate|now left].
      * destruct H as [H|[H|(H & _)]]; [now right|congruence|congruence].
    + exists flags. split; [reflexivity|]. intros c.
      unfold token_flag. rewrite Em.
      split; [auto|]. intros [H|[H|(H & _)]]; [assumption|discriminate|congruence].
  - destruct (startswith "-" tok && (1 <? String.length tok)
              && negb (isdigit (tail tok))) eqn:E1.
    + apply andb_prop in E1 as [E1 E3]. apply andb_prop in E1 as [E1 E4].
      apply negb_true_iff in E3. apply Nat.ltb_lt in E4.
      exists (add_flags (tail tok) flags). split; [reflexivity|]. intros c.
      rewrite has_flag_add_flags. unfold token_flag.
      split.
      * intros [H|H]; [right; right; auto 6|now left].
      * intros [H|[H|H]]; [now right| |left; tauto].
        apply long_flag_prefix in H. congruence.
    + exists flags. split; [reflexivity|]. intros c.
      unfold token_flag. split; [auto|].
      intros [H|[H|(_ & H1 & H2 & H3 & _)]]; [assumption| |].
      * apply long_flag_prefix in H. congruence.
      * apply Nat.ltb_lt in H2. rewrite H1, H2, H3 in E1. discriminate.
Qed.

(** The flags that the loop of [_extract_rm_flags] adds are the flags
    given by the tokens before the first [--]. *)
Lemma rm_flags_loop_spec c : forall args flags,
  has_flag c (rm_flags_loop args flags) = true
  <-> has_flag c flags = true \/ is_flag args c.
Proof.
  induction args as [|tok args IH]; intros flags.
  - simpl. split; [auto|]. intros [H|(pre & tok & post & H & _)]; [assumption|].
    destruct pre; discriminate.
  - destruct (String.eqb_spec tok "--") as [->|Hne].
    + simpl. split; [auto|].
      intros [H|(pre & tok & post & H & Hpre & Htok & Hf)]; [assumption|].
      destruct pre as [|p pre]; simpl in H; injection H as H1 H2; subst.
      * contradiction.
      * exfalso. apply Hpre. now left.
    + destruct (rm_flags_loop_step tok args flags Hne) as (f' & -> & Hf').
      rewrite IH, Hf'. split.
      * intros [[H|H]|(pre & t & post & -> & Hpre & Ht & Hfl)]; [now left| |].
        -- right. exists [], tok, args. simpl. auto.
        -- right. exists (tok :: pre), t, post. simpl. repeat split; auto.
           intros [H|H]; [congruence|contradiction].
      * intros [H|(pre & t & post & Hargs & Hpre & Ht & Hfl)]; [now left; left|].
        destruct pre as [|p pre]; simpl in Hargs; injection Hargs as H1 H2; subst.
        -- left. now right.
        -- right. exists pre, t, post. repeat split; auto.
           intros Hin. apply Hpre. now right.
Qed.

Lemma extract_rm_flags_spec tokens c :
  has_flag c (_extract_rm_flags tokens) = true <-> is_flag (List.tl tokens) c.
Proof.
  unfold _extract_rm_flags. rewrite rm_flags_loop_spec. simpl.
  split; [intros [H|H]; [discriminate|assumption]|auto].
Qed.

(** The targets that the loop of [_extract_rm_targets] collects. *)
Lemma rm_targets_loop_spec t : forall args past_flags,
  In t (rm_targets_loop args past_flags)
  <-> exists pre post,
        args = (pre ++ t :: post)%list /\ t <> "--"
        /\ (past_flags = true \/ In "--" pre \/ startswith "-" t = false).
Proof.
  induction args as [|tok args IH]; intros pf.
  - simpl. split; [contradiction|]. intros (pre & post & H & _).
    destruct pre; discriminate.
  - simpl. destruct (String.eqb_spec tok "--") as [->|Hne].
    + rewrite IH. split.
      * intros (pre & post & -> & Ht & _).
        exists ("--" :: pre), post. simpl. repeat split; auto.
      * intros (pre & post & Hargs & Ht & Hc).
        destruct pre as [|p pre]; simpl in Hargs; injection Hargs as H1 H2; subst.
        -- contradiction.
        -- exists pre, post. auto.
    + destruct (pf || negb (startswith "-" tok)) eqn:E.
      * simpl. rewrite IH. split.
        -- intros [->|(pre & post & -> & Ht & Hc)].
           ++ exists [], args. simpl. repeat split; auto.
              apply orb_prop in E as [E|E]; [now left|].
              apply negb_true_iff in E. auto.
           ++ exists (tok :: pre), post. simpl. repeat split; auto.
              destruct Hc as [H|[H|H]]; auto.
        -- intros (pre & post & Hargs & Ht & Hc).
           destruct pre as [|p pre]; simpl in Hargs; injection Hargs as H1 H2; subst.
           ++ now left.
           ++ right. exists pre, post. repeat split; auto.
              destruct Hc as [H|[[H|H]|H]]; auto; congruence.
      * apply orb_false_elim in E as [-> E]. apply negb_false_iff in E.
        rewrite IH. split.
        -- intros (pre & post & -> & Ht & Hc).
           exists (tok :: pre), post. simpl. repeat split; auto.
           destruct Hc as [H|[H|H]]; auto.
        -- intros (pre & post & Hargs & Ht & Hc).
           destruct pre as [|p pre]; simpl in Hargs; injection Hargs as H1 H2; subst.
           ++ destruct Hc as [H|[[]|H]]; congruence.
           ++ exists pre, post. repeat split; auto.
              destruct Hc as [H|[[H|H]|H]]; auto; congruence.
Qed.

Lemma extract_rm_targets_spec tokens t :
  In t (_extract_rm_targets tokens) <-> is_target (List.tl tokens) t.
Proof.
  unfold _extract_rm_targets, is_target. rewrite rm_targets_loop_spec.
  split; intros (pre & post & H1 & H2 & H3); exists pre, post; repeat split; auto.
  destruct H3 as [H3|H3]; [discriminate|assumption].
Qed.

Lemma check_rm_rejects tokens :
  rm_rejectable tokens -> exists reason, _check_rm tokens = Some reason /\ reason <> "".
Proof.
  intros H.
  assert (Hne : _check_rm tokens <> None).
  { unfold _check_rm.
    destruct H as [[H1 H2]|[(H1 & t & H2 & H3)|(H1 & H2 & t & H3 & H4)]];
      apply extract_rm_flags_spec in H1;
      try apply extract_rm_flags_spec in H2;
      try apply extract_rm_targets_spec in H3;
      try (apply extract_rm_targets_spec in H2).
    - rewrite H1, H2. discriminate.
    - destruct (has_flag "!" (_extract_rm_flags tokens) && _); [discriminate|].
      apply rm_target_loop_root; eauto.
    - destruct (has_flag "!" (_extract_rm_flags tokens) && _); [discriminate|].
      rewrite H1, H2. apply rm_target_loop_critical; eauto. }
  assert (Hreason : forall r f l x, rm_target_loop r f l = Some x -> x <> "").
  { intros r f l x. induction l as [|y l IH]; simpl; [discriminate|].
    destruct (r && String.eqb (normalize_target y) "/").
    - intros [= <-]. discriminate.
    - destruct (r && f && matches_dangerous (normalize_target y)); [|exact IH].
      intros [= <-]. discriminate. }
  destruct (_check_rm tokens) as [reason|] eqn:E; [|congruence].
  exists reason. split; [reflexivity|].
  unfold _check_rm in E.
  destruct (has_flag "!" (_extract_rm_flags tokens) && _).
  - injection E as <-. discriminate.
  - eauto.
Qed.

Lemma first_reason_some check subcmds subcmd :
  In subcmd subcmds -> check subcmd <> None -> first_reason check subcmds <> None.
Proof.
  induction subcmds as [|x l IH]; [contradiction|].
  intros [->|Hin] Hc; simpl.
  - destruct (check subcmd); congruence.
  - destruct (check x); [discriminate|]. now apply IH.
Qed.

Lemma check_tokens_rm deeper tokens :
  after_last_slash (hd "" tokens) = "rm" ->
  rm_rejectable tokens ->
  check_tokens deeper tokens = _check_rm tokens /\ _check_rm tokens <> None.
Proof.
  intros Hbase Hrej.
  destruct (check_rm_rejects tokens Hrej) as (reason & E & Hne).
  split; [|congruence].
  destruct tokens as [|t0 args].
  - simpl in Hbase. discriminate.
  - unfold check_tokens. simpl in Hbase. rewrite Hbase. cbn -[_check_rm].
    rewrite E. cbn. destruct reason; [contradiction|reflexivity].
Qed.

(** C3.  A sub-command of a command whose tokens (after [sudo] is
    stripped) have the base command [rm] and meet one of the three
    conditions (a) [!] and [r] among the normalised flags, (b) [r] and a
    target normalising to [/], (c) [r] and [f] and a target normalising
    to a critical path, makes the filter reject: the [rm] layer returns
    a non-empty reason for these tokens, and the filter returns a reason
    for the command, at every depth below the bound. *)
Theorem rm_layer_rejects command depth subcmd tokens :
  depth < _MAX_CHECK_DEPTH ->
  In subcmd (_split_shell_commands command) ->
  _strip_sudo (_tokenize subcmd) = tokens ->
  after_last_slash (hd "" tokens) = "rm" ->
  rm_rejectable tokens ->
  (exists reason, _check_rm tokens = Some reason /\ reason <> "")
  /\ _is_dangerous command depth <> None.
Proof.
  intros Hd Hin Hstrip Hbase Hrej.
  split; [now apply check_rm_rejects|].
  unfold _is_dangerous, _MAX_CHECK_DEPTH in *.
  destruct (3 - depth) as [|levels] eqn:El; [lia|].
  simpl.
  destruct (first_reason _ _) eqn:E; [discriminate|].
  exfalso. revert E. apply first_reason_some with (subcmd := subcmd); [assumption|].
  unfold check_subcommand.
  destruct (_tokenize subcmd) as [|t ts] eqn:Et.
  { simpl in Hstrip. subst tokens. discriminate. }
  rewrite Hstrip.
  destruct (check_tokens_rm (dangerous_within levels) tokens Hbase Hrej) as [-> H].
  exact H.
Qed.

Lemma rm_layer_rejects_witness :
  (exists reason,
      _check_rm ["/bin/rm"; "-r"; "--force"; "/etc/"] = Some reason /\ reason <> "")
  /\ _is_dangerous "ls; sudo -u root /bin/rm -r --force /etc/" 0 <> None.
Proof.
  apply (rm_layer_rejects "ls; sudo -u root /bin/rm -r --force /etc/" 0
           "sudo -u root /bin/rm -r --force /etc/").
  - unfold _MAX_CHECK_DEPTH. lia.
  - vm_compute. right. left. reflexivity.
  - vm_compute. reflexivity.
  - vm_compute. reflexivity.
  - right. right. split; [|split].
    + exists [], "-r", ["--force"; "/etc/"]. repeat split; try discriminate.
      * intros [].
      * right. vm_compute. intuition (try lia).
    + exists ["-r"], "--force", ["/etc/"]. repeat split; try discriminate.
      * intros [H|[]]. discriminate.
      * left. reflexivity.
    + exists "/etc/". split.
      * exists ["-r"; "--force"], []. repeat split; try discriminate.
        right. reflexivity.
      * vm_compute. tauto.
Defined.

End ShellFacts.

(* ===================================================================== *)
(** * The shell filter on chains of sub-commands                         *)
(* ===================================================================== *)

Module ChainFacts.
Import PyStr Regex RegexSpec StrFacts Shell ShellSpec.

(** *** One step of the scanning loop *)

Lemma space_plain c rest a b :
  isspace c = true -> classify c rest a b = StepPlain.
Proof.
  destruct c as [[] [] [] [] [] [] [] []]; intros H; try discriminate H;
    destruct rest, a, b; reflexivity.
Qed.

(** The step taken at a character depends on what follows only through
    its first character. *)
Lemma classify_same_head ch r1 r2 a b :
  same_head r1 r2 -> classify ch r1 a b = classify ch r2 a b.
Proof.
  destruct r1 as [|x r1], r2 as [|y r2]; simpl; try tauto. now intros ->.
Qed.

(** A step that keeps one character is the same at the end of the text. *)
Lemma classify_at_end ch rest a b :
  match classify ch rest a b with
  | StepSingle | StepDouble | StepPlain =>
      classify ch "" a b = classify ch rest a b
  | StepEscape => classify ch "" a b = StepPlain
  | _ => True
  end.
Proof.
  unfold classify. destruct rest as [|x rest]; cbn [is_empty negb andb starts_with_sep2].
  - rewrite andb_false_r. cbn [andb].
    destruct (Ascii.eqb ch squote && negb b); [reflexivity|].
    destruct (Ascii.eqb ch dquote && negb a); [reflexivity|].
    destruct (negb a && negb b); [|reflexivity].
    destruct (Ascii.eqb ch ";"); [exact I|reflexivity].
  - rewrite andb_true_r, andb_false_r. cbn [andb].
    destruct (Ascii.eqb_spec ch backslash) as [->|Hb]; cbn [andb].
    + destruct a; cbn [negb andb].
      * destruct b; reflexivity.
      * destruct b; reflexivity.
    + destruct (Ascii.eqb ch squote && negb b); [reflexivity|].
      destruct (Ascii.eqb ch dquote && negb a); [reflexivity|].
      destruct (negb a && negb b); [|reflexivity].
      destruct ((Ascii.eqb ch "&" && Ascii.eqb x "&")
                || (Ascii.eqb ch "|" && Ascii.eqb x "|")); [exact I|].
      destruct (Ascii.eqb ch ";"); [exact I|reflexivity].
Qed.

(** Induction on a text that is scanned one or two characters at a time. *)
Lemma scan_ind (P : string -> Prop) :
  P "" ->
  (forall ch rest,
      P rest -> (forall ch2 rest2, rest = String ch2 rest2 -> P rest2) ->
      P (String ch rest)) ->
  forall s, P s.
Proof.
  intros H0 Hstep s.
  assert (H : P s /\ (forall ch2 rest2, s = String ch2 rest2 -> P rest2)).
  { induction s as [|ch s [IH1 IH2]].
    - split; [assumption|discriminate].
    - split; [now apply Hstep|]. now intros ch2 rest2 [= _ <-]. }
  apply H.
Qed.

(** *** The first part *)

(** The first part is empty or starts as the text does. *)
Lemma first_part_head s a b :
  fst (first_part s a b) = "" \/ same_head s (fst (first_part s a b)).
Proof.
  destruct s as [|ch rest]; [now left|]. cbn [first_part].
  destruct (classify ch rest a b).
  - destruct rest as [|ch2 rest2]; [now right|].
    destruct (first_part rest2 a b). now right.
  - destruct (first_part rest (negb a) b). now right.
  - destruct (first_part rest a (negb b)). now right.
  - destruct rest; now left.
  - now left.
  - destruct (first_part rest a b). now right.
Qed.

(** A step that keeps one character is the same before a text that is
    empty or starts as the rest does. *)
Lemma classify_keep ch rest r a b :
  r = "" \/ same_head rest r ->
  match classify ch rest a b with
  | StepSingle | StepDouble | StepPlain =>
      classify ch r a b = classify ch rest a b
  | _ => True
  end.
Proof.
  intros [->|E].
  - pose proof (classify_at_end ch rest a b) as H.
    destruct (classify ch rest a b); auto.
  - rewrite <- (classify_same_head ch _ _ a b E).
    destruct (classify ch rest a b); auto.
Qed.

Lemma classify_first_part ch rest a b a' b' :
  match classify ch rest a b with
  | StepSingle | StepDouble | StepPlain =>
      classify ch (fst (first_part rest a' b')) a b = classify ch rest a b
  | _ => True
  end.
Proof. apply classify_keep, first_part_head. Qed.

Lemma escape_not_at_end ch a b : classify ch "" a b <> StepEscape.
Proof.
  intros E. pose proof (classify_at_end ch "" a b) as H. rewrite E in H.
  discriminate.
Qed.

Lemma classify_escape ch rest a b :
  classify ch rest a b = StepEscape ->
  forall rest', rest' <> "" -> classify ch rest' a b = StepEscape.
Proof.
  unfold classify. intros H rest' Hne.
  destruct (Ascii.eqb ch backslash && negb (is_empty rest) && negb a) eqn:E.
  - apply andb_prop in E as [E Ea]. apply andb_prop in E as [E _].
    rewrite E, Ea. destruct rest'; [contradiction|reflexivity].
  - destruct (Ascii.eqb ch squote && negb b); [discriminate|].
    destruct (Ascii.eqb ch dquote && negb a); [discriminate|].
    destruct (negb a && negb b); [|discriminate].
    destruct (starts_with_sep2 ch rest); [discriminate|].
    destruct (Ascii.eqb ch ";"); discriminate.
Qed.

(** The first part is scanned to its end without a separator. *)
Lemma first_part_unbroken s : forall a b,
  unbroken (fst (first_part s a b)) a b.
Proof.
  unfold unbroken. induction s as [|ch rest IH1 IH2] using scan_ind; intros a b;
    [reflexivity|].
  cbn [first_part].
  pose proof (classify_first_part ch rest a b) as Hc.
  destruct (classify ch rest a b) eqn:E.
  - destruct rest as [|ch2 rest2]; [now apply escape_not_at_end in E|].
    specialize (IH2 ch2 rest2 eq_refl a b).
    destruct (first_part rest2 a b) as [w after]. cbn [fst] in *.
    cbn [first_part].
    rewrite (classify_escape ch _ a b E) by discriminate.
    now rewrite IH2.
  - specialize (Hc (negb a) b). specialize (IH1 (negb a) b).
    destruct (first_part rest (negb a) b) as [w after]. cbn [fst] in *.
    cbn [first_part]. now rewrite Hc, IH1.
  - specialize (Hc a (negb b)). specialize (IH1 a (negb b)).
    destruct (first_part rest a (negb b)) as [w after]. cbn [fst] in *.
    cbn [first_part]. now rewrite Hc, IH1.
  - destruct rest; reflexivity.
  - reflexivity.
  - specialize (Hc a b). specialize (IH1 a b).
    destruct (first_part rest a b) as [w after]. cbn [fst] in *.
    cbn [first_part]. now rewrite Hc, IH1.
Qed.

(** *** The parts of a command *)

Lemma push_append cur ch w : push cur ch ++ w = cur ++ String ch w.
Proof. unfold push. now rewrite append_assoc. Qed.

Lemma in_flush p cur parts :
  In p (flush cur parts) -> (p = strip cur /\ p <> "") \/ In p parts.
Proof.
  unfold flush. destruct (strip cur) as [|x r] eqn:E; cbn [is_empty].
  - now right.
  - intros [<-|H]; [left; split; [reflexivity|discriminate]|now right].
Qed.

(** A text without a separator is one part. *)
Lemma unbroken_split t : forall a b current,
  unbroken t a b -> split_loop t a b current = flush (current ++ t) [].
Proof.
  unfold unbroken.
  induction t as [|ch rest IH1 IH2] using scan_ind; intros a b current H.
  - cbn [split_loop]. now rewrite append_nil_r.
  - cbn [split_loop]. cbn [first_part] in H.
    destruct (classify ch rest a b) eqn:E.
    + destruct rest as [|ch2 rest2]; [now apply escape_not_at_end in E|].
      destruct (first_part rest2 a b) as [w after] eqn:Ew.
      injection H as -> ->.
      rewrite (IH2 ch2 rest2 eq_refl a b _ Ew). now rewrite !push_append.
    + destruct (first_part rest (negb a) b) as [w after] eqn:Ew.
      injection H as -> ->. rewrite (IH1 _ _ _ Ew). now rewrite push_append.
    + destruct (first_part rest a (negb b)) as [w after] eqn:Ew.
      injection H as -> ->. rewrite (IH1 _ _ _ Ew). now rewrite push_append.
    + destruct rest; discriminate.
    + discriminate.
    + destruct (first_part rest a b) as [w after] eqn:Ew.
      injection H as -> ->. rewrite (IH1 _ _ _ Ew). now rewrite push_append.
Qed.

(** Every part is the stripped first part of some text. *)
Lemma split_loop_parts p s : forall a b current,
  In p (split_loop s a b current) ->
  p <> "" /\
  (p = strip (current ++ fst (first_part s a b))
   \/ exists s', p = strip (fst (first_part s' false false))).
Proof.
  induction s as [|ch rest IH1 IH2] using scan_ind; intros a b current H.
  - cbn [split_loop] in H. apply in_flush in H as [[-> Hne]|[]].
    split; [assumption|]. left. cbn [first_part fst]. now rewrite append_nil_r.
  - cbn [split_loop] in H. cbn [first_part].
    destruct (classify ch rest a b) eqn:E.
    + destruct rest as [|ch2 rest2]; [now apply escape_not_at_end in E|].
      apply (IH2 ch2 rest2 eq_refl) in H as [Hne H]. split; [assumption|].
      destruct (first_part rest2 a b) as [w after]. cbn [fst] in *.
      now rewrite !push_append in H.
    + apply IH1 in H as [Hne H]. split; [assumption|].
      destruct (first_part rest (negb a) b) as [w after]. cbn [fst] in *.
      now rewrite push_append in H.
    + apply IH1 in H as [Hne H]. split; [assumption|].
      destruct (first_part rest a (negb b)) as [w after]. cbn [fst] in *.
      now rewrite push_append in H.
    + destruct rest as [|ch2 rest2].
      * apply in_flush in H as [[-> Hne]|[]]. split; [assumption|].
        left. cbn [fst]. now rewrite append_nil_r.
      * apply in_flush in H as [[-> Hne]|H].
        -- split; [assumption|]. left. cbn [fst]. now rewrite append_nil_r.
        -- apply (IH2 ch2 rest2 eq_refl) in H as [Hne H]. split; [assumption|].
           right. destruct H as [->|H]; [now exists rest2|assumption].
    + apply in_flush in H as [[-> Hne]|H].
      * split; [assumption|]. left. cbn [fst]. now rewrite append_nil_r.
      * apply IH1 in H as [Hne H]. split; [assumption|].
        right. destruct H as [->|H]; [now exists rest|assumption].
    + apply IH1 in H as [Hne H]. split; [assumption|].
      destruct (first_part rest a b) as [w after]. cbn [fst] in *.
      now rewrite push_append in H.
Qed.

(** *** Stripping a part *)

Lemma unbroken_lstrip w :
  unbroken w false false -> unbroken (lstrip w) false false.
Proof.
  unfold unbroken. induction w as [|c w IH]; intros H; [assumption|].
  cbn [lstrip]. destruct (isspace c) eqn:Ec; [|assumption].
  apply IH. cbn [first_part] in H.
  rewrite (space_plain c w false false Ec) in H.
  destruct (first_part w false false) as [w' after]. now injection H as -> ->.
Qed.

Lemma rstrip_head p rest :
  rstrip_by p rest = "" \/ same_head rest (rstrip_by p rest).
Proof.
  destruct rest as [|x rest]; [now left|].
  destruct (rstrip_by_head p x rest) as [E|[r E]]; rewrite E; [now left|now right].
Qed.

Lemma unbroken_rstrip w : forall a b,
  unbroken w a b -> unbroken (rstrip w) a b.
Proof.
  unfold unbroken, rstrip.
  induction w as [|ch rest IH1 IH2] using scan_ind; intros a b H; [assumption|].
  pose proof (classify_keep ch rest _ a b (rstrip_head isspace rest)) as Hc.
  cbn [rstrip_by].
  destruct (is_empty (rstrip_by isspace rest) && isspace ch); [reflexivity|].
  cbn [first_part] in H |- *.
  destruct (classify ch rest a b) eqn:E.
  - destruct rest as [|ch2 rest2]; [now apply escape_not_at_end in E|].
    destruct (first_part rest2 a b) as [w after] eqn:Ew.
    injection H as -> ->. specialize (IH2 ch2 rest2 eq_refl a b Ew).
    cbn [rstrip_by].
    destruct (is_empty (rstrip_by isspace rest2) && isspace ch2).
    + pose proof (classify_at_end ch (String ch2 rest2) a b) as H0.
      rewrite E in H0. now rewrite H0.
    + rewrite (classify_escape ch _ a b E) by discriminate. now rewrite IH2.
  - destruct (first_part rest (negb a) b) as [w after] eqn:Ew.
    injection H as -> ->. now rewrite Hc, (IH1 _ _ Ew).
  - destruct (first_part rest a (negb b)) as [w after] eqn:Ew.
    injection H as -> ->. now rewrite Hc, (IH1 _ _ Ew).
  - destruct rest; discriminate.
  - discriminate.
  - destruct (first_part rest a b) as [w after] eqn:Ew.
    injection H as -> ->. now rewrite Hc, (IH1 _ _ Ew).
Qed.

Lemma unbroken_strip w :
  unbroken w false false -> unbroken (strip w) false false.
Proof. intros H. unfold strip. now apply unbroken_rstrip, unbroken_lstrip. Qed.

(** A sub-command of a command has itself as its only sub-command. *)
Lemma split_part command subcmd :
  In subcmd (_split_shell_commands command) ->
  _split_shell_commands subcmd = [subcmd].
Proof.
  unfold _split_shell_commands. intros H.
  apply split_loop_parts in H as [Hne H].
  assert (Hu : unbroken subcmd false false).
  { destruct H as [->|[s' ->]]; apply unbroken_strip, first_part_unbroken. }
  assert (Hs : strip subcmd = subcmd).
  { destruct H as [->|[s' ->]]; apply strip_idem. }
  rewrite (unbroken_split _ _ _ "" Hu). unfold flush. cbn [String.append].
  rewrite Hs. destruct subcmd; [contradiction|reflexivity].
Qed.

(** *** The verdict on a chain *)

Lemma first_reason_none check subcmds :
  first_reason check subcmds = None <->
  (forall subcmd, In subcmd subcmds -> check subcmd = None).
Proof.
  induction subcmds as [|x subcmds IH]; cbn [first_reason].
  - split; [intros _ subcmd []|reflexivity].
  - destruct (check x) eqn:E.
    + split; [discriminate|]. intros H. rewrite <- E. apply H. now left.
    + rewrite IH. split.
      * intros H subcmd [<-|Hin]; [assumption|now apply H].
      * intros H subcmd Hin. apply H. now right.
Qed.

Lemma dangerous_within_none levels command :
  dangerous_within (S levels) command = None <->
  (forall subcmd, In subcmd (_split_shell_commands command) ->
                  check_subcommand (dangerous_within levels) subcmd = None)
  /\ regex_deny command = None.
Proof.
  cbn [dangerous_within]. rewrite <- first_reason_none.
  destruct (first_reason _ _); [|tauto].
  split; [discriminate|]. now intros [H _].
Qed.

Lemma levels_left depth :
  depth < _MAX_CHECK_DEPTH ->
  _MAX_CHECK_DEPTH - depth = S (_MAX_CHECK_DEPTH - depth - 1).
Proof. unfold _MAX_CHECK_DEPTH. lia. Qed.

Lemma is_dangerous_none command depth :
  depth < _MAX_CHECK_DEPTH ->
  _is_dangerous command depth = None <->
  (forall subcmd, In subcmd (_split_shell_commands command) ->
                  structural_check depth subcmd = None)
  /\ regex_deny command = None.
Proof.
  intros H. unfold _is_dangerous, structural_check.
  rewrite (levels_left depth H) at 1. apply dangerous_within_none.
Qed.

Lemma part_is_dangerous_none command subcmd depth :
  depth < _MAX_CHECK_DEPTH ->
  In subcmd (_split_shell_commands command) ->
  _is_dangerous subcmd depth = None <->
  structural_check depth subcmd = None /\ regex_deny subcmd = None.
Proof.
  intros H Hin. rewrite (is_dangerous_none _ _ H), (split_part _ _ Hin).
  split.
  - intros [H1 H2]. split; [apply H1; now left|assumption].
  - intros [H1 H2]. split; [|assumption]. now intros s [<-|[]].
Qed.

(** C2, amended.  The verdict is a function of the command
    and the depth.  Below the depth bound, a command passes if and only
    if each of its sub-commands passes Layers 1 to 3 and no Layer 4
    pattern is found in the whole command; a sub-command passes if and
    only if it passes Layers 1 to 3 and no Layer 4 pattern is found in
    it.  So the chain passes exactly when all its sub-commands pass
    wherever Layer 4 judges the chain as it judges its sub-commands. *)
Theorem chain_safety command depth :
  depth < _MAX_CHECK_DEPTH ->
  (_is_dangerous command depth = None <->
     (forall subcmd, In subcmd (_split_shell_commands command) ->
                     structural_check depth subcmd = None)
     /\ regex_deny command = None)
  /\ (forall subcmd, In subcmd (_split_shell_commands command) ->
        (_is_dangerous subcmd depth = None <->
           structural_check depth subcmd = None /\ regex_deny subcmd = None))
  /\ (layer4_agrees command ->
        (_is_dangerous command depth = None <->
           (forall subcmd, In subcmd (_split_shell_commands command) ->
                           _is_dangerous subcmd depth = None))).
Proof.
  intros H. split; [now apply is_dangerous_none|].
  split; [intros subcmd Hin; now apply (part_is_dangerous_none command)|].
  intros Hagree. rewrite (is_dangerous_none _ _ H). unfold layer4_agrees in Hagree.
  split.
  - intros [H1 H2] subcmd Hin.
    apply (part_is_dangerous_none command _ _ H Hin). split; [now apply H1|].
    now apply Hagree.
  - intros Hall. split.
    + intros subcmd Hin. now apply (part_is_dangerous_none command _ _ H Hin), Hall.
    + apply Hagree. intros subcmd Hin.
      now apply (part_is_dangerous_none command _ _ H Hin), Hall.
Qed.

Lemma chain_safety_witness :
  _is_dangerous "cd /tmp && ls -la" 0 = None <->
  (forall subcmd, In subcmd (_split_shell_commands "cd /tmp && ls -la") ->
                  _is_dangerous subcmd 0 = None).
Proof.
  apply (chain_safety "cd /tmp && ls -la" 0); [unfold _MAX_CHECK_DEPTH; lia|].
  unfold layer4_agrees. split.
  - intros _ subcmd Hin. vm_compute in Hin.
    destruct Hin as [<-|[<-|[]]]; vm_compute; reflexivity.
  - intros _. vm_compute. reflexivity.
Defined.

(** C2.  The verdict on a chain is not that on its sub-commands: Layer 4
    reads the whole command.  [chmod 777 /; ls] passes although its
    sub-command [chmod 777 /] is rejected, and [chmod 777 x; ls /] is
    rejected although both of its sub-commands pass. *)
Lemma chain_verdict_differs :
  _split_shell_commands "chmod 777 /; ls" = ["chmod 777 /"; "ls"]
  /\ _is_dangerous "chmod 777 /; ls" 0 = None
  /\ _is_dangerous "chmod 777 /" 0 <> None
  /\ _split_shell_commands "chmod 777 x; ls /" = ["chmod 777 x"; "ls /"]
  /\ _is_dangerous "chmod 777 x; ls /" 0 <> None
  /\ _is_dangerous "chmod 777 x" 0 = None
  /\ _is_dangerous "ls /" 0 = None.
Proof. repeat split; vm_compute; congruence. Qed.

End ChainFacts.

(* ===================================================================== *)
(** * Further properties of the shell filter                             *)
(* ===================================================================== *)

Module ShellMore.
Import PyStr Regex RegexSpec StrFacts Shell ShellSpec ShellSpec2 ShellFacts ChainFacts.

(** *** The sub-commands of a command *)

(** X1.  Every sub-command that [_split_shell_commands] returns is not
    empty, has no white space at either end, and is its own only
    sub-command. *)
Theorem sub_commands_clean command subcmd :
  In subcmd (_split_shell_commands command) ->
  subcmd <> "" /\ strip subcmd = subcmd
  /\ _split_shell_commands subcmd = [subcmd].
Proof.
  intros H. split; [|split].
  - unfold _split_shell_commands in H. now apply split_loop_parts in H.
  - unfold _split_shell_commands in H. apply split_loop_parts in H as [_ H].
    destruct H as [->|[s' ->]]; apply strip_idem.
  - now apply (split_part command).
Qed.

Lemma sub_commands_clean_witness :
  "ls -la" <> "" /\ strip "ls -la" = "ls -la"
  /\ _split_shell_commands "ls -la" = ["ls -la"].
Proof.
  apply (sub_commands_clean "cd /tmp &&  ls -la ; pwd" "ls -la").
  vm_compute. tauto.
Defined.

(** *** Quotations *)

Lemma flush_one s : s <> "" -> strip s = s -> flush s [] = [s].
Proof.
  intros Hne Hs. unfold flush. rewrite Hs. destruct s; [contradiction|reflexivity].
Qed.

(** Inside single quotes every character but the quote is kept. *)
Lemma classify_in_single ch rest :
  ch <> squote -> classify ch rest true false = StepPlain.
Proof.
  intros H. unfold classify. rewrite andb_false_r. cbn [negb andb].
  rewrite andb_true_r, andb_false_r.
  destruct (Ascii.eqb_spec ch squote); [contradiction|reflexivity].
Qed.

(** Inside double quotes every character but the quote and the
    backslash is kept. *)
Lemma classify_in_double ch rest :
  ch <> dquote -> ch <> backslash -> classify ch rest false true = StepPlain.
Proof.
  intros H1 H2. unfold classify.
  destruct (Ascii.eqb_spec ch backslash); [contradiction|].
  destruct (Ascii.eqb_spec ch dquote); [contradiction|].
  cbn [negb andb]. now rewrite andb_false_r.
Qed.

Lemma split_in_single q : forall current,
  none_of (fun c => Ascii.eqb c squote) q ->
  split_loop (q ++ String squote "") true false current
  = flush (current ++ q ++ String squote "") [].
Proof.
  induction q as [|ch q IH]; intros current H.
  - reflexivity.
  - destruct H as [Hc Hq]. cbn [String.append split_loop].
    rewrite classify_in_single by (intros ->; discriminate).
    rewrite IH by assumption. now rewrite push_append.
Qed.

Lemma split_in_double q : forall current,
  none_of (fun c => Ascii.eqb c dquote) q ->
  none_of (fun c => Ascii.eqb c backslash) q ->
  split_loop (q ++ String dquote "") false true current
  = flush (current ++ q ++ String dquote "") [].
Proof.
  induction q as [|ch q IH]; intros current H Hb.
  - reflexivity.
  - destruct H as [Hc Hq], Hb as [Hbc Hbq]. cbn [String.append split_loop].
    rewrite classify_in_double
      by (intros ->; (discriminate Hc || discriminate Hbc)).
    rewrite IH by assumption. now rewrite push_append.
Qed.

Lemma strip_quoted quote q :
  isspace quote = false -> strip (quoted quote q) = quoted quote q.
Proof.
  intros H. unfold quoted.
  change (String quote (q ++ String quote "")) with
    ((String quote q) ++ String quote "").
  apply strip_fixed; simpl; auto. discriminate.
Qed.

(** X2.  A quotation is one sub-command, whatever separators it holds:
    between single quotes any text without a single quote, between
    double quotes any text without a double quote and a backslash. *)
Theorem quotation_is_one_part quote q :
  (quote = squote \/ (quote = dquote /\ none_of (fun c => Ascii.eqb c backslash) q)) ->
  none_of (fun c => Ascii.eqb c quote) q ->
  _split_shell_commands (quoted quote q) = [quoted quote q].
Proof.
  intros [->|[-> Hb]] Hq; unfold _split_shell_commands, quoted; cbn [split_loop].
  - change (classify squote (q ++ String squote "") false false) with StepSingle.
    cbn [negb]. rewrite split_in_single by assumption.
    apply flush_one; [discriminate|]. now apply (strip_quoted squote).
  - change (classify dquote (q ++ String dquote "") false false) with StepDouble.
    cbn [negb]. rewrite split_in_double by assumption.
    apply flush_one; [discriminate|]. now apply (strip_quoted dquote).
Qed.

Lemma quotation_is_one_part_witness :
  _split_shell_commands (quoted squote "a; b && c || d")
  = [quoted squote "a; b && c || d"].
Proof.
  apply quotation_is_one_part; [now left|]. vm_compute. tauto.
Defined.

(** *** Chains *)

Lemma flush_app current l1 l2 :
  flush current (l1 ++ l2)%list = (flush current l1 ++ l2)%list.
Proof. unfold flush. destruct (is_empty (strip current)); reflexivity. Qed.

Lemma classify_unquoted ch rest :
  quoting ch = false ->
  classify ch rest false false
  = if starts_with_sep2 ch rest then StepSep2
    else if Ascii.eqb ch ";" then StepSep1 else StepPlain.
Proof.
  unfold quoting, classify. intros H.
  apply orb_false_elim in H as [H Hb]. apply orb_false_elim in H as [Hs Hd].
  now rewrite Hb, Hs, Hd.
Qed.

Lemma ends_clean_tail ch rest :
  ends_clean (String ch rest) = true -> ends_clean rest = true.
Proof. destruct rest; [reflexivity|exact (fun H => H)]. Qed.

Lemma sep2_before_separator ch rest sep b :
  In sep [";"; "&&"; "||"] ->
  ends_clean (String ch rest) = true ->
  starts_with_sep2 ch (rest ++ sep ++ b) = starts_with_sep2 ch rest.
Proof.
  intros Hsep Hc. destruct rest as [|x rest]; [|reflexivity].
  unfold ends_clean in Hc. cbn [last_char] in Hc.
  apply negb_true_iff, orb_false_elim in Hc as [Ha Hb].
  destruct Hsep as [<-|[<-|[<-|[]]]]; cbn [String.append starts_with_sep2];
    now rewrite Ha, Hb.
Qed.

Lemma split_loop_chain sep b :
  In sep [";"; "&&"; "||"] ->
  forall a current,
    none_of quoting a -> ends_clean a = true ->
    split_loop (a ++ sep ++ b) false false current
    = (split_loop a false false current ++ _split_shell_commands b)%list.
Proof.
  intros Hsep a.
  induction a as [|ch rest IH1 IH2] using scan_ind; intros current Hq Hc.
  - cbn [String.append split_loop]. rewrite <- flush_app. cbn [List.app].
    destruct Hsep as [<-|[<-|[<-|[]]]]; cbn [String.append split_loop].
    + rewrite classify_unquoted by reflexivity.
      replace (starts_with_sep2 ";" b) with false by (destruct b; reflexivity).
      reflexivity.
    + reflexivity.
    + reflexivity.
  - destruct Hq as [Hch Hq]. pose proof (ends_clean_tail _ _ Hc) as Hc'.
    cbn [String.append split_loop].
    rewrite !classify_unquoted by assumption.
    rewrite (sep2_before_separator ch rest sep b Hsep Hc).
    destruct (starts_with_sep2 ch rest) eqn:E2.
    + destruct rest as [|x rest2]; [discriminate|]. cbn [String.append].
      destruct Hq as [_ Hq]. rewrite (IH2 x rest2 eq_refl) by
        (assumption || exact (ends_clean_tail _ _ Hc')).
      apply flush_app.
    + destruct (Ascii.eqb ch ";").
      * rewrite IH1 by assumption. apply flush_app.
      * now apply IH1.
Qed.

(** X3.  Splitting distributes over chaining: for a text [a] without
    quote characters and backslashes that does not end in [&] or [|],
    the sub-commands of [a; b], [a && b] and [a || b] are those of [a]
    followed by those of [b]. *)
Theorem split_chain a sep b :
  In sep [";"; "&&"; "||"] ->
  none_of quoting a -> ends_clean a = true ->
  _split_shell_commands (a ++ sep ++ b)
  = (_split_shell_commands a ++ _split_shell_commands b)%list.
Proof. intros Hsep Hq Hc. now apply split_loop_chain. Qed.

Lemma split_chain_witness :
  _split_shell_commands ("make clean; make " ++ "&&" ++ " ./run 'a;b'")
  = (_split_shell_commands "make clean; make "
     ++ _split_shell_commands " ./run 'a;b'")%list.
Proof.
  apply split_chain.
  - simpl. tauto.
  - vm_compute. tauto.
  - reflexivity.
Defined.

(** *** Rejection through one sub-command *)

Lemma shell_str_in x l : Shell.str_in x l = true <-> In x l.
Proof.
  unfold Shell.str_in. rewrite existsb_exists. split.
  - intros (y & Hy & E). apply String.eqb_eq in E. now subst.
  - intros H. exists x. split; [assumption|apply String.eqb_refl].
Qed.

(** A sub-command on whose tokens Layers 1 to 3 return a reason makes
    the filter return one. *)
Lemma rejected_by_sub_command command depth subcmd tokens :
  depth < _MAX_CHECK_DEPTH ->
  In subcmd (_split_shell_commands command) ->
  _strip_sudo (_tokenize subcmd) = tokens ->
  tokens <> [] ->
  check_tokens (fun code => _is_dangerous code (S depth)) tokens <> None ->
  _is_dangerous command depth <> None.
Proof.
  intros Hd Hin Hstrip Hne Hc.
  unfold _is_dangerous in *. rewrite (levels_left depth Hd).
  replace (_MAX_CHECK_DEPTH - S depth) with (_MAX_CHECK_DEPTH - depth - 1) in Hc
    by lia.
  cbn [dangerous_within].
  destruct (first_reason _ _) eqn:E; [discriminate|].
  exfalso. revert E. apply first_reason_some with (subcmd := subcmd); [assumption|].
  unfold check_subcommand.
  destruct (_tokenize subcmd) as [|t ts] eqn:Et.
  { simpl in Hstrip. now subst tokens. }
  rewrite Hstrip. exact Hc.
Qed.

Lemma layer1_blocked_nonempty tokens : layer1_blocked tokens -> tokens <> [].
Proof.
  intros H ->. destruct H as [H|[[H _]|[H _]]].
  - vm_compute in H. intuition discriminate.
  - discriminate.
  - discriminate.
Qed.

Lemma check_tokens_layer1 deeper tokens :
  layer1_blocked tokens -> check_tokens deeper tokens <> None.
Proof.
  intros H. pose proof (layer1_blocked_nonempty tokens H) as Hne.
  destruct tokens as [|t0 rest]; [contradiction|]. clear Hne.
  unfold layer1_blocked, base_of in H. cbn [hd] in H.
  unfold check_tokens.
  destruct H as [H|[[H (a & t1 & r & E & Hin)]|[H (a & t1 & r & E & Hin)]]].
  - apply shell_str_in in H. rewrite H. discriminate.
  - rewrite H. injection E as -> ->. cbn [second_in].
    apply shell_str_in in Hin. rewrite Hin. cbn. discriminate.
  - rewrite H. injection E as -> ->. cbn [second_in].
    apply shell_str_in in Hin. rewrite Hin. cbn. discriminate.
Qed.

(** X4.  Layer 1 holds anywhere in a chain: when the tokens of a
    sub-command (after [sudo] is stripped) have a blocked base command,
    whatever its directory and its arguments, or are [systemctl] with a
    blocked action, or [init] with 0 or 6, the filter returns a reason
    for the command, at every depth below the bound. *)
Theorem blocked_base_rejected command depth subcmd tokens :
  depth < _MAX_CHECK_DEPTH ->
  In subcmd (_split_shell_commands command) ->
  _strip_sudo (_tokenize subcmd) = tokens ->
  layer1_blocked tokens ->
  _is_dangerous command depth <> None.
Proof.
  intros Hd Hin Hstrip H.
  apply (rejected_by_sub_command command depth subcmd tokens); try assumption.
  - now apply layer1_blocked_nonempty.
  - now apply check_tokens_layer1.
Qed.

Lemma blocked_base_rejected_witness :
  _is_dangerous "echo start && sudo -u root /usr/sbin/mkfs.ext4 -F /dev/sdb1" 0
  <> None.
Proof.
  apply (blocked_base_rejected _ 0 "sudo -u root /usr/sbin/mkfs.ext4 -F /dev/sdb1"
           ["/usr/sbin/mkfs.ext4"; "-F"; "/dev/sdb1"]).
  - unfold _MAX_CHECK_DEPTH. lia.
  - vm_compute. tauto.
  - vm_compute. reflexivity.
  - left. vm_compute. tauto.
Defined.

(** *** The [rm] layer, exactly *)

Lemma matches_dangerous_inv n :
  matches_dangerous n = true -> n = "" \/ In n _DANGEROUS_RM_TARGETS.
Proof.
  unfold matches_dangerous. rewrite existsb_exists. intros (d & Hd & E).
  apply orb_prop in E.
  assert (Hr : rstrip_slash d = d \/ rstrip_slash d = "").
  { simpl in Hd.
    repeat (destruct Hd as [<-|Hd]; [vm_compute; tauto|]). destruct Hd. }
  destruct E as [E|E]; apply String.eqb_eq in E; subst n.
  - now right.
  - destruct Hr as [->| ->]; [now right|now left].
Qed.

Lemma normalize_target_nonempty t : normalize_target t <> "".
Proof.
  unfold normalize_target. destruct (rstrip_slash t); simpl; discriminate.
Qed.

Lemma rm_target_loop_inv r f targets :
  rm_target_loop r f targets <> None ->
  r = true
  /\ exists t, In t targets
     /\ (normalize_target t = "/"
         \/ (f = true /\ In (normalize_target t) _DANGEROUS_RM_TARGETS)).
Proof.
  induction targets as [|x targets IH]; [intros H; now contradiction H|].
  cbn [rm_target_loop].
  destruct (r && String.eqb (normalize_target x) "/") eqn:E1.
  - intros _. apply andb_prop in E1 as [-> E1]. apply String.eqb_eq in E1.
    split; [reflexivity|]. exists x. split; [now left|now left].
  - destruct (r && f && matches_dangerous (normalize_target x)) eqn:E2.
    + intros _. apply andb_prop in E2 as [E2 Hm]. apply andb_prop in E2 as [-> ->].
      split; [reflexivity|]. exists x. split; [now left|]. right.
      split; [reflexivity|].
      destruct (matches_dangerous_inv _ Hm) as [H|H]; [|assumption].
      now apply normalize_target_nonempty in H.
    + intros H. destruct (IH H) as (Hr & t & Hin & Ht).
      split; [assumption|]. exists t. split; [now right|assumption].
Qed.

(** X5.  The [rm] layer returns a reason for the tokens of a
    sub-command exactly under its three conditions: the flags [!] and
    [r]; the flag [r] and a target that normalises to [/]; the flags [r]
    and [f] and a target that normalises to a critical path. *)
Theorem rm_layer_exact tokens :
  _check_rm tokens <> None <-> rm_rejectable tokens.
Proof.
  split.
  - unfold _check_rm, rm_rejectable. cbn zeta.
    destruct (has_flag "!" (_extract_rm_flags tokens)
              && has_flag "r" (_extract_rm_flags tokens)) eqn:E.
    + intros _. left. apply andb_prop in E as [E1 E2].
      split; now apply extract_rm_flags_spec.
    + intros H. apply rm_target_loop_inv in H as (Hr & t & Hin & Ht).
      apply extract_rm_flags_spec in Hr. apply extract_rm_targets_spec in Hin.
      destruct Ht as [Ht|[Hf Ht]].
      * right. left. split; [assumption|]. now exists t.
      * right. right. apply extract_rm_flags_spec in Hf.
        split; [assumption|]. split; [assumption|]. now exists t.
  - intros H. destruct (check_rm_rejects tokens H) as (reason & E & _).
    congruence.
Qed.

(** *** The interpreter layer *)

Lemma truthy_some o : truthy o = true -> o <> None.
Proof. destruct o; [discriminate|discriminate]. Qed.

Lemma check_interpreter_truthy deeper tokens base_cmd :
  _check_interpreter deeper tokens base_cmd <> None ->
  truthy (_check_interpreter deeper tokens base_cmd) = true.
Proof.
  unfold _check_interpreter.
  destruct (match find_code_arg tokens with
            | Some c => Some c
            | None => _ end) as [code|]; [|intros H; now contradiction H].
  destruct (truthy (deeper code)); [reflexivity|].
  destruct (first_match _INTERPRETER_CODE_PATTERNS code); [reflexivity|].
  destruct (first_match _REGEX_DENY code); [reflexivity|].
  intros H. now contradiction H.
Qed.

(** The reasons of Layers 1 to 3 are not empty. *)
Lemma check_tokens_truthy deeper tokens :
  check_tokens deeper tokens <> None ->
  truthy (check_tokens deeper tokens) = true.
Proof.
  unfold check_tokens. destruct tokens as [|t0 rest]; [intros H; now contradiction H|].
  cbn zeta.
  destruct (Shell.str_in (after_last_slash t0) _BLOCKED_COMMANDS); [reflexivity|].
  destruct (String.eqb (after_last_slash t0) "systemctl" && _); [reflexivity|].
  destruct (String.eqb (after_last_slash t0) "init" && _); [reflexivity|].
  destruct (truthy (if String.eqb (after_last_slash t0) "rm" then _ else None))
    eqn:E1; [intros _; exact E1|].
  destruct (truthy (if Shell.str_in (after_last_slash t0) _INTERPRETER_COMMANDS
                       || String.eqb (after_last_slash t0) "eval"
                    then _ else None)) eqn:E2; [intros _; exact E2|].
  intros H. now contradiction H.
Qed.

Lemma first_reason_truthy check subcmds :
  (forall subcmd, check subcmd <> None -> truthy (check subcmd) = true) ->
  first_reason check subcmds <> None ->
  truthy (first_reason check subcmds) = true.
Proof.
  intros Hc. induction subcmds as [|x l IH]; cbn [first_reason].
  - intros H. now contradiction H.
  - destruct (check x) eqn:E; [|exact IH].
    intros _. rewrite <- E. apply Hc. congruence.
Qed.

(** Every reason the filter returns is a non-empty string. *)
Lemma dangerous_within_truthy levels command :
  dangerous_within levels command <> None ->
  truthy (dangerous_within levels command) = true.
Proof.
  destruct levels as [|levels]; cbn [dangerous_within].
  - intros H. now contradiction H.
  - destruct (first_reason _ _) eqn:E.
    + intros _. rewrite <- E. apply first_reason_truthy; [|congruence].
      intros subcmd. unfold check_subcommand.
      destruct (_tokenize subcmd); [intros H; now contradiction H|].
      apply check_tokens_truthy.
    + unfold regex_deny. destruct (first_match _REGEX_DENY command); [reflexivity|].
      intros H. now contradiction H.
Qed.

Lemma is_dangerous_truthy command depth :
  _is_dangerous command depth <> None ->
  truthy (_is_dangerous command depth) = true.
Proof. apply dangerous_within_truthy. Qed.

Lemma check_tokens_interpreter deeper tokens code :
  interpreter_base (base_of tokens) ->
  code_argument tokens (base_of tokens) = Some code ->
  truthy (deeper code) = true \/ code_pattern_found code ->
  check_tokens deeper tokens <> None.
Proof.
  intros Hbase Hcode Hbad.
  destruct tokens as [|t0 rest].
  { unfold code_argument in Hcode. cbn in Hcode. discriminate. }
  unfold base_of in *. cbn [hd] in *. unfold check_tokens. cbn zeta.
  destruct (Shell.str_in (after_last_slash t0) _BLOCKED_COMMANDS); [discriminate|].
  destruct (String.eqb (after_last_slash t0) "systemctl" && _); [discriminate|].
  destruct (String.eqb (after_last_slash t0) "init" && _); [discriminate|].
  destruct (truthy (if String.eqb (after_last_slash t0) "rm" then _ else None))
    eqn:E1; [now apply truthy_some|].
  assert (Hi : Shell.str_in (after_last_slash t0) _INTERPRETER_COMMANDS
               || String.eqb (after_last_slash t0) "eval" = true).
  { destruct Hbase as [H|H].
    - apply shell_str_in in H. now rewrite H.
    - rewrite H. apply orb_true_r. }
  rewrite Hi.
  assert (Hr : _check_interpreter deeper (t0 :: rest) (after_last_slash t0) <> None).
  { unfold _check_interpreter. fold (code_argument (t0 :: rest) (after_last_slash t0)).
    rewrite Hcode.
    destruct (truthy (deeper code)) eqn:Et; [discriminate|].
    destruct Hbad as [Hbad|[Hbad|Hbad]]; [discriminate| |].
    - destruct (first_match _INTERPRETER_CODE_PATTERNS code); [discriminate|].
      now contradiction Hbad.
    - destruct (first_match _INTERPRETER_CODE_PATTERNS code); [discriminate|].
      destruct (first_match _REGEX_DENY code); [discriminate|].
      now contradiction Hbad. }
  rewrite (check_interpreter_truthy _ _ _ Hr). exact Hr.
Qed.

(** X6.  Layer 3 holds anywhere in a chain: when the tokens of a
    sub-command (after [sudo] is stripped) have an interpreter or
    [eval] as base command and carry a code argument that the filter
    rejects at the next depth, or in which one of the scanned patterns
    is found, the filter returns a reason for the command, at every
    depth below the bound. *)
Theorem interpreter_escape_rejected command depth subcmd tokens code :
  depth < _MAX_CHECK_DEPTH ->
  In subcmd (_split_shell_commands command) ->
  _strip_sudo (_tokenize subcmd) = tokens ->
  interpreter_base (base_of tokens) ->
  code_argument tokens (base_of tokens) = Some code ->
  _is_dangerous code (S depth) <> None \/ code_pattern_found code ->
  _is_dangerous command depth <> None.
Proof.
  intros Hd Hin Hstrip Hbase Hcode Hbad.
  apply (rejected_by_sub_command command depth subcmd tokens); try assumption.
  - intros ->. unfold code_argument in Hcode. cbn in Hcode. discriminate.
  - apply (check_tokens_interpreter _ tokens code); try assumption.
    destruct Hbad as [H|H]; [left|now right]. now apply is_dangerous_truthy.
Qed.

Lemma interpreter_escape_rejected_witness :
  _is_dangerous
    ("cd /srv; sudo /usr/bin/python3 -c " ++ dq ++ "import os; os.remove('.env')" ++ dq)
    0
  <> None.
Proof.
  apply (interpreter_escape_rejected _ 0
           ("sudo /usr/bin/python3 -c " ++ dq ++ "import os; os.remove('.env')" ++ dq)
           ["/usr/bin/python3"; "-c"; "import os; os.remove('.env')"]
           "import os; os.remove('.env')").
  - unfold _MAX_CHECK_DEPTH. lia.
  - vm_compute. tauto.
  - vm_compute. reflexivity.
  - left. vm_compute. tauto.
  - vm_compute. reflexivity.
  - right. left. vm_compute. discriminate.
Defined.

(** *** The depth *)

Lemma check_tokens_mono d1 d2 tokens :
  (forall code, truthy (d1 code) = true -> truthy (d2 code) = true) ->
  check_tokens d1 tokens <> None -> check_tokens d2 tokens <> None.
Proof.
  intros Hd. unfold check_tokens.
  destruct tokens as [|t0 rest]; [exact (fun H => H)|]. cbn zeta.
  destruct (Shell.str_in (after_last_slash t0) _BLOCKED_COMMANDS); [discriminate|].
  destruct (String.eqb (after_last_slash t0) "systemctl" && _); [discriminate|].
  destruct (String.eqb (after_last_slash t0) "init" && _); [discriminate|].
  destruct (truthy (if String.eqb (after_last_slash t0) "rm" then _ else None));
    [exact (fun H => H)|].
  destruct (Shell.str_in (after_last_slash t0) _INTERPRETER_COMMANDS
            || String.eqb (after_last_slash t0) "eval");
    [|exact (fun H => H)].
  set (base := after_last_slash t0).
  assert (H : _check_interpreter d1 (t0 :: rest) base <> None ->
              _check_interpreter d2 (t0 :: rest) base <> None).
  { unfold _check_interpreter.
    destruct (match find_code_arg (t0 :: rest) with
              | Some c => Some c
              | None => _ end) as [code|]; [|exact (fun H => H)].
    specialize (Hd code).
    destruct (truthy (d1 code)).
    - rewrite Hd by reflexivity. discriminate.
    - destruct (truthy (d2 code)); [discriminate|exact (fun H => H)]. }
  destruct (truthy (_check_interpreter d1 (t0 :: rest) base)) eqn:E1;
    [|intros H1; now contradiction H1].
  intros _. apply truthy_some in E1. apply H in E1.
  rewrite (check_interpreter_truthy _ _ _ E1). exact E1.
Qed.

Lemma first_reason_mono c1 c2 subcmds :
  (forall subcmd, c1 subcmd <> None -> c2 subcmd <> None) ->
  first_reason c1 subcmds <> None -> first_reason c2 subcmds <> None.
Proof.
  intros Hc. induction subcmds as [|x l IH]; cbn [first_reason];
    [exact (fun H => H)|].
  destruct (c1 x) eqn:E1.
  - intros _. destruct (c2 x) eqn:E2; [discriminate|].
    exfalso. apply (Hc x); congruence.
  - intros H. destruct (c2 x); [discriminate|]. now apply IH.
Qed.

Lemma dangerous_within_mono levels : forall command,
  dangerous_within levels command <> None ->
  dangerous_within (S levels) command <> None.
Proof.
  induction levels as [|levels IH]; intros command.
  - intros H. now contradiction H.
  - intros H. cbn [dangerous_within] in H.
    change (dangerous_within (S (S levels)) command) with
      (first_reason (check_subcommand (dangerous_within (S levels)))
                    (_split_shell_commands command)
       orelse regex_deny command).
    destruct (first_reason (check_subcommand (dangerous_within levels)) _) eqn:E.
    + assert (Hm : first_reason (check_subcommand (dangerous_within (S levels)))
                     (_split_shell_commands command) <> None).
      { apply (first_reason_mono (check_subcommand (dangerous_within levels)));
          [|congruence].
        intros subcmd. unfold check_subcommand.
        destruct (_tokenize subcmd); [exact (fun H => H)|].
        apply check_tokens_mono. intros code Ht.
        apply dangerous_within_truthy, IH. now apply truthy_some. }
      destruct (first_reason (check_subcommand (dangerous_within (S levels))) _);
        [discriminate|now contradiction Hm].
    + destruct (first_reason (check_subcommand (dangerous_within (S levels))) _);
        [discriminate|exact H].
Qed.

(** X7.  The filter is strictest at the outermost level: a command for
    which it returns a reason at some depth gets a reason at every
    smaller depth, in particular at depth 0, where commands are checked
    before they run. *)
Theorem rejected_at_smaller_depth command depth depth' :
  depth <= depth' ->
  _is_dangerous command depth' <> None ->
  _is_dangerous command depth <> None.
Proof.
  intros Hle. induction Hle as [|d Hle IH]; [exact (fun H => H)|].
  intros H. apply IH. unfold _is_dangerous in *.
  destruct (Nat.lt_ge_cases d _MAX_CHECK_DEPTH) as [Hlt|Hge].
  - rewrite (levels_left d Hlt).
    replace (_MAX_CHECK_DEPTH - S d) with (_MAX_CHECK_DEPTH - d - 1) in H by lia.
    now apply dangerous_within_mono.
  - replace (_MAX_CHECK_DEPTH - S d) with 0 in H by lia. now contradiction H.
Qed.

Lemma rejected_at_smaller_depth_witness :
  _is_dangerous "bash -c 'rm -rf /'" 0 <> None.
Proof.
  apply (rejected_at_smaller_depth _ 0 2); [lia|]. vm_compute. discriminate.
Defined.

(** *** [sudo] *)

Lemma sudo_skip_options opts : forall rest,
  Forall (fun o => startswith "-" (fst o) = true) opts ->
  sudo_skip (option_tokens opts ++ rest)%list = sudo_skip rest.
Proof.
  induction opts as [|[flag arg] opts IH]; intros rest H; [reflexivity|].
  inversion H as [|? ? Hf Hrest]; subst. cbn [fst] in Hf.
  unfold option_tokens. cbn [flat_map fst snd List.app sudo_skip].
  rewrite Hf. now apply IH.
Qed.

(** X8.  After a leading [sudo], every token that starts with a dash is
    dropped together with the token that follows it, whether or not the
    option takes an argument; the tokens from the first other token on
    are what the filter checks.  When nothing is left, or the last
    option stands alone, the tokens are returned unchanged, [sudo]
    included. *)
Theorem sudo_prefix_stripped opts :
  Forall (fun o => startswith "-" (fst o) = true) opts ->
  (forall cmd args,
      startswith "-" cmd = false ->
      _strip_sudo ("sudo" :: option_tokens opts ++ cmd :: args)%list = cmd :: args)
  /\ _strip_sudo ("sudo" :: option_tokens opts)
     = "sudo" :: option_tokens opts
  /\ (forall flag,
        startswith "-" flag = true ->
        _strip_sudo ("sudo" :: option_tokens opts ++ [flag])%list
        = ("sudo" :: option_tokens opts ++ [flag])%list).
Proof.
  intros H. split; [|split].
  - intros cmd args Hc. unfold _strip_sudo. cbn [String.eqb Ascii.eqb Bool.eqb negb].
    cbn. rewrite (sudo_skip_options opts (cmd :: args) H).
    cbn [sudo_skip]. now rewrite Hc.
  - unfold _strip_sudo. cbn.
    rewrite <- (app_nil_r (option_tokens opts)) at 1.
    now rewrite (sudo_skip_options opts [] H).
  - intros flag Hf. unfold _strip_sudo. cbn.
    rewrite (sudo_skip_options opts [flag] H). cbn [sudo_skip]. now rewrite Hf.
Qed.

Lemma sudo_prefix_stripped_witness :
  _strip_sudo ["sudo"; "-u"; "root"; "-g"; "wheel"; "rm"; "-rf"; "/"]
  = ["rm"; "-rf"; "/"]
  /\ _strip_sudo ["sudo"; "-n"; "rm"; "-rf"; "/"] = ["sudo"; "-n"; "rm"; "-rf"; "/"].
Proof.
  assert (H : Forall (fun o => startswith "-" (fst o) = true)
                     [("-u", "root"); ("-g", "wheel")])
    by (repeat constructor).
  assert (H' : Forall (fun o => startswith "-" (fst o) = true)
                      [("-n", "rm"); ("-rf", "/")])
    by (repeat constructor).
  split.
  - apply (proj1 (sudo_prefix_stripped _ H) "rm" ["-rf"; "/"]). reflexivity.
  - exact (proj1 (proj2 (sudo_prefix_stripped _ H'))).
Defined.

End ShellMore.

(* ===================================================================== *)
(** * The shell tool runs what the guard lets through                    *)
(* ===================================================================== *)

Module ShellExecFacts.
Import PyStr Shell ShellExec ShellSpec3 ShellMore.
Local Open Scope list_scope.

Lemma blocked_call os command timeout ctx reason :
  _is_dangerous command 0 = Some reason ->
  execute os (Some command) timeout ctx = ([], Returns ("Error: " ++ reason)%string).
Proof.
  intros H. unfold execute. rewrite H.
  assert (Ht : truthy (_is_dangerous command 0) = true)
    by (apply is_dangerous_truthy; rewrite H; discriminate).
  rewrite H in Ht. simpl in Ht. apply negb_true_iff in Ht. now rewrite Ht.
Qed.

(** X24.  The shell tool starts a process exactly for a command that
    [_is_dangerous] lets through, outside a dry run: the process is
    started once, with that command, in the workspace.  A command that
    is rejected gets the reason as an error, and nothing is started. *)
Theorem execute_spawns_only_safe os command timeout ctx :
  (spawns (execute os (Some command) timeout ctx)
   <-> _is_dangerous command 0 = None /\ dry_run ctx = false)
  /\ (forall c cwd,
        In (CreateSubprocessShell c cwd) (fst (execute os (Some command) timeout ctx)) ->
        c = command /\ cwd = workspace_path ctx
        /\ hd_error (fst (execute os (Some command) timeout ctx))
           = Some (CreateSubprocessShell command (workspace_path ctx)))
  /\ (forall reason,
        _is_dangerous command 0 = Some reason ->
        execute os (Some command) timeout ctx
        = ([], Returns ("Error: " ++ reason)%string)).
Proof.
  split; [|split].
  - unfold spawns. destruct (_is_dangerous command 0) as [reason|] eqn:E.
    + rewrite (blocked_call os command timeout ctx reason E). simpl. split.
      * intros (c & cwd & []).
      * intros [H _]. discriminate.
    + unfold execute. rewrite E. destruct (dry_run ctx).
      * simpl. split; [intros (c & cwd & [])|intros [_ H]; discriminate].
      * split; [auto|]. intros _. exists command, (workspace_path ctx).
        destruct (os command (workspace_path ctx)) as [[out err rc|]| |];
          simpl; auto.
  - intros c cwd. destruct (_is_dangerous command 0) as [reason|] eqn:E.
    + rewrite (blocked_call os command timeout ctx reason E). intros [].
    + unfold execute. rewrite E. destruct (dry_run ctx); [intros []|].
      destruct (os command (workspace_path ctx)) as [[out err rc|]| |]; simpl;
        intros H; repeat (destruct H as [H|H]; try discriminate);
        try contradiction; injection H as <- <-; auto.
  - intros reason. apply blocked_call.
Qed.

Lemma execute_spawns_only_safe_witness :
  spawns (execute quiet_os (Some "ls -la"%string) None plain_context).
Proof.
  apply (proj1 (execute_spawns_only_safe quiet_os "ls -la" None plain_context)).
  split; reflexivity.
Defined.

End ShellExecFacts.

(* ===================================================================== *)
(** * Properties of the workflow layering                                *)
(* ===================================================================== *)

Module WorkflowFacts.
Import PyStr Workflow WorkflowSpec.
Local Open Scope list_scope.

(** *** Dictionaries *)

Lemma str_in_In x l : str_in x l = true <-> In x l.
Proof.
  unfold str_in. rewrite existsb_exists. split.
  - intros (y & Hy & E). apply String.eqb_eq in E. now subst.
  - intros H. exists x. split; [assumption|apply String.eqb_refl].
Qed.

Lemma str_in_app x l1 l2 : str_in x (l1 ++ l2) = str_in x l1 || str_in x l2.
Proof. unfold str_in. apply existsb_app. Qed.

Section Dict.
Context {V : Type}.
Implicit Types (d : dict V) (k : string) (v : V).

Lemma find_set d k v k' :
  dict_find (dict_set d k v) k'
  = if String.eqb k k' then Some v else dict_find d k'.
Proof.
  induction d as [|[k0 v0] d IH]; simpl.
  - reflexivity.
  - destruct (String.eqb_spec k0 k) as [->|Hne]; simpl.
    + destruct (String.eqb k k'); reflexivity.
    + destruct (String.eqb_spec k0 k') as [->|Hne'].
      * destruct (String.eqb_spec k k'); [congruence|reflexivity].
      * exact IH.
Qed.

Lemma keys_set d k v : keys (dict_set d k v) = add_key (keys d) k.
Proof.
  unfold add_key, str_in. induction d as [|[k0 v0] d IH]; simpl.
  - reflexivity.
  - destruct (String.eqb_spec k0 k) as [->|Hne]; simpl.
    + now rewrite String.eqb_refl.
    + destruct (String.eqb_spec k k0) as [|_]; [congruence|]. simpl.
      rewrite IH. destruct (existsb (String.eqb k) (keys d)); reflexivity.
Qed.

Lemma keys_set_present d k v : In k (keys d) -> keys (dict_set d k v) = keys d.
Proof.
  intros H. rewrite keys_set. unfold add_key.
  now rewrite (proj2 (str_in_In k (keys d)) H).
Qed.

Lemma find_in_keys d k : In k (keys d) <-> exists v, dict_find d k = Some v.
Proof.
  induction d as [|[k0 v0] d IH]; simpl.
  - split; [contradiction|]. intros [v H]. discriminate.
  - destruct (String.eqb_spec k0 k) as [->|Hne].
    + split; eauto.
    + rewrite <- IH. tauto.
Qed.

Lemma get_of_find d k v : dict_find d k = Some v -> dict_get d k = Ok v.
Proof. unfold dict_get. now intros ->. Qed.
End Dict.

Lemma add_key_In ks k x : In x (add_key ks k) <-> In x ks \/ x = k.
Proof.
  unfold add_key. destruct (str_in k ks) eqn:E.
  - apply str_in_In in E. split; [auto|]. intros [H| ->]; assumption.
  - rewrite in_app_iff. simpl. intuition.
Qed.

Lemma add_key_NoDup ks k : NoDup ks -> NoDup (add_key ks k).
Proof.
  intros H. unfold add_key. destruct (str_in k ks) eqn:E; [assumption|].
  apply NoDup_app; [assumption|repeat constructor; intros []|].
  intros x Hx [->|[]]. apply str_in_In in Hx. congruence.
Qed.

Lemma fold_add_key_spec l : forall ks,
  NoDup ks ->
  NoDup (fold_left add_key l ks)
  /\ forall x, In x (fold_left add_key l ks) <-> In x ks \/ In x l.
Proof.
  induction l as [|k l IH]; intros ks H; simpl.
  - split; [assumption|]. tauto.
  - destruct (IH (add_key ks k) (add_key_NoDup ks k H)) as [H1 H2].
    split; [assumption|]. intros x. rewrite H2, add_key_In. intuition.
Qed.

Lemma key_order_NoDup steps : NoDup (key_order steps).
Proof. apply fold_add_key_spec. constructor. Qed.

Lemma key_order_In steps x : In x (key_order steps) <-> In x (map name steps).
Proof.
  unfold key_order.
  destruct (fold_add_key_spec (map name steps) [] (NoDup_nil _)) as [_ H].
  rewrite H. simpl. tauto.
Qed.

(** The dictionary of a comprehension over the step names. *)
Lemma dict_of_names_spec {V : Type} (v : V) steps :
  keys (dict_of_names steps v) = key_order steps
  /\ forall k, In k (key_order steps) -> dict_find (dict_of_names steps v) k = Some v.
Proof.
  unfold dict_of_names, key_order.
  assert (H : forall (d : dict V),
             (forall k, In k (keys d) -> dict_find d k = Some v) ->
             keys (fold_left (fun d s => dict_set d (name s) v) steps d)
             = fold_left add_key (map name steps) (keys d)
             /\ forall k, In k (fold_left add_key (map name steps) (keys d)) ->
                          dict_find (fold_left (fun d s => dict_set d (name s) v) steps d) k
                          = Some v).
  { induction steps as [|s steps IH]; intros d Hd; simpl.
    - split; [reflexivity|assumption].
    - rewrite <- (keys_set d (name s) v). apply IH.
      intros k Hk. rewrite find_set.
      destruct (String.eqb_spec (name s) k) as [|Hne]; [reflexivity|].
      apply Hd. rewrite keys_set in Hk. apply add_key_In in Hk.
      destruct Hk as [Hk| ->]; [assumption|contradiction]. }
  apply (H []). intros k [].
Qed.

(** *** [_build_graph] *)

Lemma successors_snoc E1 a b m :
  successors (E1 ++ [(a, b)]) m
  = (successors E1 m ++ (if String.eqb a m then [b] else []))%list.
Proof.
  unfold successors. rewrite filter_app, map_app. simpl.
  destruct (String.eqb a m); reflexivity.
Qed.

Lemma pending_snoc E1 D a b n :
  pending (E1 ++ [(a, b)]) D n
  = pending E1 D n + (if String.eqb b n && negb (str_in a D) then 1 else 0).
Proof.
  unfold pending. rewrite filter_app, length_app. simpl.
  destruct (String.eqb b n && negb (str_in a D)); reflexivity.
Qed.

Section Graph.
Variable K : list string.

Lemma add_deps_ok step_name : forall deps E1 g,
  graph_ok K E1 g ->
  In step_name K ->
  (forall dep, In dep deps -> In dep K) ->
  exists g',
  add_deps step_name deps g = Ok g'
  /\ graph_ok K (E1 ++ map (fun dep => (dep, step_name)) deps) g'.
Proof.
  induction deps as [|dep deps IH]; intros E1 [adj in_degree] Hg Hs Hd.
  - simpl. rewrite app_nil_r. eauto.
  - destruct Hg as (Hk1 & Hk2 & Ha & Hi). simpl in Hk1, Hk2, Ha, Hi.
  assert (Hdep : In dep K) by (apply Hd; now left).
  cbn [add_deps].
  rewrite (get_of_find _ _ _ (Ha dep Hdep)). cbn [bind].
  rewrite (get_of_find _ _ _ (Hi step_name Hs)). cbn [bind].
  replace (E1 ++ map (fun d => (d, step_name)) (dep :: deps))%list
    with ((E1 ++ [(dep, step_name)]) ++ map (fun d => (d, step_name)) deps)%list
    by (rewrite <- app_assoc; reflexivity).
  apply IH; [|assumption|intros d Hin; apply Hd; now right].
  repeat split; simpl.
  + rewrite keys_set_present; [assumption|now rewrite Hk1].
  + rewrite keys_set_present; [assumption|now rewrite Hk2].
  + intros m Hm. rewrite find_set, successors_snoc.
    destruct (String.eqb_spec dep m) as [->|Hne].
    * reflexivity.
    * rewrite app_nil_r. now apply Ha.
  + intros n Hn. rewrite find_set, pending_snoc. simpl.
    rewrite andb_true_r.
    destruct (String.eqb_spec step_name n) as [->|Hne].
    * f_equal. lia.
    * rewrite Nat.add_0_r. now apply Hi.
Qed.

Lemma add_steps_ok : forall todo E1 g,
  graph_ok K E1 g ->
  (forall s, In s todo -> In (name s) K) ->
  (forall s dep, In s todo -> In dep (depends_on s) -> In dep K) ->
  exists g', add_steps todo g = Ok g' /\ graph_ok K (E1 ++ edges todo) g'.
Proof.
  induction todo as [|s todo IH]; intros E1 g Hg Hn Hd.
  - simpl. rewrite app_nil_r. eauto.
  - cbn [add_steps].
  destruct (add_deps_ok (name s) (depends_on s) E1 g Hg) as (g1 & -> & Hg1).
  { apply Hn. now left. }
  { intros dep. apply Hd. now left. }
  cbn [bind]. unfold edges. cbn [flat_map]. rewrite app_assoc.
  apply IH; [assumption| |].
  + intros x Hx. apply Hn. now right.
  + intros x dep Hx. apply Hd. now right.
Qed.
End Graph.

(** With every dependency resolved, [_build_graph] returns the graph of
the dependency edges. *)
Lemma build_graph_ok wf :
    resolved wf ->
    exists g,
  _build_graph (steps wf) = Ok g
  /\ graph_ok (key_order (steps wf)) (edges (steps wf)) g.
Proof.
    intros Hres. unfold _build_graph.
    destruct (dict_of_names_spec (@nil string) (steps wf)) as [Hk1 Hf1].
    destruct (dict_of_names_spec 0%Z (steps wf)) as [Hk2 Hf2].
    apply (add_steps_ok (key_order (steps wf)) (steps wf) []).
    - repeat split; simpl; auto.
    - intros s Hs. apply key_order_In. now apply in_map.
    - intros s dep Hs Hdep. apply key_order_In. exact (Hres s dep Hs Hdep).
Qed.

(** *** The layering loop *)

Lemma pending_step E D m n :
    ~ In m D ->
    pending E D n = pending E (D ++ [m]) n + count (successors E m) n.
Proof.
    intros Hm. unfold pending, successors, count.
    induction E as [|[a b] E IH]; [reflexivity|].
    cbn [filter fst snd]. rewrite str_in_app.
    replace (str_in a [m]) with (String.eqb a m)
  by (unfold str_in; simpl; now rewrite orb_false_r).
    destruct (String.eqb_spec a m) as [->|Ham].
    - assert (E0 : str_in m D = false).
  { destruct (str_in m D) eqn:E0; [|reflexivity].
    apply str_in_In in E0. contradiction. }
  rewrite E0, orb_true_r. cbn [negb map snd]. rewrite andb_true_r, andb_false_r.
  destruct (String.eqb_spec b n) as [->|Hbn].
  + cbn [List.length]. rewrite count_occ_cons_eq by reflexivity. lia.
  + rewrite count_occ_cons_neq by assumption. exact IH.
    - rewrite orb_false_r.
  destruct (String.eqb b n && negb (str_in a D)); cbn [List.length]; lia.
Qed.

Lemma pending_zero_sources E D n m :
    pending E D n = 0 -> In (m, n) E -> In m D.
Proof.
    unfold pending. induction E as [|[a b] E IH]; [contradiction|].
    cbn [filter fst snd]. intros Hz [[= -> ->]|Hin].
    - rewrite String.eqb_refl in Hz. simpl in Hz.
  destruct (str_in m D) eqn:E0; [now apply str_in_In|discriminate].
    - apply IH; [|assumption].
  destruct (String.eqb b n && negb (str_in a D)); [discriminate|assumption].
Qed.

Lemma potential_cons_eq E D nbs n :
  potential E D (n :: nbs) n = S (potential E D nbs n).
Proof.
  unfold potential, count. rewrite count_occ_cons_eq by reflexivity. lia.
Qed.

Lemma potential_cons_neq E D nbs nb n :
  nb <> n -> potential E D (nb :: nbs) n = potential E D nbs n.
Proof.
  intros H. unfold potential, count. now rewrite count_occ_cons_neq.
Qed.

Lemma NoDup_snoc {A : Type} (l : list A) x : NoDup l -> ~ In x l -> NoDup (l ++ [x]).
Proof.
  intros H Hx. apply NoDup_app; [assumption|repeat constructor; intros []|].
  intros y Hy [->|[]]. contradiction.
Qed.

Section Loop.
Variables (K : list string) (E : list (string * string)).
Variable adj : dict (list string).
Hypothesis adj_ok : forall m, In m K -> dict_find adj m = Some (successors E m).
Hypothesis targets_ok : forall m n, In (m, n) E -> In n K.

Lemma successors_incl m : incl (successors E m) K.
Proof.
  intros n Hn. unfold successors in Hn. apply in_map_iff in Hn.
  destruct Hn as ([a b] & <- & Hin). apply filter_In in Hin.
  apply (targets_ok a b). tauto.
Qed.

(** The loop over the successors of one node. *)
Lemma relax_ok B D : forall nbs in_degree queue,
    loop_inv K E B D nbs in_degree queue ->
    incl nbs K ->
    exists in_degree' queue',
  relax nbs in_degree queue = Ok (in_degree', queue')
  /\ loop_inv K E B D [] in_degree' queue'.
Proof.
    induction nbs as [|nb nbs IH]; intros in_degree queue Hinv Hincl.
    - simpl. eauto.
    - destruct Hinv as (Hk & Hf & Hz & Hnd & Hq).
  assert (Hnb : In nb K) by (apply Hincl; now left).
  cbn [relax].
  rewrite (get_of_find _ _ _ (Hf nb Hnb)). cbn [bind].
  unfold dict_get at 1. rewrite find_set, String.eqb_refl. cbn [bind].
  rewrite potential_cons_eq.
  set (p := potential E D nbs nb).
  replace (Z.of_nat (S p) - 1)%Z with (Z.of_nat p) by lia.
  assert (Hfresh : ~ In nb (B ++ queue)).
  { intros Hin. apply Hz in Hin. rewrite potential_cons_eq in Hin. discriminate. }
  assert (Hf' : forall n, In n K ->
           dict_find (dict_set in_degree nb (Z.of_nat p)) n
           = Some (Z.of_nat (potential E D nbs n))).
  { intros n Hn. rewrite find_set.
  destruct (String.eqb_spec nb n) as [<-|Hne]; [reflexivity|].
  rewrite <- (potential_cons_neq E D nbs nb n Hne). now apply Hf. }
  assert (Hz' : forall n, In n (B ++ queue) -> potential E D nbs n = 0).
  { intros n Hn. destruct (string_dec nb n) as [<-|Hne]; [contradiction|].
  rewrite <- (potential_cons_neq E D nbs nb n Hne). now apply Hz. }
  apply IH; [|intros x Hx; apply Hincl; now right].
  repeat split.
  + rewrite keys_set_present; [assumption|now rewrite Hk].
  + exact Hf'.
  + destruct (Z.eqb_spec (Z.of_nat p) 0) as [E0|E0]; [|exact Hz'].
  intros n Hn. rewrite app_assoc in Hn. apply in_app_iff in Hn.
  destruct Hn as [Hn|[<-|[]]]; [now apply Hz'|fold p; lia].
  + destruct (Z.eqb_spec (Z.of_nat p) 0) as [E0|E0]; [|exact Hnd].
  rewrite app_assoc. now apply NoDup_snoc.
  + destruct (Z.eqb_spec (Z.of_nat p) 0) as [E0|E0]; [|exact Hq].
  intros n Hn. apply in_app_iff in Hn. destruct Hn as [Hn|[<-|[]]]; auto.
Qed.

(** The loop over the nodes of one layer. *)
Lemma process_layer_ok B : forall todo D in_degree queue,
    loop_inv K E B D [] in_degree queue ->
    NoDup (D ++ todo) ->
    incl todo K ->
    exists in_degree' queue',
  process_layer adj todo in_degree queue = Ok (in_degree', queue')
  /\ loop_inv K E B (D ++ todo) [] in_degree' queue'.
Proof.
    induction todo as [|m todo IH]; intros D in_degree queue Hinv Hnd Hincl.
    - simpl. rewrite app_nil_r. eauto.
    - assert (Hm : In m K) by (apply Hincl; now left).
  assert (HmD : ~ In m D).
  { apply NoDup_remove_2 in Hnd. intros H. apply Hnd.
  apply in_app_iff. now left. }
  cbn [process_layer].
  rewrite (get_of_find _ _ _ (adj_ok m Hm)). cbn [bind].
  assert (Hpot : forall n,
           potential E D [] n = potential E (D ++ [m]) (successors E m) n).
  { intros n. unfold potential. rewrite (pending_step E D m n HmD).
  change (count [] n) with 0. lia. }
  destruct (relax_ok B (D ++ [m]) (successors E m) in_degree queue)
  as (in_degree1 & queue1 & -> & Hinv1).
  { destruct Hinv as (Hk & Hf & Hz & Hnd' & Hq).
  repeat split; try assumption.
  - intros n Hn. rewrite <- Hpot. now apply Hf.
  - intros n Hn. rewrite <- Hpot. now apply Hz. }
  { apply successors_incl. }
  cbn [bind].
  replace (D ++ m :: todo)%list with ((D ++ [m]) ++ todo)%list
  by (rewrite <- app_assoc; reflexivity).
  apply IH; [assumption| |intros x Hx; apply Hincl; now right].
  rewrite <- app_assoc. exact Hnd.
Qed.

Lemma in_layer_cons_0 layer layers n : in_layer (layer :: layers) 0 n <-> In n layer.
Proof.
  unfold in_layer. simpl. split.
  - intros (l & [= <-] & H). exact H.
  - intros H. eauto.
Qed.

Lemma in_layer_cons_S layer layers k n :
  in_layer (layer :: layers) (S k) n <-> in_layer layers k n.
Proof. reflexivity. Qed.

(** The [while] loop: enough fuel is left as long as it covers the keys
not yet in a layer. *)
Lemma layers_loop_ok : forall fuel D in_degree queue,
    loop_inv K E D D [] in_degree queue ->
    incl D K ->
    List.length K <= fuel + List.length D ->
    exists layers,
  layers_loop fuel adj in_degree queue = Ok layers
  /\ good_layers K E D layers.
Proof.
    induction fuel as [|fuel IH]; intros D in_degree queue Hinv HD Hfuel;
  destruct queue as [|q qs].
    1, 3: (exists []; split; [reflexivity|];
     destruct Hinv as (_ & _ & _ & Hnd & _);
     repeat split; [exact Hnd|intros x []|constructor|];
     intros k n m (l & Hl & _); destruct k; discriminate).
    - exfalso. destruct Hinv as (_ & _ & _ & Hnd & Hq).
  assert (Hlen : List.length (D ++ q :: qs) <= List.length K).
  { apply NoDup_incl_length; [assumption|]. now apply incl_app. }
  rewrite length_app in Hlen. simpl in Hlen. lia.
    - destruct Hinv as (Hk & Hf & Hz & Hnd & Hq).
  cbn [layers_loop]. set (layer := sorted (q :: qs)).
  assert (Hperm : Permutation (q :: qs) layer)
  by apply StringSort.Permuted_sort.
  assert (Hperm' : Permutation (D ++ q :: qs) (D ++ layer))
  by now apply Permutation_app_head.
  assert (Hnd' : NoDup (D ++ layer))
  by exact (Permutation_NoDup Hperm' Hnd).
  assert (Hlayer : incl layer K).
  { intros x Hx. apply Hq. apply (Permutation_in x (Permutation_sym Hperm) Hx). }
  destruct (process_layer_ok (D ++ layer) layer D in_degree [])
  as (in_degree' & queue' & -> & Hinv'); [|assumption|assumption|].
  { repeat split; try assumption.
  - intros n Hn. rewrite app_nil_r in Hn. apply Hz.
    apply (Permutation_in n (Permutation_sym Hperm') Hn).
  - now rewrite app_nil_r.
  - intros x []. }
  cbn [bind].
  destruct (IH (D ++ layer) in_degree' queue' Hinv') as (layers & -> & Hgood).
  { now apply incl_app. }
  { rewrite length_app, <- (Permutation_length Hperm). simpl. lia. }
  cbn [bind]. eexists. split; [reflexivity|].
  destruct Hgood as (G1 & G2 & G3 & G4).
  repeat split.
  + simpl. now rewrite app_assoc.
  + simpl. now apply incl_app.
  + constructor; [|assumption]. apply StringSort.Sorted_sort.
  + intros k n m Hkn Hmn. destruct k as [|k].
  * left. apply in_layer_cons_0 in Hkn.
    apply (pending_zero_sources E D n m); [|assumption].
    assert (H0 : potential E D [] n = 0).
    { apply Hz. apply in_app_iff. right.
      apply (Permutation_in n (Permutation_sym Hperm) Hkn). }
    unfold potential in H0. lia.
  * apply in_layer_cons_S in Hkn.
    destruct (G4 k n m Hkn Hmn) as [Hm|(j & Hj & Hjm)].
    -- apply in_app_iff in Hm. destruct Hm as [Hm|Hm]; [now left|].
       right. exists 0. split; [lia|]. now apply in_layer_cons_0.
    -- right. exists (S j). split; [lia|]. exact Hjm.
Qed.
End Loop.

Lemma find_of_In {V : Type} (d : dict V) k v :
    NoDup (keys d) -> In (k, v) d -> dict_find d k = Some v.
Proof.
    induction d as [|[k0 v0] d IH]; simpl; [contradiction|].
    intros Hnd [[= -> ->]|Hin].
    - now rewrite String.eqb_refl.
    - destruct (String.eqb_spec k0 k) as [->|Hne].
      + exfalso. apply NoDup_cons_iff in Hnd. apply (proj1 Hnd).
  change k with (fst (k, v)). now apply in_map.
      + apply IH; [|assumption]. now apply NoDup_cons_iff in Hnd.
Qed.

Lemma NoDup_keys_filter {V : Type} (f : string * V -> bool) (d : dict V) :
  NoDup (keys d) -> NoDup (keys (filter f d)).
Proof.
  unfold keys. induction d as [|x d IH]; simpl; [trivial|].
  intros Hnd. apply NoDup_cons_iff in Hnd as [Hx Hnd].
  destruct (f x); [|now apply IH].
  simpl. constructor; [|now apply IH].
  intros Hin. apply Hx. apply in_map_iff in Hin.
  destruct Hin as (y & Hy & Hin). apply filter_In in Hin.
  rewrite <- Hy. apply in_map. tauto.
Qed.

Lemma edges_In steps m n :
  In (m, n) (edges steps)
  <-> exists s, In s steps /\ name s = n /\ In m (depends_on s).
Proof.
  unfold edges. rewrite in_flat_map. split.
  - intros (s & Hs & Hin). apply in_map_iff in Hin.
    destruct Hin as (dep & [= -> <-] & Hdep). eauto.
  - intros (s & Hs & <- & Hdep). exists s. split; [assumption|].
    apply in_map_iff. eauto.
Qed.

(** With every dependency resolved, [get_execution_order] returns, and
    its layers are good. *)
Lemma get_execution_order_ok wf :
    resolved wf ->
    exists layers,
      get_execution_order wf = Ok layers
      /\ good_layers (key_order (steps wf)) (edges (steps wf)) [] layers.
Proof.
    intros Hres. unfold get_execution_order.
    destruct (build_graph_ok wf Hres) as ([adj in_degree] & -> & Hg).
    destruct Hg as (Hk1 & Hk2 & Ha & Hi). simpl in Hk1, Hk2, Ha, Hi.
    cbn [bind].
    apply layers_loop_ok; [assumption| | |intros x []|].
    - intros m n Hmn. apply edges_In in Hmn. destruct Hmn as (s & Hs & <- & _).
      apply key_order_In. now apply in_map.
    - assert (Hnd : NoDup (keys in_degree)) by (rewrite Hk2; apply key_order_NoDup).
      repeat split.
      + exact Hk2.
      + intros n Hn. rewrite (Hi n Hn). unfold potential.
  change (count [] n) with 0. now rewrite Nat.add_0_r.
      + intros n Hn. simpl in Hn. unfold initial_queue in Hn.
  apply in_map_iff in Hn. destruct Hn as ([n' d] & <- & Hin).
  apply filter_In in Hin. destruct Hin as [Hin Hd]. simpl in Hd |- *.
  apply Z.eqb_eq in Hd. subst d.
  pose proof (find_of_In in_degree n' 0%Z Hnd Hin) as Hfind.
  assert (Hn' : In n' (key_order (steps wf))).
  { rewrite <- Hk2. change n' with (fst (n', 0%Z)). now apply in_map. }
  rewrite (Hi n' Hn') in Hfind. unfold potential.
  change (count [] n') with 0. injection Hfind as Hfind. lia.
      + simpl. now apply NoDup_keys_filter.
      + intros n Hn. unfold initial_queue in Hn. apply in_map_iff in Hn.
  destruct Hn as (x & <- & Hin). apply filter_In in Hin.
  rewrite <- Hk2. apply in_map. tauto.
    - simpl. rewrite Nat.add_0_r.
      rewrite <- (length_map name (steps wf)).
      apply NoDup_incl_length; [apply key_order_NoDup|].
      intros x Hx. now apply key_order_In.
Qed.

(** *** Layers as a list of lists *)

Lemma total_in_layers_concat layers :
  total_in_layers layers = List.length (List.concat layers).
Proof.
  unfold total_in_layers.
  assert (H : forall acc, fold_left (fun a layer => a + List.length layer) layers acc
                    = acc + List.length (List.concat layers)).
  { induction layers as [|l layers IH]; intros acc; simpl; [lia|].
    rewrite IH, length_app. lia. }
  apply (H 0).
Qed.

Lemma in_concat_layer layers n :
    In n (List.concat layers) <-> exists k, in_layer layers k n.
Proof.
    induction layers as [|l layers IH]; simpl.
    - split; [contradiction|]. intros (k & x & H & _). destruct k; discriminate.
    - rewrite in_app_iff, IH. split.
      + intros [H|(k & H)]; [exists 0; now apply in_layer_cons_0|].
  exists (S k). exact H.
      + intros ([|k] & H); [left; now apply in_layer_cons_0 in H|].
  right. exists k. exact H.
Qed.

Lemma NoDup_app_disjoint {A : Type} (l1 l2 : list A) x :
  NoDup (l1 ++ l2) -> In x l1 -> In x l2 -> False.
Proof.
  induction l1 as [|y l1 IH]; simpl; [contradiction|].
  intros Hnd [->|H1] H2; apply NoDup_cons_iff in Hnd as [Hy Hnd].
  - apply Hy. apply in_app_iff. now right.
  - now apply IH.
Qed.

Lemma in_layer_unique layers n : forall k k',
    NoDup (List.concat layers) ->
    in_layer layers k n -> in_layer layers k' n -> k = k'.
Proof.
    induction layers as [|l layers IH]; intros k k' Hnd Hk Hk'.
    - destruct Hk as (x & H & _). destruct k; discriminate.
    - simpl in Hnd.
      assert (Hdisj : forall j, In n l -> in_layer layers j n -> False).
      { intros j Hl Hj. apply (NoDup_app_disjoint _ _ n Hnd Hl).
  apply in_concat_layer. eauto. }
      destruct k as [|k], k' as [|k']; [reflexivity| | |].
      + exfalso. apply in_layer_cons_0 in Hk. exact (Hdisj k' Hk Hk').
      + exfalso. apply in_layer_cons_0 in Hk'. exact (Hdisj k Hk' Hk).
      + f_equal. apply IH; [|exact Hk|exact Hk'].
  now apply NoDup_app_remove_l in Hnd.
Qed.

(** *** [validate] *)

Lemma flat_map_nil {A B : Type} (f : A -> list B) l :
  flat_map f l = [] -> forall x, In x l -> f x = [].
Proof.
  induction l as [|y l IH]; simpl; [contradiction|].
  intros H x [->|Hx]; apply app_eq_nil in H; [tauto|]. now apply IH.
Qed.

(** Without prior errors every dependency is resolved. *)
Lemma prior_errors_nil_resolved wf : prior_errors wf = [] -> resolved wf.
Proof.
  unfold prior_errors. cbn [List.concat]. intros H.
  do 3 (apply app_eq_nil in H; destruct H as [_ H]).
  apply app_eq_nil in H. destruct H as [H _].
  intros s dep Hs Hdep.
  pose proof (flat_map_nil _ _ H s Hs) as Hd. unfold dep_errors in Hd.
  pose proof (flat_map_nil _ _ Hd dep Hdep) as Hx. cbv beta in Hx.
  destruct (Workflow.str_in dep (map name (steps wf))) eqn:E; [|discriminate].
  now apply str_in_In.
Qed.

(** What [validate] returns, by cases. *)
Lemma validate_cases wf :
    (steps wf = []
     /\ validate wf = Ok (name_errors wf ++ ["Workflow must have at least one step"]))
    \/ (steps wf <> [] /\ prior_errors wf <> []
  /\ validate wf = Ok (prior_errors wf))
    \/ (steps wf <> [] /\ prior_errors wf = []
  /\ exists layers,
       get_execution_order wf = Ok layers
       /\ good_layers (key_order (steps wf)) (edges (steps wf)) [] layers
       /\ validate wf
          = Ok (if total_in_layers layers =? List.length (steps wf)
                then [] else [circular_message])).
Proof.
    unfold validate. destruct (steps wf) as [|s0 rest] eqn:Es.
    - left. split; reflexivity.
    - right. destruct (prior_errors wf) as [|e errors] eqn:Ep.
      + right. repeat split; [discriminate|].
  destruct (get_execution_order_ok wf (prior_errors_nil_resolved wf Ep))
    as (layers & Hl & Hgood).
  exists layers. rewrite Es in Hgood. rewrite Hl. cbn [bind].
  split; [reflexivity|]. split; [assumption|].
  destruct (total_in_layers layers =? List.length (s0 :: rest)); reflexivity.
      + left. repeat split; discriminate.
Qed.

(** A step on a cycle is in no layer. *)
Lemma depends_earlier wf layers :
  good_layers (key_order (steps wf)) (edges (steps wf)) [] layers ->
  forall a b,
    Relation_Operators.clos_trans string (depends wf) a b ->
    forall k, in_layer layers k a -> exists j, j < k /\ in_layer layers j b.
Proof.
  intros (_ & _ & _ & G) a b Hab.
  induction Hab as [a b (s & Hs & Hn & Hdep)|a b c _ IH1 _ IH2]; intros k Hk.
  - destruct (G k a b Hk) as [[]|H]; [|exact H].
    apply edges_In. eauto.
  - destruct (IH1 k Hk) as (j & Hj & Hjb).
    destruct (IH2 j Hjb) as (i & Hi & Hic).
    exists i. split; [lia|assumption].
Qed.

Lemma cycle_not_layered wf layers a :
  good_layers (key_order (steps wf)) (edges (steps wf)) [] layers ->
  Relation_Operators.clos_trans string (depends wf) a a ->
  ~ In a (List.concat layers).
Proof.
  intros Hgood Hcyc Hin. apply in_concat_layer in Hin. destruct Hin as (k & Hk).
  destruct (depends_earlier wf layers Hgood a a Hcyc k Hk) as (j & Hj & Hja).
  assert (k = j); [|lia].
  apply (in_layer_unique layers a); [|assumption|assumption].
  now destruct Hgood as (H & _).
Qed.

Lemma cycle_start_named wf a b :
  Relation_Operators.clos_trans string (depends wf) a b -> In a (names wf).
Proof.
  induction 1 as [a b (s & Hs & <- & _)|]; [|assumption].
  unfold names. now apply in_map.
Qed.

(** The layers of a workflow whose names they cover. *)
Lemma layers_cover wf layers :
  good_layers (key_order (steps wf)) (edges (steps wf)) [] layers ->
  total_in_layers layers = List.length (steps wf) ->
  incl (names wf) (List.concat layers).
Proof.
  intros (Hnd & Hincl & _) Htotal. simpl in Hnd.
  apply NoDup_length_incl; [assumption| |].
  - rewrite <- total_in_layers_concat, Htotal. unfold names.
    now rewrite length_map.
  - intros x Hx. apply key_order_In. now apply Hincl.
Qed.

(** *** The claims *)

(** C4.  When [validate] returns the empty list, [get_execution_order]
    returns layers that partition the steps: the layer sizes add up to
    the number of steps, every step name is in a layer, in one layer
    only and once, every dependency of a step of layer [k] is in a layer
    [j < k], and every layer is sorted on the order of strings. *)
Theorem execution_order_partitions wf :
    validate wf = Ok [] ->
    exists layers, get_execution_order wf = Ok layers /\ partitions wf layers.
Proof.
    intros Hv.
    destruct (validate_cases wf) as [[_ H]|[(_ & Hp & H)|(_ & _ & layers & Hl & Hgood & H)]];
      rewrite H in Hv.
    - injection Hv as Hv. apply app_eq_nil in Hv. destruct Hv. discriminate.
    - injection Hv as Hv. contradiction.
    - exists layers. split; [assumption|].
      destruct (Nat.eqb_spec (total_in_layers layers) (List.length (steps wf)))
  as [Htotal|]; [|discriminate].
      pose proof (layers_cover wf layers Hgood Htotal) as Hcover.
      destruct Hgood as (Hnd & Hincl & Hsorted & Hdeps). simpl in Hnd.
      repeat split; try assumption.
      + intros s Hs. apply in_concat_layer. apply Hcover.
  unfold names. now apply in_map.
      + intros n k k'. now apply in_layer_unique.
      + intros s k dep Hs Hk Hdep.
  destruct (Hdeps k (name s) dep Hk) as [[]|H']; [|exact H'].
  apply edges_In. eauto.
Qed.

Lemma execution_order_partitions_witness :
  exists layers,
    get_execution_order join_workflow = Ok layers
    /\ partitions join_workflow layers.
Proof.
  apply (execution_order_partitions join_workflow). vm_compute. reflexivity.
Defined.

Lemma named_cycle_cyclic : cyclic named_cycle.
Proof.
  exists "a"%string. apply Relation_Operators.t_trans with (y := "b"%string);
    apply Relation_Operators.t_step.
  - exists (step_of "a" ["b"]). simpl. auto.
  - exists (step_of "b" ["a"]). simpl. auto.
Qed.

(** The claim as the specification states it fails: a workflow with a
    cycle, every dependency resolved, and an empty name gets the error
    about its name only. *)
Lemma unnamed_cycle_hides_cycle :
    resolved unnamed_cycle /\ cyclic unnamed_cycle
    /\ validate unnamed_cycle = Ok ["Workflow name cannot be empty"%string]
    /\ ~ In circular_message ["Workflow name cannot be empty"%string].
Proof.
    repeat split.
    - intros s dep Hs Hdep. simpl in Hs.
      destruct Hs as [<-|[<-|[]]]; simpl in Hdep; destruct Hdep as [<-|[]];
  simpl; auto.
    - destruct named_cycle_cyclic as [a H]. exists a. exact H.
    - intros [H|[]]. discriminate.
Qed.

(** C5, amended.  A workflow whose dependency graph has a cycle never
    validates: [validate] returns a non-empty list of errors.  When no
    other check fails, the list is the circular-dependency message; when
    one does, the layering is not run and the list holds the other
    errors only. *)
Theorem cycle_fails_validation wf :
    cyclic wf ->
    exists errors,
      validate wf = Ok errors /\ errors <> []
      /\ (prior_errors wf = [] -> errors = [circular_message])
      /\ (prior_errors wf <> [] -> errors = prior_errors wf).
Proof.
    intros [a Hcyc].
    assert (Ha : In a (names wf)) by exact (cycle_start_named wf a a Hcyc).
    destruct (validate_cases wf) as [[He _]|[(_ & Hp & H)|(_ & Hp & layers & Hl & Hgood & H)]].
    - unfold names in Ha. rewrite He in Ha. destruct Ha.
    - exists (prior_errors wf). repeat split; auto. intros; contradiction.
    - assert (Hne : total_in_layers layers <> List.length (steps wf)).
      { intros Htotal. apply (cycle_not_layered wf layers a Hgood Hcyc).
  now apply (layers_cover wf layers Hgood Htotal). }
      apply Nat.eqb_neq in Hne. rewrite Hne in H.
      exists [circular_message]. repeat split; auto; [discriminate|].
      intros; contradiction.
Qed.

Lemma cycle_fails_validation_witness :
  exists errors,
    validate named_cycle = Ok errors /\ errors <> []
    /\ (prior_errors named_cycle = [] -> errors = [circular_message])
    /\ (prior_errors named_cycle <> [] -> errors = prior_errors named_cycle).
Proof.
  apply (cycle_fails_validation named_cycle). exact named_cycle_cyclic.
Defined.

(** C10.  [get_execution_order] returns on every workflow whose
    dependencies are resolved, and raises [KeyError] on a workflow with a
    dependency on a step that does not exist.  [validate] never raises:
    it runs the layering only when nothing else is wrong, and returns
    the errors found before otherwise. *)
Theorem layering_needs_resolved_dependencies :
    (forall wf, resolved wf -> exists layers, get_execution_order wf = Ok layers)
    /\ (~ resolved dangling
  /\ get_execution_order dangling = KeyError "nonexistent"%string)
    /\ (forall wf, exists errors, validate wf = Ok errors)
    /\ (forall wf, steps wf <> [] -> prior_errors wf <> [] ->
             validate wf = Ok (prior_errors wf))
    /\ (forall wf, steps wf <> [] -> prior_errors wf = [] -> resolved wf).
Proof.
    split; [|split; [|split; [|split]]].
    - intros wf Hres. destruct (get_execution_order_ok wf Hres) as (layers & H & _).
      eauto.
    - split; [|reflexivity].
      intros H. specialize (H (step_of "a" ["nonexistent"]) "nonexistent"%string).
      simpl in H. destruct H as [H|[]]; auto. discriminate.
    - intros wf.
      destruct (validate_cases wf) as [[_ H]|[(_ & _ & H)|(_ & _ & l & _ & _ & H)]];
  rewrite H; eauto.
    - intros wf Hs Hp.
      destruct (validate_cases wf) as [[He _]|[(_ & _ & H)|(_ & Hp' & _)]];
  [contradiction|assumption|contradiction].
    - intros wf _. apply prior_errors_nil_resolved.
Qed.

Lemma layering_needs_resolved_dependencies_witness :
  exists layers, get_execution_order join_workflow = Ok layers.
Proof.
  apply (proj1 layering_needs_resolved_dependencies join_workflow).
  intros s dep Hs Hdep. simpl in Hs.
  destruct Hs as [<-|[<-|[<-|[]]]]; simpl in Hdep;
    repeat (destruct Hdep as [<-|Hdep]; [simpl; auto|]); destruct Hdep.
Defined.

End WorkflowFacts.

(* ===================================================================== *)
(** * Further properties of workflow validation and layering             *)
(* ===================================================================== *)

Module WorkflowMore.
Import PyStr Regex RegexSpec StrFacts RegexFacts.
Import Workflow WorkflowSpec WorkflowSpec2 WorkflowFacts.
Local Open Scope list_scope.

(** *** Step names *)

Lemma newline_not_name_char : name_char newline = false.
Proof. reflexivity. Qed.

Lemma step_name_match n :
  Regex.re_match _STEP_NAME_RE n <> None
  <-> exists w, w <> ""%string /\ all_chars name_char w = true
                /\ (n = w \/ n = (w ++ String newline "")%string).
Proof.
  split.
  - destruct (re_match _STEP_NAME_RE n) as [c|] eqn:E; [|intros H; now contradiction H].
    intros _. apply re_match_sound in E. destruct E as (s' & D).
    unfold _STEP_NAME_RE in D. cbn [seqs] in D.
    inversion D; subst.
    match goal with B : Den Bol _ _ _ _ |- _ => inversion B; subst end.
    match goal with D2 : Den (Seq (plus _) Eol) _ _ _ _ |- _ => inversion D2; subst end.
    match goal with E : Den Eol _ _ _ _ |- _ => inversion E; subst end.
    match goal with P : Den (plus _) _ _ _ _ |- _ =>
      apply den_plus_cls in P; destruct P as (_ & w & -> & Hne & Hw) end.
    exists w. split; [assumption|]. split; [exact Hw|].
    match goal with E : at_end ?s = true |- _ =>
      destruct s as [|x [|y s2]]; simpl in E; try discriminate end.
    + left. now rewrite append_nil_r.
    + right. match goal with E : Ascii.eqb _ _ = true |- _ =>
        apply Ascii.eqb_eq in E; now subst end.
  - intros (w & Hne & Hw & Hn).
    assert (H : forall s1, at_end s1 = true -> head_fails name_char s1 ->
                           re_match _STEP_NAME_RE (w ++ s1)%string = Some []).
    { intros s1 He Hh. unfold re_match, _STEP_NAME_RE. cbn [seqs].
      change (m (Seq Bol ?R) None ?s [] accept) with (m R None s [] accept).
      apply seq_plus_greedy; try assumption.
      cbn [m]. now rewrite He. }
    destruct Hn as [-> | ->].
    + rewrite <- (append_nil_r w). rewrite H; [discriminate|reflexivity|exact I].
    + rewrite H; [discriminate|reflexivity|reflexivity].
Qed.

(** X17.  The step names that [validate] accepts: the non-empty strings
    of word characters and hyphens, and these strings followed by one
    newline, which [$] lets pass. *)
Theorem step_name_accepted n :
  step_name_ok n = true
  <-> exists w, w <> ""%string /\ all_chars name_char w = true
                /\ (n = w \/ n = (w ++ String newline "")%string).
Proof.
  rewrite <- step_name_match. unfold step_name_ok. split.
  - intros H. apply andb_prop in H as [_ H].
    destruct (re_match _STEP_NAME_RE n); [discriminate|discriminate].
  - intros H.
    assert (Hn : n <> ""%string).
    { apply step_name_match in H as (w & Hne & _ & [-> | ->]);
        destruct w; try contradiction; discriminate. }
    destruct n; [contradiction|]. cbn [is_empty negb andb].
    destruct (re_match _STEP_NAME_RE _); [reflexivity|now contradiction H].
Qed.

(** *** The outcome of [get_execution_order] *)

Lemma find_app {A : Type} (f : A -> bool) l1 l2 :
  find f (l1 ++ l2) = match find f l1 with Some x => Some x | None => find f l2 end.
Proof.
  induction l1 as [|x l1 IH]; simpl; [reflexivity|].
  destruct (f x); [reflexivity|exact IH].
Qed.

Lemma find_none_all {A : Type} (f : A -> bool) l :
  find f l = None -> forall x, In x l -> f x = false.
Proof.
  induction l as [|y l IH]; simpl; [contradiction|].
  destruct (f y) eqn:E; [discriminate|].
  intros H x [<-|Hx]; [assumption|now apply IH].
Qed.

Section Unknown.
Variables (K N : list string).
Hypothesis same : forall x, In x N <-> In x K.

Lemma add_deps_outcome step_name : forall deps adj in_degree,
  keys adj = K -> keys in_degree = K -> In step_name K ->
  match find (fun dep => negb (str_in dep N)) deps with
  | Some dep => add_deps step_name deps (adj, in_degree) = KeyError dep
  | None => exists g', add_deps step_name deps (adj, in_degree) = Ok g'
                       /\ keys (fst g') = K /\ keys (snd g') = K
  end.
Proof.
  induction deps as [|dep deps IH]; intros adj in_degree Ha Hi Hs.
  - simpl. eauto.
  - cbn [find add_deps]. destruct (str_in dep N) eqn:Ed; cbn [negb].
    + apply str_in_In, same in Ed.
      destruct (proj1 (find_in_keys adj dep)) as [v Hv]; [now rewrite Ha|].
      rewrite (get_of_find _ _ _ Hv). cbn [bind].
      destruct (proj1 (find_in_keys in_degree step_name)) as [d Hd];
        [now rewrite Hi|].
      rewrite (get_of_find _ _ _ Hd). cbn [bind].
      apply IH; [| |assumption].
      * rewrite keys_set_present; [assumption|now rewrite Ha].
      * rewrite keys_set_present; [assumption|now rewrite Hi].
    + unfold dict_get. destruct (dict_find adj dep) as [v|] eqn:Ef; [|reflexivity].
      exfalso. assert (Hin : In dep (keys adj)) by (apply find_in_keys; eauto).
      rewrite Ha in Hin. apply same, str_in_In in Hin. congruence.
Qed.

Lemma add_steps_outcome : forall todo g,
  keys (fst g) = K -> keys (snd g) = K ->
  (forall s, In s todo -> In (name s) K) ->
  match find (fun dep => negb (str_in dep N)) (flat_map depends_on todo) with
  | Some dep => add_steps todo g = KeyError dep
  | None => exists g', add_steps todo g = Ok g'
  end.
Proof.
  induction todo as [|s todo IH]; intros [adj in_degree] Ha Hi Hn.
  - simpl. eauto.
  - cbn [flat_map add_steps]. rewrite find_app.
    pose proof (add_deps_outcome (name s) (depends_on s) adj in_degree Ha Hi
                  (Hn s (or_introl eq_refl))) as H.
    destruct (find _ (depends_on s)) as [dep|].
    + now rewrite H.
    + destruct H as (g' & -> & Ha' & Hi'). cbn [bind].
      apply IH; [assumption|assumption|]. intros x Hx. apply Hn. now right.
Qed.
End Unknown.

Lemma first_unknown_none wf : first_unknown wf = None -> resolved wf.
Proof.
  intros H s dep Hs Hdep.
  pose proof (find_none_all _ _ H dep) as Hf. cbv beta in Hf.
  apply str_in_In. apply negb_false_iff. apply Hf.
  apply in_flat_map. eauto.
Qed.

Lemma build_graph_outcome wf :
  match first_unknown wf with
  | Some dep => _build_graph (steps wf) = KeyError dep
  | None => exists g, _build_graph (steps wf) = Ok g
  end.
Proof.
  unfold first_unknown, _build_graph.
  destruct (dict_of_names_spec (@nil string) (steps wf)) as [Hk1 _].
  destruct (dict_of_names_spec 0%Z (steps wf)) as [Hk2 _].
  apply (add_steps_outcome (key_order (steps wf)) (names wf)).
  - intros x. symmetry. apply key_order_In.
  - exact Hk1.
  - exact Hk2.
  - intros s Hs. apply key_order_In. now apply in_map.
Qed.

(** X18.  [get_execution_order] raises [KeyError] with the first
    dependency that names no step, in the order of the steps and of their
    [depends_on]; when there is none, it returns the layers.  The [while]
    loop never runs longer than there are steps. *)
Theorem execution_order_outcome wf :
  match first_unknown wf with
  | Some dep => get_execution_order wf = KeyError dep
  | None => exists layers, get_execution_order wf = Ok layers
  end.
Proof.
  pose proof (build_graph_outcome wf) as H.
  destruct (first_unknown wf) as [dep|] eqn:E.
  - unfold get_execution_order. now rewrite H.
  - destruct (get_execution_order_ok wf (first_unknown_none wf E)) as (l & Hl & _).
    eauto.
Qed.

Lemma order_returns_resolved wf layers :
  get_execution_order wf = Ok layers -> resolved wf.
Proof.
  intros H. apply first_unknown_none.
  pose proof (build_graph_outcome wf) as Hb.
  destruct (first_unknown wf) as [dep|]; [|reflexivity].
  unfold get_execution_order in H. rewrite Hb in H. discriminate.
Qed.

(** *** The layers leave no slack *)

Lemma successors_In E m n : In n (successors E m) <-> In (m, n) E.
Proof.
  unfold successors. rewrite in_map_iff. split.
  - intros ([a b] & <- & H). apply filter_In in H. destruct H as [H Hm].
    apply String.eqb_eq in Hm. simpl in Hm |- *. now subst.
  - intros H. exists (m, n). split; [reflexivity|]. apply filter_In.
    split; [assumption|apply String.eqb_refl].
Qed.

Lemma relax_queue : forall nbs in_degree queue in_degree' queue',
  relax nbs in_degree queue = Ok (in_degree', queue') ->
  forall n, In n queue' -> In n queue \/ In n nbs.
Proof.
  induction nbs as [|nb nbs IH]; intros in_degree queue in_degree' queue' H n Hn.
  - injection H as _ <-. now left.
  - cbn [relax] in H.
    destruct (dict_get in_degree nb) as [d| |]; cbn [bind] in H; try discriminate.
    destruct (dict_get _ nb) as [d'| |]; cbn [bind] in H; try discriminate.
    destruct (IH _ _ _ _ H n Hn) as [Hq|Hq]; [|right; now right].
    destruct (d' =? 0)%Z; [|now left].
    apply in_app_iff in Hq. destruct Hq as [Hq|[<-|[]]]; [now left|right; now left].
Qed.

Section Tight.
Variables (K : list string) (E : list (string * string)).
Variable adj : dict (list string).
Hypothesis adj_ok : forall m, In m K -> dict_find adj m = Some (successors E m).
Hypothesis targets_ok : forall m n, In (m, n) E -> In n K.

Lemma process_layer_queue : forall layer in_degree queue in_degree' queue',
  incl layer K ->
  process_layer adj layer in_degree queue = Ok (in_degree', queue') ->
  forall n, In n queue' -> In n queue \/ exists m, In m layer /\ In (m, n) E.
Proof.
  induction layer as [|m layer IH];
    intros in_degree queue in_degree' queue' Hl H n Hn.
  - injection H as _ <-. now left.
  - cbn [process_layer] in H.
    rewrite (get_of_find _ _ _ (adj_ok m (Hl m (or_introl eq_refl)))) in H.
    cbn [bind] in H.
    destruct (relax (successors E m) in_degree queue) as [[id1 q1]| |] eqn:Er;
      cbn [bind] in H; try discriminate.
    destruct (IH _ _ _ _ (fun x Hx => Hl x (or_intror Hx)) H n Hn)
      as [Hq|(m' & Hm' & He)].
    + destruct (relax_queue _ _ _ _ _ Er n Hq) as [Hq'|Hs]; [now left|].
      right. exists m. split; [now left|now apply successors_In].
    + right. exists m'. split; [now right|assumption].
Qed.

Lemma layers_loop_tight : forall fuel in_degree queue layers,
  incl queue K ->
  layers_loop fuel adj in_degree queue = Ok layers ->
  Forall (fun layer => layer <> []) layers
  /\ (forall n, in_layer layers 0 n <-> In n queue)
  /\ (forall k n, in_layer layers (S k) n ->
        exists m, in_layer layers k m /\ In (m, n) E).
Proof.
  induction fuel as [|fuel IH]; intros in_degree queue layers Hq H;
    destruct queue as [|q qs]; try discriminate.
  1, 2: (injection H as <-; split; [constructor|]; split;
         [intros n; split; [intros (l & Hl & _); discriminate|intros []]
         |intros k n (l & Hl & _); discriminate]).
  cbn [layers_loop] in H. set (layer := sorted (q :: qs)) in *.
  assert (Hperm : Permutation (q :: qs) layer) by apply StringSort.Permuted_sort.
  assert (Hlayer : incl layer K).
  { intros x Hx. apply Hq. apply (Permutation_in x (Permutation_sym Hperm) Hx). }
  destruct (process_layer adj layer in_degree []) as [[id' q']| |] eqn:Ep;
    cbn [bind] in H; try discriminate.
  destruct (layers_loop fuel adj id' q') as [layers'| |] eqn:El;
    cbn [bind] in H; try discriminate.
  injection H as <-.
  assert (Hfrom : forall n, In n q' -> exists m, In m layer /\ In (m, n) E).
  { intros n Hn.
    destruct (process_layer_queue _ _ _ _ _ Hlayer Ep n Hn) as [[]|Hm]. exact Hm. }
  destruct (IH id' q' layers') as (F & Z & T); [|assumption|].
  { intros n Hn. destruct (Hfrom n Hn) as (m & _ & He). exact (targets_ok m n He). }
  split; [|split].
  - constructor; [|assumption]. intros Hnil.
    apply Permutation_length in Hperm. rewrite Hnil in Hperm. discriminate.
  - intros n. rewrite in_layer_cons_0. split.
    + intros Hn. apply (Permutation_in n (Permutation_sym Hperm) Hn).
    + intros Hn. apply (Permutation_in n Hperm Hn).
  - intros [|k] n Hn; apply in_layer_cons_S in Hn.
    + apply Z in Hn. destruct (Hfrom n Hn) as (m & Hm & He).
      exists m. split; [now apply in_layer_cons_0|assumption].
    + destruct (T k n Hn) as (m & Hm & He).
      exists m. split; [now apply in_layer_cons_S|assumption].
Qed.
End Tight.

Lemma pending_no_edge E D n : (forall m, ~ In (m, n) E) -> pending E D n = 0.
Proof.
  unfold pending. induction E as [|[a b] E IH]; intros H; [reflexivity|].
  cbn [filter fst snd]. destruct (String.eqb_spec b n) as [->|Hne].
  - exfalso. apply (H a). now left.
  - cbn [andb]. apply IH. intros m Hm. apply (H m). now right.
Qed.

Lemma In_of_find {V : Type} (d : dict V) k v : dict_find d k = Some v -> In (k, v) d.
Proof.
  induction d as [|[k0 v0] d IH]; simpl; [discriminate|].
  destruct (String.eqb_spec k0 k) as [->|Hne].
  - intros [= ->]. now left.
  - intros H. right. now apply IH.
Qed.

Lemma independent_no_edge wf n :
  independent wf n <-> forall m, ~ In (m, n) (edges (steps wf)).
Proof.
  unfold independent. split.
  - intros H m Hm. apply edges_In in Hm. destruct Hm as (s & Hs & Hn & Hd).
    rewrite (H s Hs Hn) in Hd. destruct Hd.
  - intros H s Hs Hn. destruct (depends_on s) as [|dep deps] eqn:Ed; [reflexivity|].
    exfalso. apply (H dep). apply edges_In. exists s. rewrite Ed. simpl. auto.
Qed.

Lemma initial_queue_In K E in_degree n :
  keys in_degree = K -> NoDup K ->
  (forall x, In x K -> dict_find in_degree x = Some (Z.of_nat (pending E [] x))) ->
  In n (initial_queue in_degree) <-> In n K /\ pending E [] n = 0.
Proof.
  intros Hk Hnd Hi. unfold initial_queue. rewrite in_map_iff. split.
  - intros ([n' d] & <- & Hin). apply filter_In in Hin. destruct Hin as [Hin Hd].
    simpl in Hd |- *. apply Z.eqb_eq in Hd. subst d.
    assert (Hn' : In n' K).
    { rewrite <- Hk. change n' with (fst (n', 0%Z)). now apply in_map. }
    split; [assumption|].
    assert (Hf : dict_find in_degree n' = Some 0%Z)
      by (apply find_of_In; [now rewrite Hk|assumption]).
    rewrite (Hi n' Hn') in Hf. injection Hf as Hf. lia.
  - intros [Hn Hp]. exists (n, 0%Z). split; [reflexivity|].
    apply filter_In. split; [|reflexivity].
    apply In_of_find. rewrite (Hi n Hn), Hp. reflexivity.
Qed.

(** X19.  The layers that [get_execution_order] returns leave no slack:
    no layer is empty, the first layer holds the names of the steps
    without dependencies, and every step of a later layer depends on a
    step of the layer just before. *)
Theorem execution_layers_tight wf layers :
  get_execution_order wf = Ok layers -> tight wf layers.
Proof.
  intros H. pose proof (order_returns_resolved wf layers H) as Hres.
  destruct (build_graph_ok wf Hres) as ([adj in_degree] & Hb & Hg).
  destruct Hg as (Hk1 & Hk2 & Ha & Hi). simpl in Hk1, Hk2, Ha, Hi.
  unfold get_execution_order in H. rewrite Hb in H. cbn [bind] in H.
  assert (Ht : forall m n, In (m, n) (edges (steps wf)) -> In n (key_order (steps wf))).
  { intros m n Hmn. apply edges_In in Hmn. destruct Hmn as (s & Hs & <- & _).
    apply key_order_In. now apply in_map. }
  assert (Hq : forall n, In n (initial_queue in_degree)
                         <-> In n (key_order (steps wf))
                             /\ pending (edges (steps wf)) [] n = 0).
  { intros n. apply initial_queue_In; [assumption|apply key_order_NoDup|assumption]. }
  assert (Hincl : incl (initial_queue in_degree) (key_order (steps wf))).
  { intros n Hn. now apply Hq in Hn. }
  destruct (layers_loop_tight (key_order (steps wf)) (edges (steps wf)) adj Ha Ht
              _ _ _ layers Hincl H) as (F & Z & T).
  split; [assumption|]. split.
  - intros n. rewrite Z, Hq.
    rewrite key_order_In, independent_no_edge. fold (names wf). split.
    + intros [Hn Hp]. split; [assumption|].
      intros m Hm. exact (pending_zero_sources _ _ _ _ Hp Hm).
    + intros [Hn Hp]. split; [assumption|now apply pending_no_edge].
  - intros k n Hn. destruct (T k n Hn) as (m & Hm & He).
    exists m. split; [assumption|]. apply edges_In in He.
    destruct He as (s & Hs & Hn' & Hd). exists s. auto.
Qed.

Lemma execution_layers_tight_witness :
  tight join_workflow [["a"; "b"]; ["c"]]%string.
Proof. apply (execution_layers_tight join_workflow). reflexivity. Defined.

(** *** Every key of in-degree zero is queued *)

Lemma relax_step K E B D nb nbs in_degree queue :
  loop_inv K E B D (nb :: nbs) in_degree queue ->
  In nb K ->
  let queue1 := if potential E D nbs nb =? 0 then queue ++ [nb] else queue in
  exists in_degree1,
    relax (nb :: nbs) in_degree queue = relax nbs in_degree1 queue1
    /\ loop_inv K E B D nbs in_degree1 queue1.
Proof.
  intros (Hk & Hf & Hz & Hnd & Hq) Hnb. cbv zeta.
  cbn [relax].
  rewrite (get_of_find _ _ _ (Hf nb Hnb)). cbn [bind].
  unfold dict_get at 1. rewrite find_set, String.eqb_refl. cbn [bind].
  rewrite potential_cons_eq.
  set (p := potential E D nbs nb).
  replace (Z.of_nat (S p) - 1)%Z with (Z.of_nat p) by lia.
  replace (Z.of_nat p =? 0)%Z with (p =? 0) by (destruct p; reflexivity).
  exists (dict_set in_degree nb (Z.of_nat p)). split; [reflexivity|].
  assert (Hfresh : ~ In nb (B ++ queue)).
  { intros Hin. apply Hz in Hin. rewrite potential_cons_eq in Hin. discriminate. }
  assert (Hz' : forall n, In n (B ++ queue) -> potential E D nbs n = 0).
  { intros n Hn. destruct (string_dec nb n) as [<-|Hne]; [contradiction|].
    rewrite <- (potential_cons_neq E D nbs nb n Hne). now apply Hz. }
  split; [|split; [|split; [|split]]].
  - rewrite keys_set_present; [assumption|now rewrite Hk].
  - intros n Hn. rewrite find_set.
    destruct (String.eqb_spec nb n) as [<-|Hne]; [reflexivity|].
    rewrite <- (potential_cons_neq E D nbs nb n Hne). now apply Hf.
  - destruct (Nat.eqb_spec p 0) as [E0|E0]; [|exact Hz'].
    intros n Hn. rewrite app_assoc in Hn. apply in_app_iff in Hn.
    destruct Hn as [Hn|[<-|[]]]; [now apply Hz'|exact E0].
  - destruct (Nat.eqb_spec p 0) as [E0|E0]; [|exact Hnd].
    rewrite app_assoc. now apply NoDup_snoc.
  - destruct (Nat.eqb_spec p 0) as [E0|E0]; [|exact Hq].
    intros n Hn. apply in_app_iff in Hn. destruct Hn as [Hn|[<-|[]]]; auto.
Qed.

Lemma relax_zero K E B D : forall nbs in_degree queue in_degree' queue',
  loop_inv K E B D nbs in_degree queue ->
  incl nbs K ->
  zero_queued K E B D nbs queue ->
  relax nbs in_degree queue = Ok (in_degree', queue') ->
  zero_queued K E B D [] queue'.
Proof.
  induction nbs as [|nb nbs IH]; intros in_degree queue in_degree' queue' Hinv Hincl Hzq H.
  - injection H as _ <-. exact Hzq.
  - destruct (relax_step K E B D nb nbs in_degree queue Hinv (Hincl nb (or_introl eq_refl)))
      as (in_degree1 & Hr & Hinv1).
    rewrite Hr in H. revert H. apply IH; [exact Hinv1|intros x Hx; apply Hincl; now right|].
    intros n Hn Hp. destruct (string_dec nb n) as [<-|Hne].
    + rewrite Hp. cbn [Nat.eqb]. rewrite app_assoc. apply in_app_iff. right. now left.
    + assert (Hin : In n (B ++ queue)).
      { apply Hzq; [assumption|]. now rewrite potential_cons_neq. }
      destruct (potential E D nbs nb =? 0); [|assumption].
      rewrite app_assoc. apply in_app_iff. now left.
Qed.

Section Complete.
Variables (K : list string) (E : list (string * string)).
Variable adj : dict (list string).
Hypothesis adj_ok : forall m, In m K -> dict_find adj m = Some (successors E m).
Hypothesis targets_ok : forall m n, In (m, n) E -> In n K.

Lemma process_layer_zero B : forall todo D in_degree queue in_degree' queue',
  loop_inv K E B D [] in_degree queue ->
  NoDup (D ++ todo) ->
  incl todo K ->
  zero_queued K E B D [] queue ->
  process_layer adj todo in_degree queue = Ok (in_degree', queue') ->
  zero_queued K E B (D ++ todo) [] queue'.
Proof.
  induction todo as [|m todo IH];
    intros D in_degree queue in_degree' queue' Hinv Hnd Hincl Hzq H.
  - injection H as _ <-. now rewrite app_nil_r.
  - assert (Hm : In m K) by (apply Hincl; now left).
    assert (HmD : ~ In m D).
    { apply NoDup_remove_2 in Hnd. intros Hin. apply Hnd.
      apply in_app_iff. now left. }
    cbn [process_layer] in H.
    rewrite (get_of_find _ _ _ (adj_ok m Hm)) in H. cbn [bind] in H.
    assert (Hpot : forall n,
               potential E D [] n = potential E (D ++ [m]) (successors E m) n).
    { intros n. unfold potential. rewrite (pending_step E D m n HmD).
      change (count [] n) with 0. lia. }
    assert (Hinv0 : loop_inv K E B (D ++ [m]) (successors E m) in_degree queue).
    { destruct Hinv as (Hk & Hf & Hz & Hnd' & Hq).
      repeat split; try assumption.
      - intros n Hn. rewrite <- Hpot. now apply Hf.
      - intros n Hn. rewrite <- Hpot. now apply Hz. }
    pose proof (successors_incl K E targets_ok m) as Hsucc.
    destruct (relax_ok K E B (D ++ [m]) (successors E m) in_degree queue Hinv0 Hsucc)
      as (in_degree1 & queue1 & Hr & Hinv1).
    assert (Hzq1 : zero_queued K E B (D ++ [m]) [] queue1).
    { apply (relax_zero K E B (D ++ [m]) _ in_degree queue in_degree1 queue1
               Hinv0 Hsucc); [|exact Hr].
      intros n Hn Hp. apply Hzq; [assumption|]. now rewrite Hpot. }
    rewrite Hr in H. cbn [bind] in H.
    replace (D ++ m :: todo)%list with ((D ++ [m]) ++ todo)%list
      by (rewrite <- app_assoc; reflexivity).
    apply (IH (D ++ [m]) in_degree1 queue1 in_degree' queue'); try assumption.
    + rewrite <- app_assoc. exact Hnd.
    + intros x Hx. apply Hincl. now right.
Qed.

Lemma layers_loop_zero : forall fuel D in_degree queue layers,
  loop_inv K E D D [] in_degree queue ->
  incl D K ->
  zero_queued K E D D [] queue ->
  layers_loop fuel adj in_degree queue = Ok layers ->
  forall n, In n K -> pending E (D ++ List.concat layers) n = 0 ->
            In n (D ++ List.concat layers).
Proof.
  induction fuel as [|fuel IH]; intros D in_degree queue layers Hinv HD Hzq H;
    destruct queue as [|q qs]; try discriminate.
  1, 2: (injection H as <-; intros n Hn Hp; cbn [List.concat] in *;
         rewrite app_nil_r in Hp |- *; pose proof (Hzq n Hn) as Hin;
         rewrite app_nil_r in Hin; apply Hin; unfold potential;
         change (count [] n) with 0; lia).
  destruct Hinv as (Hk & Hf & Hz & Hnd & Hq).
  cbn [layers_loop] in H. set (layer := sorted (q :: qs)) in *.
  assert (Hperm : Permutation (q :: qs) layer) by apply StringSort.Permuted_sort.
  assert (Hperm' : Permutation (D ++ q :: qs) (D ++ layer))
    by now apply Permutation_app_head.
  assert (Hnd' : NoDup (D ++ layer)) by exact (Permutation_NoDup Hperm' Hnd).
  assert (Hlayer : incl layer K).
  { intros x Hx. apply Hq. apply (Permutation_in x (Permutation_sym Hperm) Hx). }
  assert (Hinv0 : loop_inv K E (D ++ layer) D [] in_degree []).
  { repeat split; try assumption.
    - intros n Hn. rewrite app_nil_r in Hn. apply Hz.
      apply (Permutation_in n (Permutation_sym Hperm') Hn).
    - now rewrite app_nil_r.
    - intros x []. }
  destruct (process_layer_ok K E adj adj_ok targets_ok (D ++ layer) layer D
              in_degree [] Hinv0 Hnd' Hlayer) as (in_degree' & queue' & Hp & Hinv').
  assert (Hzq' : zero_queued K E (D ++ layer) (D ++ layer) [] queue').
  { apply (process_layer_zero (D ++ layer) layer D in_degree [] in_degree' queue');
      try assumption.
    intros n Hn Hpn. rewrite app_nil_r.
    apply (Permutation_in n Hperm'). now apply Hzq. }
  rewrite Hp in H. cbn [bind] in H.
  destruct (layers_loop fuel adj in_degree' queue') as [layers'| |] eqn:El;
    cbn [bind] in H; try discriminate.
  injection H as <-. cbn [List.concat]. rewrite app_assoc.
  apply (IH (D ++ layer) in_degree' queue' layers'); try assumption.
  now apply incl_app.
Qed.
End Complete.

Lemma pending_pos E D n :
  pending E D n <> 0 -> exists m, In (m, n) E /\ ~ In m D.
Proof.
  unfold pending. induction E as [|[a b] E IH]; [intros H; now contradiction H|].
  cbn [filter fst snd].
  destruct (String.eqb_spec b n) as [->|Hne]; cbn [andb].
  - destruct (str_in a D) eqn:Ea; cbn [negb].
    + intros H. destruct (IH H) as (m & Hm & HmD). exists m. split; [now right|assumption].
    + intros _. exists a. split; [now left|].
      intros Hin. apply str_in_In in Hin. congruence.
  - intros H. destruct (IH H) as (m & Hm & HmD). exists m. split; [now right|assumption].
Qed.

(** A step that is in no layer depends on a step that is in no layer. *)
Lemma unlayered_blocked wf layers :
  get_execution_order wf = Ok layers ->
  forall n, In n (names wf) -> ~ In n (List.concat layers) ->
  exists m, depends wf n m /\ In m (names wf) /\ ~ In m (List.concat layers).
Proof.
  intros H n Hn Hout. pose proof (order_returns_resolved wf layers H) as Hres.
  destruct (build_graph_ok wf Hres) as ([adj in_degree] & Hb & Hg).
  destruct Hg as (Hk1 & Hk2 & Ha & Hi). simpl in Hk1, Hk2, Ha, Hi.
  unfold get_execution_order in H. rewrite Hb in H. cbn [bind] in H.
  set (K := key_order (steps wf)) in *. set (E := edges (steps wf)) in *.
  assert (Ht : forall m x, In (m, x) E -> In x K).
  { intros m x Hmx. apply edges_In in Hmx. destruct Hmx as (s & Hs & <- & _).
    apply key_order_In. now apply in_map. }
  assert (Hq : forall x, In x (initial_queue in_degree)
                         <-> In x K /\ pending E [] x = 0).
  { intros x. apply initial_queue_In; [assumption|apply key_order_NoDup|assumption]. }
  assert (Hinv : loop_inv K E [] [] [] in_degree (initial_queue in_degree)).
  { split; [assumption|]. split; [|split; [|split]].
    - intros x Hx. rewrite (Hi x Hx). unfold potential.
      change (count [] x) with 0. now rewrite Nat.add_0_r.
    - intros x Hx. apply Hq in Hx. unfold potential.
      change (count [] x) with 0. lia.
    - apply NoDup_keys_filter. rewrite Hk2. apply key_order_NoDup.
    - intros x Hx. now apply Hq in Hx. }
  assert (Hzq : zero_queued K E [] [] [] (initial_queue in_degree)).
  { intros x Hx Hp. apply Hq. split; [assumption|]. unfold potential in Hp. lia. }
  pose proof (layers_loop_zero K E adj Ha Ht _ [] in_degree _ layers Hinv
                (fun x (F : In x []) => match F with end) Hzq H n) as Hz.
  cbn [app] in Hz.
  destruct (pending_pos E (List.concat layers) n) as (m & Hm & HmL).
  { intros Hp. apply Hout. apply Hz; [|assumption]. now apply key_order_In. }
  apply edges_In in Hm. destruct Hm as (s & Hs & Hsn & Hd).
  exists m. split; [exists s; auto|]. split; [exact (Hres s m Hs Hd)|assumption].
Qed.

(** *** Cycles in a finite set *)

Lemma chain_tail R l1 : forall l2, chain R (l1 ++ l2) -> chain R l2.
Proof.
  induction l1 as [|a l1 IH]; intros l2 H; [exact H|].
  apply IH. destruct l1 as [|b l1]; simpl in H |- *.
  - destruct l2; [exact I|apply H].
  - apply H.
Qed.

Lemma chain_path R : forall l2 x y l3,
  chain R (x :: l2 ++ y :: l3) -> Relation_Operators.clos_trans string R x y.
Proof.
  induction l2 as [|z l2 IH]; intros x y l3 H.
  - apply Relation_Operators.t_step. apply H.
  - apply Relation_Operators.t_trans with (y := z).
    + apply Relation_Operators.t_step. apply H.
    + apply (IH z y l3). apply H.
Qed.

Lemma chain_grows R (U : list string) :
  (forall n, In n U -> exists m, R n m /\ In m U) ->
  forall k a, In a U ->
  exists l, List.length (a :: l) = S k /\ chain R (a :: l) /\ incl (a :: l) U.
Proof.
  intros Hnext. induction k as [|k IH]; intros a Ha.
  - exists []. split; [reflexivity|]. split; [exact I|].
    intros x [<-|[]]. exact Ha.
  - destruct (Hnext a Ha) as (m & Hm & HmU).
    destruct (IH m HmU) as (l & Hlen & Hch & Hincl).
    exists (m :: l). split; [simpl in *; lia|]. split; [split; assumption|].
    intros x [<-|Hx]; [exact Ha|now apply Hincl].
Qed.

Lemma repeated_element (l : list string) :
  ~ NoDup l -> exists x l1 l2 l3, l = l1 ++ x :: l2 ++ x :: l3.
Proof.
  induction l as [|a l IH]; intros H.
  - exfalso. apply H. constructor.
  - destruct (in_dec string_dec a l) as [Hin|Hout].
    + apply in_split in Hin. destruct Hin as (l2 & l3 & ->).
      exists a, [], l2, l3. reflexivity.
    + destruct IH as (x & l1 & l2 & l3 & ->).
      { intros Hnd. apply H. now constructor. }
      exists x, (a :: l1), l2, l3. reflexivity.
Qed.

Lemma descent_cycle R (U : list string) a :
  In a U ->
  (forall n, In n U -> exists m, R n m /\ In m U) ->
  exists x, Relation_Operators.clos_trans string R x x.
Proof.
  intros Ha Hnext.
  destruct (chain_grows R U Hnext (List.length U) a Ha) as (l & Hlen & Hch & Hincl).
  destruct (repeated_element (a :: l)) as (x & l1 & l2 & l3 & El).
  { intros Hnd. pose proof (NoDup_incl_length Hnd Hincl). lia. }
  exists x. apply (chain_path R l2 x x l3).
  apply (chain_tail R l1). now rewrite <- El.
Qed.

(** *** [validate] *)

Lemma nodup_length_le (l : list string) :
  List.length (nodup string_dec l) <= List.length l.
Proof.
  induction l as [|a l IH]; simpl; [lia|].
  destruct (in_dec string_dec a l); simpl; lia.
Qed.

Lemma distinct_count_NoDup (l : list string) :
  distinct_count l = List.length l <-> NoDup l.
Proof.
  unfold distinct_count. split.
  - induction l as [|a l IH]; simpl; [constructor|].
    pose proof (nodup_length_le l) as Hle.
    destruct (in_dec string_dec a l) as [Hin|Hout]; simpl; intros H; [lia|].
    constructor; [assumption|]. apply IH. lia.
  - intros H. now rewrite nodup_fixed_point.
Qed.

Lemma unlayered_exists (K L : list string) :
  NoDup K -> List.length L < List.length K ->
  exists n, In n K /\ ~ In n L.
Proof.
  intros Hnd Hlen.
  destruct (Forall_Exists_dec (fun x => In x L) (fun x => in_dec string_dec x L) K)
    as [Hall|Hex].
  - exfalso. rewrite Forall_forall in Hall.
    pose proof (NoDup_incl_length Hnd Hall). lia.
  - apply Exists_exists in Hex. exact Hex.
Qed.

Lemma prior_errors_parts wf :
  prior_errors wf = [] <->
  name_errors wf = []
  /\ (forall s, In s (steps wf) -> step_errors s = [])
  /\ NoDup (names wf)
  /\ resolved wf.
Proof.
  unfold prior_errors. cbn [List.concat]. rewrite app_nil_r. split.
  - intros H.
    apply app_eq_nil in H. destruct H as [H1 H].
    apply app_eq_nil in H. destruct H as [H2 H].
    apply app_eq_nil in H. destruct H as [H3 H4].
    split; [assumption|]. split; [exact (flat_map_nil _ _ H2)|]. split.
    + apply distinct_count_NoDup. unfold names. rewrite length_map.
      destruct (Nat.eqb_spec (distinct_count (map name (steps wf)))
                             (List.length (steps wf))); [assumption|discriminate].
    + intros s dep Hs Hdep.
      pose proof (flat_map_nil _ _ H4 s Hs) as Hd. unfold dep_errors in Hd.
      pose proof (flat_map_nil _ _ Hd dep Hdep) as Hx. cbv beta in Hx.
      destruct (Workflow.str_in dep (map name (steps wf))) eqn:Ed; [|discriminate].
      now apply str_in_In.
  - intros (H1 & H2 & H3 & H4).
    assert (Hflat : forall (A B : Type) (f : A -> list B) l,
               (forall x, In x l -> f x = []) -> flat_map f l = []).
    { intros A B f l. induction l as [|x l IH]; intros Hf; [reflexivity|].
      simpl. rewrite (Hf x (or_introl eq_refl)). apply IH.
      intros y Hy. apply Hf. now right. }
    rewrite H1. cbn [app]. rewrite (Hflat _ _ _ _ H2). cbn [app].
    apply distinct_count_NoDup in H3. unfold names in H3. rewrite length_map in H3.
    rewrite H3, Nat.eqb_refl. cbn [app].
    apply Hflat. intros s Hs. unfold dep_errors. apply Hflat.
    intros dep Hdep. cbv beta.
    now rewrite (proj2 (str_in_In dep (map name (steps wf))) (H4 s dep Hs Hdep)).
Qed.

(** With nothing else wrong, layers that miss a step show a cycle. *)
Lemma unlayered_cycle wf layers :
  prior_errors wf = [] ->
  get_execution_order wf = Ok layers ->
  good_layers (key_order (steps wf)) (edges (steps wf)) [] layers ->
  total_in_layers layers <> List.length (steps wf) ->
  cyclic wf.
Proof.
  intros Hp Hl (Hnd & Hincl & _) Hne. cbn [app] in Hnd.
  apply prior_errors_parts in Hp. destruct Hp as (_ & _ & Hnames & Hres).
  rewrite total_in_layers_concat in Hne.
  assert (HL : incl (List.concat layers) (names wf)).
  { intros x Hx. apply key_order_In. now apply Hincl. }
  assert (Hlen : List.length (List.concat layers) < List.length (names wf)).
  { pose proof (NoDup_incl_length Hnd HL) as Hle.
    unfold names in *. rewrite length_map in *. lia. }
  destruct (unlayered_exists (names wf) (List.concat layers) Hnames Hlen)
    as (a & Ha & Hout).
  set (U := filter (fun x => negb (str_in x (List.concat layers))) (names wf)).
  assert (HU : forall x, In x U <-> In x (names wf) /\ ~ In x (List.concat layers)).
  { intros x. unfold U. rewrite filter_In, negb_true_iff. split.
    - intros [Hx Hs]. split; [assumption|]. intros Hin.
      apply str_in_In in Hin. congruence.
    - intros [Hx Hs]. split; [assumption|].
      destruct (str_in x (List.concat layers)) eqn:Ex; [|reflexivity].
      apply str_in_In in Ex. contradiction. }
  apply (descent_cycle (depends wf) U a).
  - apply HU. now split.
  - intros n Hn. apply HU in Hn. destruct Hn as [Hn Hnout].
    destruct (unlayered_blocked wf layers Hl n Hn Hnout) as (m & Hd & Hm & Hmout).
    exists m. split; [assumption|]. apply HU. now split.
Qed.

Lemma circular_not_prior wf : ~ In circular_message (prior_errors wf).
Proof.
  unfold prior_errors, circular_message. cbn [List.concat].
  rewrite !in_app_iff, !in_flat_map.
  intros [H|[(s & _ & H)|[H|[(s & _ & H)|[]]]]].
  - unfold name_errors in H. destruct (blank (wf_name wf)); simpl in H;
      [destruct H as [H|[]]; discriminate|contradiction].
  - unfold step_errors in H. cbn [List.concat] in H. rewrite !in_app_iff in H.
    destruct H as [H|[H|[H|[]]]].
    + destruct (step_name_ok (name s)); simpl in H;
        [contradiction|destruct H as [H|[]]; discriminate].
    + destruct (blank (prompt s)); simpl in H;
        [destruct H as [H|[]]; discriminate|contradiction].
    + destruct (timeout_seconds s <? 1)%Z; simpl in H;
        [destruct H as [H|[]]; discriminate|contradiction].
  - destruct (_ =? _); simpl in H; [contradiction|destruct H as [H|[]]; discriminate].
  - unfold dep_errors in H. apply in_flat_map in H. destruct H as (dep & _ & H).
    destruct (Workflow.str_in dep _); simpl in H;
      [contradiction|destruct H as [H|[]]; discriminate].
Qed.

(** X20.  [validate] reports a circular dependency only for a workflow
    whose dependency graph has a cycle. *)
Theorem circular_report_sound wf errors :
  validate wf = Ok errors -> In circular_message errors -> cyclic wf.
Proof.
  intros Hv Hin.
  destruct (validate_cases wf) as [[_ H]|[(_ & _ & H)|(_ & Hp & layers & Hl & Hgood & H)]];
    rewrite H in Hv; injection Hv as <-.
  - exfalso. apply in_app_iff in Hin. destruct Hin as [Hin|[Hin|[]]].
    + unfold name_errors in Hin. destruct (blank (wf_name wf));
        [destruct Hin as [Hin|[]]|destruct Hin]. discriminate.
    + discriminate.
  - exfalso. exact (circular_not_prior wf Hin).
  - destruct (Nat.eqb_spec (total_in_layers layers) (List.length (steps wf)))
      as [|Hne]; [destruct Hin|].
    exact (unlayered_cycle wf layers Hp Hl Hgood Hne).
Qed.

Lemma circular_report_sound_witness : cyclic named_cycle.
Proof.
  apply (circular_report_sound named_cycle [circular_message]).
  - reflexivity.
  - now left.
Defined.

Lemma step_errors_nil s :
  step_errors s = [] <->
  step_name_ok (name s) = true /\ blank (prompt s) = false
  /\ (1 <= timeout_seconds s)%Z.
Proof.
  unfold step_errors. cbn [List.concat].
  destruct (step_name_ok (name s)), (blank (prompt s)),
           (Z.ltb_spec (timeout_seconds s) 1); cbn [app];
    (split; [intros Hx; try discriminate; repeat split; try reflexivity; lia
            |intros (H1 & H2 & H3); try discriminate; try lia; reflexivity]).
Qed.

Lemma well_formed_prior wf :
  steps wf <> [] -> (prior_errors wf = [] <-> well_formed wf).
Proof.
  intros Hs. rewrite prior_errors_parts. unfold well_formed, name_errors.
  split.
  - intros (H1 & H2 & H3 & H4). split; [|split; [assumption|split; [|split]]];
      try assumption.
    + destruct (blank (wf_name wf)); [discriminate|reflexivity].
    + intros s Hin. apply step_errors_nil. now apply H2.
  - intros (H1 & _ & H2 & H3 & H4). rewrite H1.
    split; [reflexivity|]. split; [|split; assumption].
    intros s Hin. apply step_errors_nil. now apply H2.
Qed.

(** X21.  [validate] returns no error exactly for the workflows that
    have a name, at least one step, steps with a valid name, a prompt
    and a timeout of at least one second, distinct step names,
    dependencies on steps of the workflow only, and no cycle. *)
Theorem validate_accepts_exactly wf :
  validate wf = Ok [] <-> well_formed wf /\ ~ cyclic wf.
Proof.
  destruct (validate_cases wf) as [[He H]|[(Hs & Hp & H)|(Hs & Hp & layers & Hl & Hgood & H)]];
    rewrite H.
  - split.
    + intros [= Hnil]. apply app_eq_nil in Hnil. destruct Hnil. discriminate.
    + intros [(_ & Hne & _) _]. contradiction.
  - split.
    + intros [= Hnil]. contradiction.
    + intros [Hwf _]. apply (well_formed_prior wf Hs) in Hwf. contradiction.
  - destruct (Nat.eqb_spec (total_in_layers layers) (List.length (steps wf)))
      as [Htotal|Hne].
    + split; [intros _|reflexivity].
      split; [now apply well_formed_prior|].
      intros [a Hcyc]. apply (cycle_not_layered wf layers a Hgood Hcyc).
      apply (layers_cover wf layers Hgood Htotal).
      exact (cycle_start_named wf a a Hcyc).
    + split; [discriminate|].
      intros [_ Hacyc]. exfalso. apply Hacyc.
      exact (unlayered_cycle wf layers Hp Hl Hgood Hne).
Qed.

(** *** The layer of a step is its depth *)

Lemma layer_reaches wf layers :
  (forall k n, in_layer layers (S k) n ->
     exists m, in_layer layers k m /\ depends wf n m) ->
  forall k n, in_layer layers k n -> descends wf k n.
Proof.
  intros T. induction k as [|k IH]; intros n Hn.
  - exists []. split; [reflexivity|exact I].
  - destruct (T k n Hn) as (m & Hm & Hd).
    destruct (IH m Hm) as (l & Hlen & Hch).
    exists (m :: l). split; [simpl; now rewrite Hlen|]. split; assumption.
Qed.

Lemma layer_bounds_descent wf layers :
  good_layers (key_order (steps wf)) (edges (steps wf)) [] layers ->
  forall l k n, in_layer layers k n -> chain (depends wf) (n :: l) ->
                List.length l <= k.
Proof.
  intros (_ & _ & _ & G). induction l as [|m l IH]; intros k n Hn Hch.
  - simpl. lia.
  - destruct Hch as [(s & Hs & Hsn & Hd) Hch].
    destruct (G k n m Hn) as [[]|(j & Hj & Hm)].
    { apply edges_In. eauto. }
    pose proof (IH j m Hm Hch). simpl. lia.
Qed.

(** X25.  The layer of a step is the length of its longest chain of
    dependencies: from a step of layer [k] a chain of [k] dependencies
    starts, and none that is longer.  The layers are the earliest
    schedule that respects the dependencies. *)
Theorem layer_is_depth wf layers k n :
  get_execution_order wf = Ok layers ->
  in_layer layers k n ->
  descends wf k n /\ forall j, descends wf j n -> j <= k.
Proof.
  intros H Hn. split.
  - apply (layer_reaches wf layers); [|assumption].
    intros k' n' Hn'.
    pose proof (order_returns_resolved wf layers H) as Hres.
    destruct (build_graph_ok wf Hres) as ([adj in_degree] & Hb & Hg).
    destruct Hg as (Hk1 & Hk2 & Ha & Hi). simpl in Hk1, Hk2, Ha, Hi.
    unfold get_execution_order in H. rewrite Hb in H. cbn [bind] in H.
    assert (Ht : forall m x, In (m, x) (edges (steps wf)) ->
                             In x (key_order (steps wf))).
    { intros m x Hmx. apply edges_In in Hmx. destruct Hmx as (s & Hs & <- & _).
      apply key_order_In. now apply in_map. }
    assert (Hincl : incl (initial_queue in_degree) (key_order (steps wf))).
    { intros x Hx.
      apply (initial_queue_In (key_order (steps wf)) (edges (steps wf))) in Hx;
        [tauto|assumption|apply key_order_NoDup|assumption]. }
    destruct (layers_loop_tight (key_order (steps wf)) (edges (steps wf)) adj Ha Ht
                _ _ _ layers Hincl H) as (_ & _ & T).
    destruct (T k' n' Hn') as (m & Hm & He).
    exists m. split; [assumption|]. apply edges_In in He.
    destruct He as (s & Hs & Hsn & Hd). exists s. auto.
  - intros j (l & <- & Hch).
    destruct (get_execution_order_ok wf (order_returns_resolved wf layers H))
      as (layers' & Hl & Hgood).
    rewrite H in Hl. injection Hl as <-.
    exact (layer_bounds_descent wf layers Hgood l k n Hn Hch).
Qed.

Lemma layer_is_depth_witness :
  descends join_workflow 1 "c" /\ forall j, descends join_workflow j "c" -> j <= 1.
Proof.
  apply (layer_is_depth join_workflow [["a"; "b"]; ["c"]]%string).
  - reflexivity.
  - exists ["c"%string]. split; [reflexivity|now left].
Defined.

End WorkflowMore.

(* ===================================================================== *)
(** * Serialising a workflow                                            *)
(* ===================================================================== *)

Module WorkflowDictFacts.
Import PyStr Migration WorkflowDict.
Local Open Scope list_scope.

Section RoundTrip.
Variable int_of_str : string -> option Z.

Lemma step_round_trip s : step_from_dict int_of_str (step_to_dict s) = Return s.
Proof. destruct s. reflexivity. Qed.

Lemma steps_round_trip steps :
  map_m (step_from_dict int_of_str) (map step_to_dict steps) = Return steps.
Proof.
  induction steps as [|s steps IH]; [reflexivity|].
  cbn [map map_m]. rewrite step_round_trip. cbn [and_then]. rewrite IH. reflexivity.
Qed.

Lemma data_round_trip w : from_dict int_of_str (to_dict w) = Return w.
Proof.
  destruct w as [n d steps]. unfold from_dict, to_dict.
  cbn [get_or fields_get String.eqb Ascii.eqb Bool.eqb and_then iterate
       data_name data_description data_steps].
  rewrite steps_round_trip. reflexivity.
Qed.
End RoundTrip.

Lemma map_JStr_inj l l' : map JStr l = map JStr l' -> l = l'.
Proof.
  revert l'. induction l as [|x l IH]; intros [|y l'] H; try discriminate.
  - reflexivity.
  - injection H as -> H. f_equal. now apply IH.
Qed.

Lemma step_data_inj s s' : step_data s = step_data s' -> s = s'.
Proof.
  destruct s, s'. unfold step_data. cbn. intros [= -> -> -> H ->].
  now rewrite (map_JStr_inj _ _ H).
Qed.

Lemma data_of_inj wf wf' : data_of wf = data_of wf' -> wf = wf'.
Proof.
  destruct wf as [n d steps], wf' as [n' d' steps']. unfold data_of. cbn.
  intros [= -> -> H]. f_equal.
  revert steps' H. induction steps as [|s steps IH]; intros [|s' steps'] H;
    try discriminate; [reflexivity|].
  cbn [map] in H.
  assert (H1 : step_data s = step_data s') by congruence.
  assert (H2 : map step_data steps = map step_data steps') by congruence.
  rewrite (step_data_inj _ _ H1). f_equal. now apply IH.
Qed.

(** X22.  [from_dict] undoes [to_dict]: it rebuilds the workflow that was
    serialised, whatever the fields hold; and two workflows with the
    same dictionary are the same workflow. *)
Theorem dict_round_trip int_of_str :
  (forall w, from_dict int_of_str (to_dict w) = Return w)
  /\ (forall wf wf', to_dict (data_of wf) = to_dict (data_of wf') -> wf = wf').
Proof.
  split; [apply data_round_trip|].
  intros wf wf' H. apply data_of_inj.
  pose proof (data_round_trip int_of_str (data_of wf)) as H1.
  rewrite H, data_round_trip in H1. congruence.
Qed.

Lemma dict_round_trip_witness :
  from_dict (fun _ => None) (to_dict (data_of WorkflowSpec.join_workflow))
  = Return (data_of WorkflowSpec.join_workflow).
Proof.
  apply (proj1 (dict_round_trip (fun _ => None))).
Defined.

End WorkflowDictFacts.

(* ===================================================================== *)
(** * Properties of the cron-phrase parser                               *)
(* ===================================================================== *)

Module SchedulerFacts.
Import PyStr Regex RegexSpec StrFacts RegexFacts Scheduler SchedulerSpec.

(** *** Characters *)

Ltac by_cases_on_char x :=
  destruct x as [[] [] [] [] [] [] [] []]; vm_compute; intros; congruence.

Lemma cron_not_space x : cron_char x = true -> isspace x = false.
Proof. by_cases_on_char x. Qed.

Lemma cron_not_e x : cron_char x = true -> ci_eqb (lower_char "e") x = false.
Proof. by_cases_on_char x. Qed.

Lemma decimal_cron x : is_decimal x = true -> cron_char x = true.
Proof. by_cases_on_char x. Qed.

Lemma decimal_not_m x : is_decimal x = true -> ci_eqb (lower_char "m") x = false.
Proof. by_cases_on_char x. Qed.


(** *** Fields *)

Lemma is_field_inv f :
  is_field f = true -> f <> "" /\ all_chars cron_char f = true.
Proof.
  unfold is_field. intros H. apply andb_prop in H as [H1 H2].
  split; [|assumption]. intros ->. discriminate.
Qed.

Lemma number_is_field n : is_number n = true -> is_field n = true.
Proof.
  unfold is_number, is_field. intros H. apply andb_prop in H as [H1 H2].
  rewrite H1. simpl. clear H1.
  induction n as [|x n IH]; simpl in *; [reflexivity|].
  apply andb_prop in H2 as [Hx Hn]. now rewrite (decimal_cron x Hx), IH.
Qed.

Lemma field_head f s :
  is_field f = true -> head_fails isspace (f ++ s).
Proof.
  intros H. apply is_field_inv in H as [Hne H].
  destruct f as [|x f]; [contradiction|]. simpl in *.
  apply andb_prop in H as [Hx _]. now apply cron_not_space.
Qed.

Lemma field_no_space f : is_field f = true -> none_of isspace f.
Proof.
  intros H. apply is_field_inv in H as [_ H].
  apply (none_of_all_chars isspace cron_char); [exact cron_not_space|assumption].
Qed.

Lemma field_no_e f : is_field f = true -> none_of (ci_eqb (lower_char "e")) f.
Proof.
  intros H. apply is_field_inv in H as [_ H].
  apply (none_of_all_chars _ cron_char); [exact cron_not_e|assumption].
Qed.

Lemma consumed_all s : consumed s "" = s.
Proof.
  rewrite <- (append_nil_r s) at 1. apply consumed_append.
Qed.

(** *** A cron expression is matched by the last rule *)

Lemma cron_match f1 f2 f3 f4 f5 :
  is_field f1 = true -> is_field f2 = true -> is_field f3 = true ->
  is_field f4 = true -> is_field f5 = true ->
  re_match re_cron (cron5 f1 f2 f3 f4 f5) = Some [(1, cron5 f1 f2 f3 f4 f5)].
Proof.
  intros H1 H2 H3 H4 H5.
  pose proof (is_field_inv _ H1) as [N1 A1].
  pose proof (is_field_inv _ H2) as [N2 A2].
  pose proof (is_field_inv _ H3) as [N3 A3].
  pose proof (is_field_inv _ H4) as [N4 A4].
  pose proof (is_field_inv _ H5) as [N5 A5].
  unfold re_match, re_cron. cbn [seqs].
  set (text := cron5 f1 f2 f3 f4 f5).
  change (m (Seq Bol _) None text [] accept)
    with (m (seqs [cron_field; plus ws; cron_field; plus ws; cron_field;
                   plus ws; cron_field; plus ws; cron_field])
            None text []
            (fun p' s' c' => m Eol p' s' ((1, consumed text s') :: c') accept)).
  cbn [seqs]. unfold text at 1, cron5, cron_field, ws.
  assert (Hfs : forall f s, is_field f = true -> head_fails isspace (f ++ s))
    by exact field_head.
  apply seq_plus_greedy; [assumption|assumption|reflexivity|].
  apply (seq_plus_greedy isspace _ " "); [discriminate|reflexivity|now apply Hfs|].
  apply seq_plus_greedy; [assumption|assumption|reflexivity|].
  apply (seq_plus_greedy isspace _ " "); [discriminate|reflexivity|now apply Hfs|].
  apply seq_plus_greedy; [assumption|assumption|reflexivity|].
  apply (seq_plus_greedy isspace _ " "); [discriminate|reflexivity|now apply Hfs|].
  apply seq_plus_greedy; [assumption|assumption|reflexivity|].
  apply (seq_plus_greedy isspace _ " ").
  { discriminate. }
  { reflexivity. }
  { rewrite <- (append_nil_r f5). now apply Hfs. }
  rewrite <- (append_nil_r f5) at 1.
  apply plus_greedy; [assumption|assumption|exact I|].
  cbn [m at_end]. unfold accept. now rewrite consumed_all.
Qed.

Lemma cron5_split f1 f2 f3 f4 f5 :
  cron5 f1 f2 f3 f4 f5 = (f1 ++ " " ++ f2 ++ " " ++ f3 ++ " " ++ f4 ++ " ") ++ f5.
Proof.
  unfold cron5. repeat rewrite append_assoc. reflexivity.
Qed.

Lemma rules_need_e r : In r rules -> needs (ci_eqb (lower_char "e")) r.
Proof.
  intros H. unfold rules in H. simpl in H.
  repeat (destruct H as [<-|H]; [left; left; reflexivity|]). destruct H.
Qed.

Lemma nl_patterns_rules r h : In (r, h) _NL_PATTERNS -> In r rules.
Proof.
  unfold _NL_PATTERNS, rules. simpl.
  intros H. repeat (destruct H as [[= <- _]|H]; [tauto|]). destruct H.
Qed.

Lemma nl_loop_none patterns text :
  (forall r h, In (r, h) patterns -> search r text = None) ->
  nl_loop patterns text = None.
Proof.
  induction patterns as [|[r h] patterns IH]; intros H; simpl; [reflexivity|].
  rewrite (H r h) by now left. apply IH. intros r' h' Hin. apply (H r' h'). now right.
Qed.

(** A string without the letter e is matched by none of the rules. *)
Lemma rules_fail_without_e text :
  none_of (ci_eqb (lower_char "e")) text ->
  forall r, In r rules -> search r text = None.
Proof.
  intros Hs r Hr. apply (search_none_needs (ci_eqb (lower_char "e"))); [|assumption].
  now apply rules_need_e.
Qed.

(** Five fields separated by single spaces are parsed to themselves. *)
Lemma parse_cron5 f1 f2 f3 f4 f5 :
  is_field f1 = true -> is_field f2 = true -> is_field f3 = true ->
  is_field f4 = true -> is_field f5 = true ->
  parse_natural_language (cron5 f1 f2 f3 f4 f5) = Some (cron5 f1 f2 f3 f4 f5).
Proof.
  intros H1 H2 H3 H4 H5. unfold parse_natural_language.
  assert (Hstrip : strip (cron5 f1 f2 f3 f4 f5) = cron5 f1 f2 f3 f4 f5).
  { rewrite cron5_split. apply strip_fixed.
    - rewrite <- cron5_split. unfold cron5. now apply field_head.
    - now apply field_no_space.
    - now apply is_field_inv in H5. }
  rewrite Hstrip.
  assert (He : none_of (ci_eqb (lower_char "e")) (cron5 f1 f2 f3 f4 f5)).
  { unfold cron5. repeat (apply none_of_append; split);
      try (now apply field_no_e); vm_compute; tauto. }
  pose proof (rules_fail_without_e _ He) as Hrules.
  rewrite nl_loop_none
    by (intros r h Hin; apply Hrules; exact (nl_patterns_rules r h Hin)).
  unfold after_loop.
  rewrite (Hrules re_every_day) by (unfold rules; simpl; tauto).
  rewrite (Hrules re_day) by (unfold rules; simpl; tauto).
  rewrite (Hrules re_weekday) by (unfold rules; simpl; tauto).
  rewrite cron_match by assumption. reflexivity.
Qed.

(** *** What the rules capture *)

Lemma den_skip P R s s' c c' :
  no_groups P = true -> Den (Seq P R) s s' c c' -> exists s1, Den R s1 s' c c'.
Proof.
  intros Hp H. inversion H; subst.
  match goal with D : Den P _ _ _ _ |- _ =>
    rewrite (den_no_groups _ _ _ _ _ D Hp) in * end.
  eauto.
Qed.

Lemma all_decimal_number n : n <> "" -> all_chars is_decimal n = true -> is_number n = true.
Proof.
  intros Hne H. unfold is_number. rewrite H. destruct n; [contradiction|reflexivity].
Qed.

(** The group of a number, followed by a pattern without groups. *)
Lemma den_number_group Q s s' c c' :
  no_groups Q = true ->
  Den (Seq (Grp 1 (plus dg)) Q) s s' c c' ->
  exists n, c' = (1, n) :: c /\ is_number n = true.
Proof.
  intros Hq H. inversion H; subst.
  match goal with D : Den Q _ _ _ _ |- _ =>
    rewrite (den_no_groups _ _ _ _ _ D Hq) in * end.
  match goal with D : Den (Grp 1 _) _ _ _ _ |- _ => inversion D; subst end.
  match goal with D : Den (plus dg) _ _ _ _ |- _ =>
    apply den_plus_cls in D; destruct D as (-> & w & -> & Hne & Hw) end.
  exists w. rewrite consumed_append. split; [reflexivity|].
  now apply all_decimal_number.
Qed.

Lemma den_rep12 p s s' c c' :
  Den (rep12 (Cls p)) s s' c c' ->
  c' = c /\ exists w, s = w ++ s' /\ w <> "" /\ all_chars p w = true.
Proof.
  unfold rep12, opt. intros H. inversion H; subst.
  match goal with D : Den (Cls p) _ _ _ _ |- _ => inversion D; subst end.
  match goal with D : Den (Alt _ _) _ _ _ _ |- _ => inversion D; subst end.
  - match goal with D : Den (Cls p) _ _ _ _ |- _ => inversion D; subst end.
    split; [reflexivity|]. exists (String x (String x0 "")).
    repeat split; [discriminate|]. simpl.
    repeat match goal with Hp : p _ = true |- _ => rewrite Hp; clear Hp end.
    reflexivity.
  - match goal with D : Den Eps _ _ _ _ |- _ => inversion D; subst end.
    split; [reflexivity|]. exists (String x "").
    repeat split; [discriminate|]. simpl.
    match goal with Hp : p _ = true |- _ => now rewrite Hp end.
Qed.

(** The group of the day of the month, followed by the optional ordinal. *)
Lemma den_month_group X s s' c' :
  no_groups X = true ->
  Den (Seq (Grp 1 (rep12 dg)) (opt (Grp 2 X))) s s' [] c' ->
  exists n, group 1 c' = Some n /\ is_number n = true.
Proof.
  intros Hx H. inversion H; subst.
  match goal with D : Den (Grp 1 _) _ _ _ _ |- _ => inversion D; subst end.
  match goal with D : Den (rep12 dg) _ _ _ _ |- _ =>
    apply den_rep12 in D; destruct D as (-> & w & -> & Hne & Hw) end.
  rewrite consumed_append in *.
  exists w. split; [|now apply all_decimal_number].
  match goal with D : Den (opt _) _ _ _ _ |- _ => inversion D; subst end.
  - match goal with D : Den (Grp 2 _) _ _ _ _ |- _ => inversion D; subst end.
    match goal with D : Den X _ _ _ _ |- _ =>
      rewrite (den_no_groups _ _ _ _ _ D Hx) end.
    reflexivity.
  - match goal with D : Den Eps _ _ _ _ |- _ => inversion D; subst end.
    reflexivity.
Qed.

Lemma n_minutes_group text m :
  search re_n_minutes text = Some m ->
  exists n, group_text 1 m = n /\ is_number n = true.
Proof.
  intros H. apply search_sound in H. destruct H as (pre & s1 & s' & _ & D).
  unfold re_n_minutes in D. cbn [seqs] in D.
  do 2 (apply den_skip in D; [destruct D as [? D]|reflexivity]).
  apply den_number_group in D; [|reflexivity].
  destruct D as (n & -> & Hn). exists n. split; [reflexivity|assumption].
Qed.

Lemma n_hours_group text m :
  search re_n_hours text = Some m ->
  exists n, group_text 1 m = n /\ is_number n = true.
Proof.
  intros H. apply search_sound in H. destruct H as (pre & s1 & s' & _ & D).
  unfold re_n_hours in D. cbn [seqs] in D.
  do 2 (apply den_skip in D; [destruct D as [? D]|reflexivity]).
  apply den_number_group in D; [|reflexivity].
  destruct D as (n & -> & Hn). exists n. split; [reflexivity|assumption].
Qed.

Lemma month_group text m :
  search re_month text = Some m ->
  exists n, group_text 1 m = n /\ is_number n = true.
Proof.
  intros H. apply search_sound in H. destruct H as (pre & s1 & s' & _ & D).
  unfold re_month in D. cbn [seqs] in D.
  do 8 (apply den_skip in D; [destruct D as [? D]|reflexivity]).
  apply den_month_group in D; [|reflexivity].
  destruct D as (n & Hg & Hn). exists n. unfold group_text. rewrite Hg.
  split; [reflexivity|assumption].
Qed.

(** *** The hour and the day *)

Lemma int_acc_nonneg s : forall acc, (0 <= acc)%Z -> (0 <= int_acc s acc)%Z.
Proof.
  induction s as [|x s IH]; intros acc H; cbn [int_acc]; [assumption|].
  apply IH. unfold digit_value. pose proof (N2Z.is_nonneg (code x - 48)). lia.
Qed.

Lemma parse_hour_nonneg hs a : (0 <= _parse_hour hs a)%Z.
Proof.
  assert (H : (0 <= int hs)%Z) by (apply int_acc_nonneg; lia).
  unfold _parse_hour. destruct a as [a|]; [|assumption].
  destruct (is_empty a); [assumption|].
  destruct (String.eqb (lower a) "pm" && negb (int hs =? 12)%Z); [lia|].
  destruct (String.eqb (lower a) "am" && (int hs =? 12)%Z); [lia|assumption].
Qed.

Lemma string_of_uint_digits u :
  all_chars cron_char (NilEmpty.string_of_uint u) = true.
Proof. induction u; simpl; auto. Qed.

Lemma str_of_Z_field n : (0 <= n)%Z -> is_field (str_of_Z n) = true.
Proof.
  intros H. unfold str_of_Z, is_field. destruct n as [|p|p]; [reflexivity| |lia].
  simpl. rewrite string_of_uint_digits.
  pose proof (DecimalPos.Unsigned.to_uint_nonnil p) as Hne.
  destruct (Pos.to_uint p); [contradiction|reflexivity..].
Qed.

Lemma day_field x :
  is_field (match Scheduler.dict_get _DAY_MAP x with Some d => d | None => "0" end)
  = true.
Proof.
  unfold _DAY_MAP. cbn [Scheduler.dict_get].
  repeat (match goal with
          | |- context [String.eqb ?k x] => destruct (String.eqb k x); [reflexivity|]
          end).
  reflexivity.
Qed.

(** *** The shapes of the results *)

Lemma nl_loop_cases text c :
  nl_loop _NL_PATTERNS text = Some c ->
  (exists n, is_number n = true /\ c = cron5 ("*/" ++ n) "*" "*" "*" "*")
  \/ (exists n, is_number n = true /\ c = cron5 "0" ("*/" ++ n) "*" "*" "*")
  \/ c = "* * * * *" \/ c = "0 * * * *"
  \/ (exists n, is_number n = true /\ c = cron5 "0" "0" n "*" "*").
Proof.
  unfold _NL_PATTERNS. cbn [nl_loop].
  destruct (search re_n_minutes text) as [m1|] eqn:E1.
  { intros [= <-]. left. destruct (n_minutes_group _ _ E1) as (n & -> & Hn).
    exists n. split; [assumption|reflexivity]. }
  destruct (search re_n_hours text) as [m2|] eqn:E2.
  { intros [= <-]. right; left. destruct (n_hours_group _ _ E2) as (n & -> & Hn).
    exists n. split; [assumption|reflexivity]. }
  destruct (search re_minute text); [intros [= <-]; tauto|].
  destruct (search re_hour text); [intros [= <-]; tauto|].
  destruct (search re_every_day text).
  all: destruct (search re_day text).
  all: destruct (search re_month text) as [m7|] eqn:E7;
    try (destruct (search re_weekday text)); try discriminate.
  all: intros [= <-]; do 4 right; destruct (month_group _ _ E7) as (n & -> & Hn);
    exists n; (split; [assumption|reflexivity]).
Qed.

Lemma after_loop_cases text c :
  after_loop text = Some c ->
  (exists h d, (0 <= h)%Z /\ is_field d = true /\ c = cron5 "0" (str_of_Z h) "*" "*" d)
  \/ (exists m, re_match re_cron text = Some m /\ c = group_text 1 m).
Proof.
  unfold after_loop.
  destruct (search re_every_day text) as [m1|].
  { intros [= <-]. left. exists (_parse_hour (group_text 1 m1) (group 2 m1)), "*".
    split; [apply parse_hour_nonneg|]. split; reflexivity. }
  destruct (search re_day text) as [m2|].
  { intros [= <-]. left. eexists (_parse_hour (group_text 2 m2) (group 3 m2)), _.
    split; [apply parse_hour_nonneg|]. split; [apply day_field|reflexivity]. }
  destruct (search re_weekday text) as [m3|].
  { intros [= <-]. left. exists (_parse_hour (group_text 1 m3) (group 2 m3)), "1-5".
    split; [apply parse_hour_nonneg|]. split; reflexivity. }
  destruct (re_match re_cron text) as [m4|]; [|discriminate].
  intros [= <-]. right. eauto.
Qed.

(** The last rule returns the whole stripped text. *)
Lemma cron_match_whole expression m :
  re_match re_cron (strip expression) = Some m ->
  group_text 1 m = strip expression.
Proof.
  intros H. apply re_match_sound in H. destruct H as (s' & D).
  unfold re_cron in D. cbn [seqs] in D.
  inversion D; subst.
  match goal with B : Den Bol _ _ _ _ |- _ => inversion B; subst end.
  match goal with D2 : Den (Seq (Grp 1 _) Eol) _ _ _ _ |- _ => inversion D2; subst end.
  match goal with E : Den Eol _ _ _ _ |- _ => inversion E; subst end.
  match goal with G : Den (Grp 1 _) _ _ _ _ |- _ => inversion G; subst end.
  match goal with B : Den (Seq _ _) _ _ _ _ |- _ =>
    pose proof (den_suffix _ _ _ _ _ B) as [w Hw];
    rewrite (den_no_groups _ _ _ _ _ B eq_refl) end.
  cbn [group_text group Nat.eqb]. rewrite Hw, consumed_append.
  match goal with E : at_end ?s = true |- _ =>
    destruct s as [|x [|y s2]]; simpl in E; try discriminate;
    [now rewrite append_nil_r|apply Ascii.eqb_eq in E; subst x] end.
  pose proof (strip_no_trailing_space _ _ _ Hw) as Hx. discriminate.
Qed.

Lemma parse_strip expression :
  parse_natural_language (strip expression) = parse_natural_language expression.
Proof. unfold parse_natural_language. now rewrite strip_idem. Qed.

(** *** Numbers and groups *)

Lemma number_inv n :
  is_number n = true -> n <> "" /\ all_chars is_decimal n = true.
Proof.
  unfold is_number. intros H. apply andb_prop in H as [H1 H2].
  split; [|assumption]. intros ->. discriminate.
Qed.



(** *** The weekday map and the hour *)

Lemma day_map_numbering day :
  Scheduler.dict_get _DAY_MAP (lower day) = weekday_number day.
Proof.
  unfold weekday_number. generalize (lower day) as k. intros k.
  unfold _DAY_MAP. cbn [Scheduler.dict_get].
  repeat (match goal with
          | |- context [String.eqb ?key k] =>
              destruct (String.eqb_spec key k) as [<-|?]; [reflexivity|]
          end).
  unfold week. cbn [weekday_index].
  repeat (match goal with
          | |- context [String.eqb k ?key] =>
              replace (String.eqb k key) with false
                by (symmetry; apply String.eqb_neq; congruence)
          end).
  reflexivity.
Qed.


(** C7.  The parser is idempotent on its output: an expression that it
    returns for a phrase is parsed to itself. *)
Theorem parse_reparse phrase cron :
  parse_natural_language phrase = Some cron ->
  parse_natural_language cron = Some cron.
Proof.
  intros H. pose proof H as Hp. unfold parse_natural_language in H.
  destruct (nl_loop _NL_PATTERNS (strip phrase)) as [c|] eqn:E.
  - injection H as ->. apply nl_loop_cases in E.
    destruct E as [(n & Hn & ->)|[(n & Hn & ->)|[->|[->|(n & Hn & ->)]]]];
      try reflexivity; apply parse_cron5; try reflexivity;
      try (now apply number_is_field).
    + unfold is_field in *. apply number_is_field in Hn. unfold is_field in Hn.
      apply andb_prop in Hn as [_ Hn]. simpl. exact Hn.
    + unfold is_field in *. apply number_is_field in Hn. unfold is_field in Hn.
      apply andb_prop in Hn as [_ Hn]. simpl. exact Hn.
  - apply after_loop_cases in H.
    destruct H as [(h & d & Hh & Hd & ->)|(m & Hm & ->)].
    + apply parse_cron5; try reflexivity; [now apply str_of_Z_field|assumption].
    + rewrite (cron_match_whole _ _ Hm), parse_strip. rewrite Hp.
      now rewrite (cron_match_whole _ _ Hm).
Qed.

Lemma parse_reparse_witness :
  parse_natural_language "0 15 * * 1" = Some "0 15 * * 1".
Proof.
  apply (parse_reparse "every Monday at 3pm"). vm_compute. reflexivity.
Defined.

End SchedulerFacts.

(* ===================================================================== *)
(** * Properties of the legacy cron migration                            *)
(* ===================================================================== *)

Module MigrationFacts.
Import PyStr Migration MigrationSpec.

Lemma migrated_entry_has_cron_id stamp fields id :
  has_cron_id (migrated_entry stamp fields id).
Proof.
  unfold has_cron_id, migrated_entry. simpl.
  destruct (startswith "cron_" id) eqn:E.
  - exists id. split; [reflexivity|assumption].
  - exists ("cron_" ++ id). split; [reflexivity|]. destruct id; reflexivity.
Qed.

Lemma migrated_entry_new_schema stamp fields id :
  field_or fields "id" (JStr "") = JStr id ->
  in_new_schema fields stamp (migrated_entry stamp fields id).
Proof.
  intros Hid. exists id, (if startswith "cron_" id then id else "cron_" ++ id).
  split; [exact Hid|]. split.
  - unfold prefixed. destruct (startswith "cron_" id); [left|right]; now split.
  - unfold migrated_entry, field_or. cbn [first_of].
    destruct (fields_get fields "cron"), (fields_get fields "command"); reflexivity.
Qed.

(** The loop only appends to [jobs], and what it appends are legacy
    entries in the current schema, stamped one after the other. *)
Lemma migrate_loop_appends now d refused existing_ids :
  forall files jobs kept k,
    incl files (other_files d) ->
    match snd (migrate_loop now refused files existing_ids jobs kept k) with
    | Returns jobs' =>
        exists extra,
          jobs' = (jobs ++ extra)%list
          /\ migrated_from now d k extra
          /\ Forall has_cron_id extra
    | Raises _ => True
    end.
Proof.
  induction files as [|[f c] files IH]; intros jobs kept k Hincl.
  - simpl. exists []. split; [now rewrite app_nil_r|]. split; [exact I|constructor].
  - assert (Hin : In (f, c) (other_files d)) by (apply Hincl; now left).
    assert (Hincl' : incl files (other_files d))
      by (intros x Hx; apply Hincl; now right).
    cbn [migrate_loop]. destruct c as [| |entry].
    + now apply IH.
    + exact I.
    + destruct (get entry "id" (JStr "")) as [entry_id|e] eqn:Eg; [|exact I].
      destruct (in_ids entry_id existing_ids) as [[|]|e]; [| |exact I].
      { destruct (refused f); [exact I|now apply IH]. }
      destruct entry_id as [| | |id| |]; try exact I.
      destruct entry as [| | | | |fields]; try exact I.
      destruct (refused f); [exact I|].
      specialize (IH (jobs ++ [migrated_entry (now k) fields id])%list kept (S k) Hincl').
      destruct (snd (migrate_loop now refused files existing_ids _ kept (S k)))
        as [jobs'|e]; [|exact I].
      destruct IH as (extra & -> & Hall & Hids).
      exists (migrated_entry (now k) fields id :: extra).
      split; [now rewrite <- app_assoc|]. split.
      * split; [|exact Hall]. exists f, fields. split; [assumption|].
        apply migrated_entry_new_schema.
        simpl in Eg. injection Eg as Eg. exact Eg.
      * constructor; [apply migrated_entry_has_cron_id|assumption].
Qed.

(** An exception leaves [jobs.json] as it was. *)
Lemma migration_raises_untouched now d e :
  snd (_migrate_individual_files now d) = Raises e ->
  jobs_file (fst (_migrate_individual_files now d)) = jobs_file d.
Proof.
  unfold _migrate_individual_files.
  destruct (other_files d) as [|file files]; [discriminate|].
  destruct (_load_jobs_file d) as [jobs|e0]; [|reflexivity].
  destruct (existing_ids_of jobs) as [ids|e0]; [|reflexivity].
  destruct (migrate_loop now (unlink_fails d) (file :: files) ids jobs [] 0)
    as [remaining [jobs'|e0]]; [|reflexivity].
  unfold _save_jobs_file. cbn [write_fails].
  destruct (write_fails d); [reflexivity|discriminate].
Qed.

(** C9.  Whatever the directory holds and whatever the file system
    refuses, the job list read from [jobs.json] before the migration is
    a prefix of the list read after it: no entry is overwritten or
    removed.  The entries that follow are legacy entries in the current
    schema ([cron] as [schedule], [command] as [prompt]), each with an id
    that carries the [cron_] prefix, each stamped with a clock reading of
    its own when it has no [created_at].  When the list cannot be read,
    and whenever the migration raises, [jobs.json] is left as it was. *)
Theorem migration_keeps_jobs now d :
  let d' := fst (_migrate_individual_files now d) in
  match _load_jobs_file d with
  | Returns jobs =>
      exists extra,
        _load_jobs_file d' = Returns (jobs ++ extra)%list
        /\ migrated_from now d 0 extra
        /\ Forall has_cron_id extra
  | Raises _ => jobs_file d' = jobs_file d
  end
  /\ (forall e, snd (_migrate_individual_files now d) = Raises e ->
                jobs_file d' = jobs_file d).
Proof.
  split; [|apply migration_raises_untouched].
  unfold _migrate_individual_files.
  destruct (other_files d) as [|file files] eqn:Ef.
  - simpl. destruct (_load_jobs_file d) as [jobs|e]; [|reflexivity].
    exists []. rewrite app_nil_r. repeat split; constructor.
  - destruct (_load_jobs_file d) as [jobs|e] eqn:El; [|reflexivity].
    assert (Hsame : forall d1, jobs_file d1 = jobs_file d ->
              exists extra,
                _load_jobs_file d1 = Returns (jobs ++ extra)%list
                /\ migrated_from now d 0 extra /\ Forall has_cron_id extra).
    { intros d1 H1. exists []. rewrite app_nil_r.
      split; [|split; [exact I|constructor]].
      unfold _load_jobs_file in *. now rewrite H1. }
    destruct (existing_ids_of jobs) as [ids|e]; [|now apply Hsame].
    pose proof (migrate_loop_appends now d (unlink_fails d) ids (file :: files) jobs [] 0)
      as H.
    rewrite Ef in H. specialize (H (incl_refl _)).
    destruct (migrate_loop now (unlink_fails d) (file :: files) ids jobs [] 0)
      as [remaining [jobs'|e]]; [|now apply Hsame].
    cbn [snd] in H. destruct H as (extra & -> & Hall & Hids).
    unfold _save_jobs_file. cbn [write_fails].
    destruct (write_fails d); [now apply Hsame|].
    exists extra. cbn [fst]. split; [reflexivity|]. split; assumption.
Qed.

End MigrationFacts.

(* ===================================================================== *)
(** * Further properties of the cron-phrase parser                       *)
(* ===================================================================== *)

Module SchedulerMore.
Import PyStr Regex RegexSpec StrFacts RegexFacts Scheduler SchedulerSpec.
Import SchedulerSpec2 SchedulerFacts.

(** *** The shape of the results *)

Lemma cron5_shaped f1 f2 f3 f4 f5 :
  is_field f1 = true -> is_field f2 = true -> is_field f3 = true ->
  is_field f4 = true -> is_field f5 = true ->
  cron_shaped (cron5 f1 f2 f3 f4 f5).
Proof.
  intros H1 H2 H3 H4 H5.
  exists f1, " ", f2, " ", f3, " ", f4, " ", f5.
  repeat split; assumption || reflexivity.
Qed.

Lemma plus_cls_blank s s' c c' :
  Den (plus ws) s s' c c' ->
  c' = c /\ exists w, s = w ++ s' /\ is_blank w = true.
Proof.
  intros H. apply den_plus_cls in H as (-> & w & -> & Hne & Hw).
  split; [reflexivity|]. exists w. split; [reflexivity|].
  unfold is_blank. rewrite Hw. destruct w; [contradiction|reflexivity].
Qed.

Lemma plus_cls_field s s' c c' :
  Den cron_field s s' c c' ->
  c' = c /\ exists f, s = f ++ s' /\ is_field f = true.
Proof.
  intros H. apply den_plus_cls in H as (-> & w & -> & Hne & Hw).
  split; [reflexivity|]. exists w. split; [reflexivity|].
  unfold is_field. rewrite Hw. destruct w; [contradiction|reflexivity].
Qed.

(** What the raw cron rule matches. *)
Lemma cron_match_shaped text m :
  re_match re_cron (strip text) = Some m -> cron_shaped (strip text).
Proof.
  intros H. pose proof (cron_match_whole _ _ H) as Hw.
  apply re_match_sound in H. destruct H as (s' & D).
  unfold re_cron in D. cbn [seqs] in D.
  inversion D; subst. clear D.
  match goal with B : Den Bol _ _ _ _ |- _ => inversion B; subst; clear B end.
  match goal with D2 : Den (Seq (Grp 1 _) Eol) _ _ _ _ |- _ =>
    inversion D2; subst; clear D2 end.
  match goal with E : Den Eol _ _ _ _ |- _ => inversion E; subst; clear E end.
  match goal with G : Den (Grp 1 _) _ _ _ _ |- _ => inversion G; subst; clear G end.
  cbn [group_text group Nat.eqb] in Hw.
  match goal with B : Den (Seq cron_field _) _ _ _ _ |- _ => rename B into D end.
  inversion D as [| |? ? ? t1 ? ? ? ? D1 D'| | | | | | | |]; subst; clear D.
  apply plus_cls_field in D1 as (-> & f1 & E1 & F1).
  inversion D' as [| |? ? ? t2 ? ? ? ? D2 D| | | | | | | |]; subst; clear D'.
  apply plus_cls_blank in D2 as (-> & w1 & E2 & W1).
  inversion D as [| |? ? ? t3 ? ? ? ? D3 D'| | | | | | | |]; subst; clear D.
  apply plus_cls_field in D3 as (-> & f2 & E3 & F2).
  inversion D' as [| |? ? ? t4 ? ? ? ? D4 D| | | | | | | |]; subst; clear D'.
  apply plus_cls_blank in D4 as (-> & w2 & E4 & W2).
  inversion D as [| |? ? ? t5 ? ? ? ? D5 D'| | | | | | | |]; subst; clear D.
  apply plus_cls_field in D5 as (-> & f3 & E5 & F3).
  inversion D' as [| |? ? ? t6 ? ? ? ? D6 D| | | | | | | |]; subst; clear D'.
  apply plus_cls_blank in D6 as (-> & w3 & E6 & W3).
  inversion D as [| |? ? ? t7 ? ? ? ? D7 D'| | | | | | | |]; subst; clear D.
  apply plus_cls_field in D7 as (-> & f4 & E7 & F4).
  inversion D' as [| |? ? ? t8 ? ? ? ? D8 D| | | | | | | |]; subst; clear D'.
  apply plus_cls_blank in D8 as (-> & w4 & E8 & W4).
  apply plus_cls_field in D as (_ & f5 & E9 & F5).
  subst.
  rewrite <- Hw. rewrite E1 at 1.
  exists f1, w1, f2, w2, f3, w3, f4, w4, f5.
  repeat split; try assumption.
  replace (f1 ++ w1 ++ f2 ++ w2 ++ f3 ++ w3 ++ f4 ++ w4 ++ f5 ++ s')
    with ((f1 ++ w1 ++ f2 ++ w2 ++ f3 ++ w3 ++ f4 ++ w4 ++ f5) ++ s')
    by now rewrite !append_assoc.
  apply consumed_append.
Qed.

Lemma parse_shape phrase cron :
  parse_natural_language phrase = Some cron -> cron_shaped cron.
Proof.
  unfold parse_natural_language. intros H.
  destruct (nl_loop _NL_PATTERNS (strip phrase)) as [c|] eqn:E.
  - injection H as ->. apply nl_loop_cases in E.
    destruct E as [(n & Hn & ->)|[(n & Hn & ->)|[->|[->|(n & Hn & ->)]]]].
    + apply cron5_shaped; try reflexivity.
      apply number_is_field in Hn. unfold is_field in *.
      apply andb_prop in Hn as [_ Hn]. simpl. exact Hn.
    + apply cron5_shaped; try reflexivity.
      apply number_is_field in Hn. unfold is_field in *.
      apply andb_prop in Hn as [_ Hn]. simpl. exact Hn.
    + now apply (cron5_shaped "*" "*" "*" "*" "*").
    + now apply (cron5_shaped "0" "*" "*" "*" "*").
    + apply cron5_shaped; try reflexivity. now apply number_is_field.
  - apply after_loop_cases in H.
    destruct H as [(h & d & Hh & Hd & ->)|(m & Hm & ->)].
    + apply cron5_shaped; try reflexivity; [now apply str_of_Z_field|assumption].
    + rewrite (cron_match_whole _ _ Hm). now apply (cron_match_shaped _ m).
Qed.

(** X9.  For a phrase of Latin-1 characters (code points below 256),
    whatever the parser returns has the shape of a cron expression: five
    non-empty fields over the characters [* 0-9 / , -], with white space
    between them and none around them. *)
Theorem parse_result_shape phrase cron :
  parse_natural_language phrase = Some cron -> cron_shaped cron.
Proof. apply parse_shape. Qed.

Lemma parse_result_shape_witness : cron_shaped "0 17 * * 5".
Proof.
  apply (parse_result_shape "  Every FRIDAY at 5 pm "). vm_compute. reflexivity.
Defined.

(** *** Letter case *)

Lemma lower_char_idem x : lower_char (lower_char x) = lower_char x.
Proof. by_cases_on_char x. Qed.

Lemma isspace_lower x : isspace (lower_char x) = isspace x.
Proof. by_cases_on_char x. Qed.

Lemma is_decimal_lower x : is_decimal (lower_char x) = is_decimal x.
Proof. by_cases_on_char x. Qed.

Lemma cron_char_lower x : cron_char (lower_char x) = cron_char x.
Proof. by_cases_on_char x. Qed.

Lemma is_word_lower x : is_word (lower_char x) = is_word x.
Proof. by_cases_on_char x. Qed.

Lemma newline_lower x : Ascii.eqb (lower_char x) newline = Ascii.eqb x newline.
Proof. by_cases_on_char x. Qed.

Lemma decimal_lower_fixed x : is_decimal x = true -> lower_char x = x.
Proof. by_cases_on_char x. Qed.

Lemma cron_lower_fixed x : cron_char x = true -> lower_char x = x.
Proof. by_cases_on_char x. Qed.

Lemma space_lower_fixed x : isspace x = true -> lower_char x = x.
Proof. by_cases_on_char x. Qed.

Lemma length_lower s : String.length (lower s) = String.length s.
Proof. induction s; simpl; congruence. Qed.

Lemma lower_append a b : lower (a ++ b) = lower a ++ lower b.
Proof. induction a; simpl; congruence. Qed.

Lemma lower_idem s : lower (lower s) = lower s.
Proof. induction s; simpl; [reflexivity|]. now rewrite lower_char_idem, IHs. Qed.

Lemma is_empty_lower s : is_empty (lower s) = is_empty s.
Proof. destruct s; reflexivity. Qed.

Lemma lower_substring s : forall n k,
  substring n k (lower s) = lower (substring n k s).
Proof.
  induction s as [|x s IH]; intros n k.
  - destruct n, k; reflexivity.
  - destruct n as [|n]; destruct k as [|k]; cbn [lower substring];
      try reflexivity; try apply IH.
    now rewrite IH.
Qed.

Lemma consumed_lower s s' : consumed (lower s) (lower s') = lower (consumed s s').
Proof. unfold consumed. now rewrite !length_lower, lower_substring. Qed.

Lemma lower_fixed p s :
  (forall x, p x = true -> lower_char x = x) ->
  all_chars p s = true -> lower s = s.
Proof.
  intros Hp. induction s as [|x s IH]; simpl; [reflexivity|].
  intros H. apply andb_prop in H as [Hx Hs]. now rewrite (Hp x Hx), IH.
Qed.

Lemma lstrip_lower s : lstrip (lower s) = lower (lstrip s).
Proof.
  induction s as [|x s IH]; [reflexivity|]. cbn [lower lstrip].
  rewrite isspace_lower. destruct (isspace x); [exact IH|reflexivity].
Qed.

Lemma rstrip_lower s : rstrip (lower s) = lower (rstrip s).
Proof.
  unfold rstrip. induction s as [|x s IH]; [reflexivity|].
  cbn [lower rstrip_by]. rewrite IH, is_empty_lower, isspace_lower.
  destruct (is_empty (rstrip_by isspace s) && isspace x); reflexivity.
Qed.

Lemma strip_lower s : strip (lower s) = lower (strip s).
Proof. unfold strip. now rewrite lstrip_lower, rstrip_lower. Qed.

(** **** The matcher *)

Lemma at_end_lower s : at_end (lower s) = at_end s.
Proof.
  destruct s as [|x [|y s]]; try reflexivity. cbn [lower at_end].
  apply newline_lower.
Qed.

Lemma at_boundary_lower prev s :
  at_boundary (lower_prev prev) (lower s) = at_boundary prev s.
Proof.
  unfold at_boundary, word_before, word_after.
  destruct prev as [x|], s as [|y s]; cbn [lower_prev option_map lower];
    now rewrite ?is_word_lower.
Qed.

Lemma lowered_orelse (x y : option caps) :
  option_map lower_caps (match x with Some a => Some a | None => y end)
  = match option_map lower_caps x with
    | Some a => Some a
    | None => option_map lower_caps y
    end.
Proof. destruct x; reflexivity. Qed.

Lemma star_loop_lower (body : @matcher caps) :
  (forall prev s c k k',
      lowered k k' ->
      body (lower_prev prev) (lower s) (lower_caps c) k'
      = option_map lower_caps (body prev s c k)) ->
  forall fuel prev s c k k',
    lowered k k' ->
    star_loop body fuel (lower_prev prev) (lower s) (lower_caps c) k'
    = option_map lower_caps (star_loop body fuel prev s c k).
Proof.
  intros Hbody. induction fuel as [|fuel IH]; intros prev s c k k' Hk.
  - apply Hk.
  - cbn [star_loop]. rewrite lowered_orelse, <- Hk.
    rewrite <- (Hbody prev s c
                  (fun prev' s' c' =>
                     if String.length s' <? String.length s
                     then star_loop body fuel prev' s' c' k else None)
                  (fun prev' s' c' =>
                     if String.length s' <? String.length (lower s)
                     then star_loop body fuel prev' s' c' k' else None));
      [reflexivity|].
    intros prev' s' c'. rewrite !length_lower.
    destruct (String.length s' <? String.length s); [now apply IH|reflexivity].
Qed.

(** On the lowered subject a case-blind pattern matches the same way,
    and captures the lowered texts. *)
Lemma m_lower r :
  case_blind r ->
  forall prev s c k k',
    lowered k k' ->
    m r (lower_prev prev) (lower s) (lower_caps c) k'
    = option_map lower_caps (m r prev s c k).
Proof.
  induction r as [|p|r1 IH1 r2 IH2|r1 IH1 r2 IH2|r1 IH1|n r1 IH1| | |];
    intros Hb prev s c k k' Hk; cbn [m].
  - apply Hk.
  - destruct s as [|x s]; [reflexivity|]. cbn [lower].
    rewrite (Hb x). destruct (p x); [|reflexivity].
    apply (Hk (Some x) s c).
  - destruct Hb as [Hb1 Hb2]. apply IH1; [assumption|].
    intros prev' s' c'. now apply IH2.
  - destruct Hb as [Hb1 Hb2]. rewrite lowered_orelse.
    now rewrite (IH1 Hb1 prev s c k k' Hk), (IH2 Hb2 prev s c k k' Hk).
  - rewrite length_lower. apply star_loop_lower; [|assumption].
    intros prev0 s0 c0 k0 k0' Hk0. now apply IH1.
  - apply IH1; [assumption|].
    intros prev' s' c'. rewrite consumed_lower. apply (Hk prev' s' ((n, consumed s s') :: c')).
  - destruct prev; [reflexivity|]. apply (Hk None s c).
  - rewrite at_end_lower. destruct (at_end s); [apply Hk|reflexivity].
  - rewrite at_boundary_lower. destruct (at_boundary prev s); [apply Hk|reflexivity].
Qed.

Lemma lowered_accept : lowered accept accept.
Proof. intros prev s c. reflexivity. Qed.

Lemma search_from_lower r :
  case_blind r ->
  forall s prev,
    search_from r (lower_prev prev) (lower s)
    = option_map lower_caps (search_from r prev s).
Proof.
  intros Hb. induction s as [|x s IH]; intros prev.
  - cbn [lower search_from].
    pose proof (m_lower r Hb prev "" [] accept accept lowered_accept) as H.
    cbn [lower lower_caps map] in H. rewrite H.
    destruct (m r prev "" [] accept); reflexivity.
  - cbn [lower search_from].
    pose proof (m_lower r Hb prev (String x s) [] accept accept lowered_accept) as H.
    cbn [lower lower_caps map] in H. rewrite H.
    destruct (m r prev (String x s) [] accept); [reflexivity|].
    cbn [option_map]. apply (IH (Some x)).
Qed.

Lemma search_lower r s :
  case_blind r -> search r (lower s) = option_map lower_caps (search r s).
Proof. intros Hb. apply (search_from_lower r Hb s None). Qed.

Lemma re_match_lower r s :
  case_blind r -> re_match r (lower s) = option_map lower_caps (re_match r s).
Proof.
  intros Hb. unfold re_match.
  apply (m_lower r Hb None s [] accept accept lowered_accept).
Qed.

(** **** The rules are case-blind *)

Lemma blind_ci lc : blind (ci_eqb lc).
Proof. intros x. unfold ci_eqb. now rewrite lower_char_idem. Qed.

Lemma case_blind_chr c : case_blind (chr c).
Proof. apply blind_ci. Qed.

Lemma case_blind_lit l : case_blind (lit l).
Proof.
  induction l as [|c l IH]; [exact I|].
  destruct l as [|c' l]; [apply blind_ci|].
  split; [apply blind_ci|exact IH].
Qed.

Lemma case_blind_ws : case_blind ws.
Proof. exact isspace_lower. Qed.

Lemma case_blind_dg : case_blind dg.
Proof. exact is_decimal_lower. Qed.

Lemma case_blind_field : case_blind cron_field.
Proof. split; exact cron_char_lower. Qed.

Ltac blind_rule :=
  cbn [seqs alts map case_blind plus opt rep12];
  repeat split;
  first [ apply case_blind_lit | apply case_blind_chr | exact isspace_lower
        | exact is_decimal_lower | exact cron_char_lower ].

Lemma rules_case_blind r : In r rules -> case_blind r.
Proof.
  unfold rules. cbn [In].
  intros [<-|[<-|[<-|[<-|[<-|[<-|[<-|[<-|[]]]]]]]]].
  - unfold re_n_minutes, every, ws, dg. blind_rule.
  - unfold re_n_hours, every, ws, dg. blind_rule.
  - unfold re_minute, every, ws. blind_rule.
  - unfold re_hour, every, ws. blind_rule.
  - unfold re_every_day, every, ws, dg, am_pm. blind_rule.
  - unfold re_day, every, ws, dg, am_pm, day_names. blind_rule.
  - unfold re_month, every, ws, dg. blind_rule.
  - unfold re_weekday, every, ws, dg, am_pm. blind_rule.
Qed.

Lemma cron_case_blind : case_blind re_cron.
Proof. unfold re_cron, cron_field, ws. blind_rule. Qed.

(** **** The handlers *)

Lemma group_lower n c : group n (lower_caps c) = option_map lower (group n c).
Proof.
  induction c as [|[i w] c IH]; [reflexivity|]. cbn [lower_caps map group fst snd].
  destruct (i =? n); [reflexivity|exact IH].
Qed.

Lemma number_lower n : is_number n = true -> lower n = n.
Proof.
  intros H. apply number_inv in H as [_ H].
  exact (lower_fixed is_decimal n decimal_lower_fixed H).
Qed.

Lemma group_text_number g m :
  is_number (group_text g m) = true ->
  group_text g (lower_caps m) = group_text g m.
Proof.
  unfold group_text. rewrite group_lower.
  destruct (group g m) as [w|]; [|reflexivity]. cbn [option_map].
  apply number_lower.
Qed.

Lemma lower_group_text g m :
  lower (group_text g (lower_caps m)) = lower (group_text g m).
Proof.
  unfold group_text. rewrite group_lower.
  destruct (group g m) as [w|]; [|reflexivity]. apply lower_idem.
Qed.

Lemma parse_hour_lower hs a : _parse_hour hs (option_map lower a) = _parse_hour hs a.
Proof.
  unfold _parse_hour. destruct a as [a|]; [|reflexivity]. cbn [option_map].
  now rewrite is_empty_lower, lower_idem.
Qed.

Lemma cron_shaped_lower cron : cron_shaped cron -> lower cron = cron.
Proof.
  intros (f1 & w1 & f2 & w2 & f3 & w3 & f4 & w4 & f5 & -> &
          F1 & W1 & F2 & W2 & F3 & W3 & F4 & W4 & F5).
  assert (Hf : forall f, is_field f = true -> lower f = f).
  { intros f H. apply is_field_inv in H as [_ H].
    exact (lower_fixed cron_char f cron_lower_fixed H). }
  assert (Hw : forall w, is_blank w = true -> lower w = w).
  { intros w H. unfold is_blank in H. apply andb_prop in H as [_ H].
    exact (lower_fixed isspace w space_lower_fixed H). }
  rewrite !lower_append.
  now rewrite (Hf f1), (Hf f2), (Hf f3), (Hf f4), (Hf f5),
    (Hw w1), (Hw w2), (Hw w3), (Hw w4).
Qed.

(** The hour that the three rules with an hour capture is a number. *)
Lemma den_hour_tail g g' s s' c c' :
  g <> g' ->
  Den (Seq (Grp g (rep12 dg)) (Seq (Star ws) (opt (Grp g' am_pm)))) s s' c c' ->
  is_number (group_text g c') = true.
Proof.
  intros Hg H. inversion H; subst.
  match goal with D : Den (Grp g _) _ _ _ _ |- _ => inversion D; subst end.
  match goal with D : Den (rep12 dg) _ _ _ _ |- _ =>
    apply den_rep12 in D; destruct D as (-> & w & -> & Hne & Hw) end.
  rewrite consumed_append in *.
  match goal with D : Den (Seq (Star ws) _) _ _ _ _ |- _ => inversion D; subst end.
  match goal with D : Den (Star ws) _ _ _ _ |- _ =>
    apply den_star_cls in D; destruct D as (-> & _) end.
  assert (Hn : is_number w = true) by now apply all_decimal_number.
  match goal with D : Den (opt _) _ _ _ _ |- _ => inversion D; subst end.
  - match goal with D : Den (Grp g' _) _ _ _ _ |- _ => inversion D; subst end.
    match goal with D : Den am_pm _ _ _ _ |- _ =>
      rewrite (den_no_groups _ _ _ _ _ D eq_refl) end.
    unfold group_text. cbn [group].
    destruct (Nat.eqb_spec g' g) as [E|_]; [now contradiction Hg|].
    now rewrite Nat.eqb_refl.
  - match goal with D : Den Eps _ _ _ _ |- _ => inversion D; subst end.
    unfold group_text. cbn [group]. now rewrite Nat.eqb_refl.
Qed.

Lemma every_day_hour text m :
  search re_every_day text = Some m -> is_number (group_text 1 m) = true.
Proof.
  intros H. apply search_sound in H. destruct H as (pre & s1 & s' & _ & D).
  unfold re_every_day in D. cbn [seqs] in D.
  do 6 (apply den_skip in D; [destruct D as [? D]|reflexivity]).
  now apply den_hour_tail in D.
Qed.

Lemma weekday_hour text m :
  search re_weekday text = Some m -> is_number (group_text 1 m) = true.
Proof.
  intros H. apply search_sound in H. destruct H as (pre & s1 & s' & _ & D).
  unfold re_weekday in D. cbn [seqs] in D.
  do 6 (apply den_skip in D; [destruct D as [? D]|reflexivity]).
  now apply den_hour_tail in D.
Qed.

Lemma day_hour text m :
  search re_day text = Some m -> is_number (group_text 2 m) = true.
Proof.
  intros H. apply search_sound in H. destruct H as (pre & s1 & s' & _ & D).
  unfold re_day in D. cbn [seqs] in D.
  do 2 (apply den_skip in D; [destruct D as [? D]|reflexivity]).
  inversion D; subst.
  match goal with D' : Den (Seq (plus ws) _) _ _ _ _ |- _ => rename D' into R end.
  do 3 (apply den_skip in R; [destruct R as [? R]|reflexivity]).
  now apply den_hour_tail in R.
Qed.

(** X10.  On phrases of Latin-1 characters (code points below 256) the
    parser does not look at the case of letters: a phrase and its
    lower-case form have the same result. *)
Theorem parse_ignores_case phrase :
  parse_natural_language (lower phrase) = parse_natural_language phrase.
Proof.
  unfold parse_natural_language, after_loop. rewrite strip_lower.
  set (t := strip phrase).
  unfold _NL_PATTERNS. cbn [nl_loop].
  rewrite !search_lower by (apply rules_case_blind; unfold rules; simpl; tauto).
  rewrite (re_match_lower re_cron) by exact cron_case_blind.
  destruct (search re_n_minutes t) as [m1|] eqn:E1; cbn [option_map].
  { destruct (n_minutes_group _ _ E1) as (n & Hn1 & Hn2).
    rewrite group_text_number; [reflexivity|]. now rewrite Hn1. }
  destruct (search re_n_hours t) as [m2|] eqn:E2; cbn [option_map].
  { destruct (n_hours_group _ _ E2) as (n & Hn1 & Hn2).
    rewrite group_text_number; [reflexivity|]. now rewrite Hn1. }
  destruct (search re_minute t); cbn [option_map]; [reflexivity|].
  destruct (search re_hour t); cbn [option_map]; [reflexivity|].
  assert (Htail :
    match option_map lower_caps (search re_every_day t) with
    | Some m =>
        Some ("0 " ++ str_of_Z (_parse_hour (group_text 1 m) (group 2 m)) ++ " * * *")
    | None =>
        match option_map lower_caps (search re_day t) with
        | Some m =>
            Some ("0 " ++ str_of_Z (_parse_hour (group_text 2 m) (group 3 m))
                  ++ " * * "
                  ++ match Scheduler.dict_get _DAY_MAP (lower (group_text 1 m)) with
                     | Some d => d
                     | None => "0"
                     end)
        | None =>
            match option_map lower_caps (search re_weekday t) with
            | Some m =>
                Some ("0 " ++ str_of_Z (_parse_hour (group_text 1 m) (group 2 m))
                      ++ " * * 1-5")
            | None =>
                match option_map lower_caps (re_match re_cron t) with
                | Some m => Some (group_text 1 m)
                | None => None
                end
            end
        end
    end
    = match search re_every_day t with
      | Some m =>
          Some ("0 " ++ str_of_Z (_parse_hour (group_text 1 m) (group 2 m)) ++ " * * *")
      | None =>
          match search re_day t with
          | Some m =>
              Some ("0 " ++ str_of_Z (_parse_hour (group_text 2 m) (group 3 m))
                    ++ " * * "
                    ++ match Scheduler.dict_get _DAY_MAP (lower (group_text 1 m)) with
                       | Some d => d
                       | None => "0"
                       end)
          | None =>
              match search re_weekday t with
              | Some m =>
                  Some ("0 " ++ str_of_Z (_parse_hour (group_text 1 m) (group 2 m))
                        ++ " * * 1-5")
              | None =>
                  match re_match re_cron t with
                  | Some m => Some (group_text 1 m)
                  | None => None
                  end
              end
          end
      end).
  { destruct (search re_every_day t) as [m5|] eqn:E5; cbn [option_map].
    { rewrite (group_text_number 1 m5) by exact (every_day_hour _ _ E5).
      now rewrite group_lower, parse_hour_lower. }
    destruct (search re_day t) as [m6|] eqn:E6; cbn [option_map].
    { rewrite (group_text_number 2 m6) by exact (day_hour _ _ E6).
      now rewrite group_lower, parse_hour_lower, lower_group_text. }
    destruct (search re_weekday t) as [m8|] eqn:E8; cbn [option_map].
    { rewrite (group_text_number 1 m8) by exact (weekday_hour _ _ E8).
      now rewrite group_lower, parse_hour_lower. }
    destruct (re_match re_cron t) as [m9|] eqn:E9; cbn [option_map]; [|reflexivity].
    f_equal. unfold group_text. rewrite group_lower.
    destruct (group 1 m9) as [w|] eqn:Eg; [|reflexivity]. cbn [option_map].
    pose proof (cron_match_whole _ _ E9) as Hw. unfold group_text in Hw.
    rewrite Eg in Hw. subst w.
    apply cron_shaped_lower. now apply (cron_match_shaped _ m9). }
  destruct (search re_month t) as [m7|] eqn:E7.
  - cbn [option_map].
    destruct (month_group _ _ E7) as (n & Hn1 & Hn2).
    assert (Hm : group_text 1 (lower_caps m7) = group_text 1 m7)
      by (apply group_text_number; now rewrite Hn1).
    destruct (search re_every_day t), (search re_day t), (search re_weekday t);
      cbn [option_map]; now rewrite Hm.
  - cbn [option_map].
    destruct (search re_every_day t) as [m5|] eqn:E5;
      destruct (search re_day t) as [m6|] eqn:E6;
      destruct (search re_weekday t) as [m8|] eqn:E8;
      cbn [option_map] in *; exact Htail.
Qed.

End SchedulerMore.

(* ===================================================================== *)
(** * Properties of the migration and of the scheduler tool              *)
(* ===================================================================== *)

Module ToolFacts.
Import PyStr Migration MigrationSpec Scheduler SchedulerSpec SchedulerSpec2.
Import SchedulerTool ToolSpec MigrationFacts.
Local Open Scope list_scope.

(** *** What the migration leaves on disk *)

Lemma migrate_loop_kept now refused ids : forall files jobs kept k remaining jobs',
  migrate_loop now refused files ids jobs kept k = (remaining, Returns jobs') ->
  remaining = kept ++ unreadable_files files.
Proof.
  induction files as [|[f c] files IH]; intros jobs kept k remaining jobs'.
  - cbn. intros [= <- _]. now rewrite app_nil_r.
  - cbn [migrate_loop]. destruct c as [| |entry].
    + intros H. apply IH in H. rewrite H, <- app_assoc. reflexivity.
    + discriminate.
    + unfold unreadable_files. cbn [filter unreadable snd].
      destruct (get entry "id" (JStr "")) as [entry_id|e]; [|discriminate].
      destruct (in_ids entry_id ids) as [[|]|e]; [| |discriminate].
      { destruct (refused f); [discriminate|apply IH]. }
      destruct entry_id as [| | |id| |]; try discriminate.
      destruct entry as [| | | | |fields]; try discriminate.
      destruct (refused f); [discriminate|apply IH].
Qed.

(** Where the loop raises: at a file [bad], after the files [pre]. *)
Lemma migrate_loop_raises now refused ids : forall files jobs kept k remaining e,
  migrate_loop now refused files ids jobs kept k = (remaining, Raises e) ->
  exists pre bad post,
    files = pre ++ bad :: post
    /\ remaining = kept ++ unreadable_files pre ++ bad :: post.
Proof.
  induction files as [|[f c] files IH]; intros jobs kept k remaining e.
  - cbn. discriminate.
  - assert (Hhere : forall r e0,
              (kept ++ (f, c) :: files, @Raises (list json) e0) = (r, Raises e) ->
              exists pre bad post,
                (f, c) :: files = pre ++ bad :: post
                /\ r = kept ++ unreadable_files pre ++ bad :: post).
    { intros r e0 [= <- _]. exists [], (f, c), files. split; reflexivity. }
    assert (Hnext : forall jobs0 kept0 k0 skipped,
              kept0 = kept ++ skipped ->
              skipped = unreadable_files [(f, c)] ->
              migrate_loop now refused files ids jobs0 kept0 k0 = (remaining, Raises e) ->
              exists pre bad post,
                (f, c) :: files = pre ++ bad :: post
                /\ remaining = kept ++ unreadable_files pre ++ bad :: post).
    { intros jobs0 kept0 k0 skipped -> Hs H.
      apply IH in H as (pre & bad & post & -> & ->).
      exists ((f, c) :: pre), bad, post. split; [reflexivity|].
      unfold unreadable_files in *. cbn [filter] in *.
      destruct (unreadable (f, c)); subst skipped; cbn [List.app];
        now rewrite <- ?app_assoc. }
    cbn [migrate_loop]. destruct c as [| |entry].
    + apply (Hnext jobs (kept ++ [(f, Unreadable)]) k [(f, Unreadable)]); reflexivity.
    + apply Hhere.
    + destruct (get entry "id" (JStr "")) as [entry_id|e0]; [|apply Hhere].
      destruct (in_ids entry_id ids) as [[|]|e0]; [| |apply Hhere].
      * destruct (refused f); [apply Hhere|].
        apply (Hnext jobs kept k []); [now rewrite app_nil_r|reflexivity].
      * destruct entry_id as [| | |id| |]; try apply Hhere.
        destruct entry as [| | | | |fields]; try apply Hhere.
        destruct (refused f); [apply Hhere|].
        apply (Hnext _ kept (S k) []); [now rewrite app_nil_r|reflexivity].
Qed.

Lemma migrate_loop_unreadable now refused ids jobs : forall files kept k,
  forallb unreadable files = true ->
  migrate_loop now refused files ids jobs kept k = (kept ++ files, Returns jobs).
Proof.
  induction files as [|[f c] files IH]; intros kept k H.
  - cbn. now rewrite app_nil_r.
  - cbn [forallb] in H. apply andb_prop in H as [Hc H].
    destruct c; try discriminate. cbn [migrate_loop].
    rewrite IH by assumption. now rewrite <- app_assoc.
Qed.

Lemma unreadable_files_all files :
  forallb unreadable (unreadable_files files) = true.
Proof.
  unfold unreadable_files. induction files as [|x files IH]; [reflexivity|].
  cbn [filter]. destruct (unreadable x) eqn:E; [|exact IH].
  cbn [forallb]. now rewrite E.
Qed.

Lemma unreadable_files_idem files :
  unreadable_files (unreadable_files files) = unreadable_files files.
Proof.
  unfold unreadable_files. induction files as [|x files IH]; [reflexivity|].
  cbn [filter]. destruct (unreadable x) eqn:E; [|exact IH].
  cbn [filter]. now rewrite E, IH.
Qed.

Lemma existing_ids_app jobs extra ids :
  existing_ids_of jobs = Returns ids ->
  Forall (fun e => exists id, get e "id" JNull = Returns (JStr id)) extra ->
  exists ids', existing_ids_of (jobs ++ extra) = Returns ids'.
Proof.
  revert ids. induction jobs as [|j jobs IH]; intros ids H Hex.
  - clear H. induction extra as [|e extra IHe]; [now exists []|].
    inversion Hex as [|? ? (id & Hid) Hrest]; subst.
    destruct (IHe Hrest) as (ids' & E). cbn [List.app existing_ids_of] in *.
    rewrite Hid. cbn [hashable]. rewrite E. eauto.
  - cbn [List.app existing_ids_of] in *.
    destruct (get j "id" JNull) as [id|e]; [|discriminate].
    destruct (hashable id); [|discriminate].
    destruct (existing_ids_of jobs) as [ids0|e] eqn:E0; [|discriminate].
    destruct (IH ids0 eq_refl Hex) as (ids' & ->). eauto.
Qed.

Lemma has_cron_id_string e :
  has_cron_id e -> exists id, get e "id" JNull = Returns (JStr id).
Proof. intros (id & H & _). eauto. Qed.

(** The state of the directory after a migration that returned. *)
Lemma migration_returns now d :
  snd (_migrate_individual_files now d) = Returns tt ->
  (other_files d = [] /\ fst (_migrate_individual_files now d) = d)
  \/ (other_files d <> [] /\ write_fails d = false
      /\ exists jobs ids jobs',
           _load_jobs_file d = Returns jobs
           /\ existing_ids_of jobs = Returns ids
           /\ (exists ids', existing_ids_of jobs' = Returns ids')
           /\ fst (_migrate_individual_files now d)
              = {| jobs_file := Some (Parsed (JArr jobs'));
                   other_files := unreadable_files (other_files d);
                   write_fails := write_fails d;
                   unlink_fails := unlink_fails d |}).
Proof.
  unfold _migrate_individual_files.
  destruct (other_files d) as [|file files] eqn:Ef; [now left|].
  intros H. right. split; [discriminate|].
  destruct (_load_jobs_file d) as [jobs|e] eqn:El; [|discriminate].
  destruct (existing_ids_of jobs) as [ids|e] eqn:Ei; [|discriminate].
  pose proof (migrate_loop_appends now d (unlink_fails d) ids (file :: files) jobs [] 0)
    as Happ.
  rewrite Ef in Happ. specialize (Happ (incl_refl _)).
  destruct (migrate_loop now (unlink_fails d) (file :: files) ids jobs [] 0)
    as [remaining [jobs'|e]] eqn:Em; [|discriminate].
  cbn [snd] in Happ. destruct Happ as (extra & -> & _ & Hids).
  unfold _save_jobs_file in *. cbn [write_fails other_files unlink_fails] in *.
  destruct (write_fails d); [discriminate|]. split; [reflexivity|].
  exists jobs, ids, (jobs ++ extra).
  split; [reflexivity|]. split; [exact Ei|]. split.
  - apply (existing_ids_app jobs extra ids Ei).
    apply Forall_forall. intros x Hx. rewrite Forall_forall in Hids.
    exact (has_cron_id_string x (Hids x Hx)).
  - cbn [fst]. apply migrate_loop_kept in Em. now rewrite Em.
Qed.

(** X11.  After a migration that returns, the only legacy files left
    are those that could not be read or parsed, in their order: every
    file that was read has been removed, migrated or not.  When there
    was a legacy file, [jobs.json] now exists and holds a list, whatever
    it held before. *)
Theorem migration_disk_state now d :
  snd (_migrate_individual_files now d) = Returns tt ->
  other_files (fst (_migrate_individual_files now d))
  = unreadable_files (other_files d)
  /\ (other_files d <> [] ->
      exists jobs', jobs_file (fst (_migrate_individual_files now d))
                    = Some (Parsed (JArr jobs')))
  /\ (other_files d = [] -> fst (_migrate_individual_files now d) = d).
Proof.
  intros H.
  destruct (migration_returns now d H)
    as [[E ->]|(Hne & _ & jobs & ids & jobs' & _ & _ & _ & ->)].
  - rewrite E. split; [reflexivity|].
    split; [intros Hc; now contradiction Hc|reflexivity].
  - split; [reflexivity|]. split; [intros _; now exists jobs'|].
    intros Hc. now contradiction Hne.
Qed.

Lemma migration_disk_state_witness :
  let d := {| jobs_file := Some (Parsed (JObj []));
              other_files := [ ("a.json", Parsed (JObj [("id", JStr "a")]));
                               ("b.json", Unreadable) ];
              write_fails := false; unlink_fails := fun _ => false |} in
  other_files (fst (_migrate_individual_files clock d)) = [("b.json", Unreadable)]
  /\ (other_files d <> [] ->
      exists jobs', jobs_file (fst (_migrate_individual_files clock d))
                    = Some (Parsed (JArr jobs')))
  /\ (other_files d = [] -> fst (_migrate_individual_files clock d) = d).
Proof.
  exact (migration_disk_state clock
           {| jobs_file := Some (Parsed (JObj []));
              other_files := [ ("a.json", Parsed (JObj [("id", JStr "a")]));
                               ("b.json", Unreadable) ];
              write_fails := false; unlink_fails := fun _ => false |} eq_refl).
Defined.

(** X12.  The migration is idempotent: run again on the directory that
    a returning migration left, at any later time, it returns and
    changes nothing. *)
Theorem migration_idempotent now now' d :
  snd (_migrate_individual_files now d) = Returns tt ->
  _migrate_individual_files now' (fst (_migrate_individual_files now d))
  = (fst (_migrate_individual_files now d), Returns tt).
Proof.
  intros H.
  destruct (migration_returns now d H)
    as [[E ->]|(Hne & Hw & jobs & ids & jobs' & _ & _ & (ids' & Hi) & ->)].
  - unfold _migrate_individual_files. now rewrite E.
  - unfold _migrate_individual_files. cbn [other_files jobs_file].
    destruct (unreadable_files (other_files d)) as [|file files] eqn:Eu;
      [reflexivity|].
    unfold _load_jobs_file. cbn [jobs_file]. rewrite Hi.
    cbn [unlink_fails write_fails].
    rewrite migrate_loop_unreadable
      by (rewrite <- Eu; apply unreadable_files_all).
    unfold _save_jobs_file. cbn [write_fails other_files unlink_fails].
    rewrite Hw. reflexivity.
Qed.

Lemma migration_idempotent_witness :
  let d := {| jobs_file := None;
              other_files := [ ("a.json", Parsed (JObj [("id", JStr "a")]));
                               ("b.json", Unreadable) ];
              write_fails := false; unlink_fails := fun _ => false |} in
  _migrate_individual_files later (fst (_migrate_individual_files clock d))
  = (fst (_migrate_individual_files clock d), Returns tt).
Proof.
  exact (migration_idempotent clock later
           {| jobs_file := None;
              other_files := [ ("a.json", Parsed (JObj [("id", JStr "a")]));
                               ("b.json", Unreadable) ];
              write_fails := false; unlink_fails := fun _ => false |} eq_refl).
Defined.

(** X13.  A migration that raises never writes [jobs.json].  It raises
    before any file is touched; or at a legacy file, which stays, the
    readable files before it having been removed already; or, when
    writing [jobs.json] is refused, after every readable legacy file has
    been removed.  What was migrated from the removed files is lost. *)
Theorem migration_failure_state now d e :
  snd (_migrate_individual_files now d) = Raises e ->
  jobs_file (fst (_migrate_individual_files now d)) = jobs_file d
  /\ (fst (_migrate_individual_files now d) = d
      \/ (exists pre bad post,
            other_files d = pre ++ bad :: post
            /\ other_files (fst (_migrate_individual_files now d))
               = unreadable_files pre ++ bad :: post)
      \/ (e = OSError /\ write_fails d = true
          /\ other_files (fst (_migrate_individual_files now d))
             = unreadable_files (other_files d))).
Proof.
  unfold _migrate_individual_files.
  destruct (other_files d) as [|file files] eqn:Ef; [discriminate|].
  destruct (_load_jobs_file d) as [jobs|e0]; [|intros _; split; [reflexivity|now left]].
  destruct (existing_ids_of jobs) as [ids|e0];
    [|intros _; split; [reflexivity|now left]].
  destruct (migrate_loop now (unlink_fails d) (file :: files) ids jobs [] 0)
    as [remaining [jobs'|e0]] eqn:Em.
  - unfold _save_jobs_file. cbn [write_fails other_files].
    destruct (write_fails d); [|discriminate].
    intros [= <-]. cbn [fst jobs_file other_files]. split; [reflexivity|].
    right. right. split; [reflexivity|]. split; [reflexivity|].
    apply migrate_loop_kept in Em. exact Em.
  - intros _. cbn [fst jobs_file other_files]. split; [reflexivity|]. right. left.
    apply migrate_loop_raises in Em as (pre & bad & post & -> & ->).
    exists pre, bad, post. split; reflexivity.
Qed.

Lemma migration_failure_state_witness :
  let d := {| jobs_file := None;
              other_files := [ ("a.json", Parsed (JObj [("id", JStr "a")]));
                               ("b.json", Unreadable) ];
              write_fails := true; unlink_fails := fun _ => false |} in
  jobs_file (fst (_migrate_individual_files clock d)) = jobs_file d
  /\ (fst (_migrate_individual_files clock d) = d
      \/ (exists pre bad post,
            other_files d = pre ++ bad :: post
            /\ other_files (fst (_migrate_individual_files clock d))
               = unreadable_files pre ++ bad :: post)
      \/ (OSError = OSError /\ write_fails d = true
          /\ other_files (fst (_migrate_individual_files clock d))
             = unreadable_files (other_files d))).
Proof.
  exact (migration_failure_state clock
           {| jobs_file := None;
              other_files := [ ("a.json", Parsed (JObj [("id", JStr "a")]));
                               ("b.json", Unreadable) ];
              write_fails := true; unlink_fails := fun _ => false |}
           OSError eq_refl).
Defined.

(** *** Deleting a task *)

Lemma without_id_objects task_id jobs :
  forallb is_object jobs = true ->
  without_id task_id jobs
  = Returns (filter (fun j => negb (has_id task_id j)) jobs).
Proof.
  induction jobs as [|j jobs IH]; [reflexivity|].
  cbn [forallb]. intros H. apply andb_prop in H as [Hj H].
  cbn [without_id filter]. rewrite (IH H).
  destruct j as [| | | | |fields]; try discriminate.
  unfold other_id, has_id, get.
  destruct (fields_get fields "id") as [[| | |id| |]|]; reflexivity.
Qed.

Lemma filter_length_le {A : Type} (f : A -> bool) l :
  List.length (filter f l) <= List.length l.
Proof.
  induction l as [|x l IH]; [reflexivity|]. cbn [filter].
  destruct (f x); cbn [List.length]; lia.
Qed.

Lemma filter_length_all {A : Type} (f : A -> bool) l :
  List.length (filter f l) = List.length l <-> forallb f l = true.
Proof.
  induction l as [|x l IH]; [now split|]. cbn [filter forallb].
  pose proof (filter_length_le f l) as Hle.
  destruct (f x); cbn [List.length andb].
  - rewrite <- IH. split; lia.
  - split; [lia|discriminate].
Qed.

Lemma forallb_negb_existsb {A : Type} (f : A -> bool) l :
  forallb (fun x => negb (f x)) l = negb (existsb f l).
Proof.
  induction l as [|x l IH]; [reflexivity|]. cbn [forallb existsb].
  rewrite IH. now destruct (f x).
Qed.

Lemma param_task_id task_id : param [("task_id", task_id)] "task_id" "" = task_id.
Proof. reflexivity. Qed.

Lemma delete_cases d task_id jobs :
  task_id <> "" ->
  _load_jobs_file d = Returns jobs ->
  forallb is_object jobs = true ->
  _delete [("task_id", task_id)] d
  = if existsb (has_id task_id) jobs
    then if write_fails d then (d, Raises OSError)
         else (written d (filter (fun j => negb (has_id task_id j)) jobs),
               Returns ("Deleted scheduled task: " ++ task_id)%string)
    else (d, Returns ("Error: no scheduled task found with ID '" ++ task_id ++ "'.")%string).
Proof.
  intros Hne Hl Ho. unfold _delete. rewrite param_task_id.
  destruct task_id as [|c task_id]; [contradiction|]. cbn [is_empty].
  rewrite Hl, (without_id_objects _ _ Ho).
  destruct (Nat.eqb_spec
              (List.length (filter (fun j => negb (has_id (String c task_id) j)) jobs))
              (List.length jobs)) as [E|E].
  - apply filter_length_all in E. rewrite forallb_negb_existsb in E.
    apply negb_true_iff in E. now rewrite E.
  - destruct (existsb (has_id (String c task_id)) jobs) eqn:Ex.
    + unfold _save_jobs_file, written. destruct (write_fails d); reflexivity.
    + exfalso. apply E. apply filter_length_all.
      rewrite forallb_negb_existsb. now rewrite Ex.
Qed.

Lemma existsb_filter_out {A : Type} (f : A -> bool) l :
  existsb f (filter (fun x => negb (f x)) l) = false.
Proof.
  induction l as [|x l IH]; [reflexivity|]. cbn [filter].
  destruct (f x) eqn:E; cbn [negb]; [exact IH|].
  cbn [existsb]. now rewrite E.
Qed.

Lemma forallb_filter {A : Type} (p f : A -> bool) l :
  forallb p l = true -> forallb p (filter f l) = true.
Proof.
  induction l as [|x l IH]; [reflexivity|]. cbn [forallb filter].
  intros H. apply andb_prop in H as [Hx H].
  destruct (f x); [cbn [forallb]; now rewrite Hx, IH|now apply IH].
Qed.

(** X14.  Deleting a task id from a list of job objects: when no job
    has the id, an error is returned and nothing is written; otherwise,
    unless the file system refuses the write (then [OSError] is raised
    and nothing has changed), exactly the jobs with that id are removed,
    the others are kept in their order, the legacy files are not
    touched, and deleting the same id again reports that it is not
    found. *)
Theorem delete_removes_exactly d task_id jobs :
  task_id <> "" ->
  _load_jobs_file d = Returns jobs ->
  forallb is_object jobs = true ->
  let d' := fst (_delete [("task_id", task_id)] d) in
  let not_found :=
    Returns ("Error: no scheduled task found with ID '" ++ task_id ++ "'.")%string in
  (existsb (has_id task_id) jobs = false ->
     _delete [("task_id", task_id)] d = (d, not_found))
  /\ (existsb (has_id task_id) jobs = true ->
     if write_fails d then _delete [("task_id", task_id)] d = (d, Raises OSError)
     else
       snd (_delete [("task_id", task_id)] d)
       = Returns ("Deleted scheduled task: " ++ task_id)%string
       /\ _load_jobs_file d'
          = Returns (filter (fun j => negb (has_id task_id j)) jobs)
       /\ other_files d' = other_files d
       /\ _delete [("task_id", task_id)] d' = (d', not_found)).
Proof.
  intros Hne Hl Ho d' not_found. subst d'.
  rewrite (delete_cases d task_id jobs Hne Hl Ho).
  split; intros Ex; rewrite Ex; [reflexivity|].
  destruct (write_fails d) eqn:Ew; [reflexivity|]. cbn [fst snd].
  split; [reflexivity|]. split; [reflexivity|]. split; [reflexivity|].
  rewrite (delete_cases _ task_id (filter (fun j => negb (has_id task_id j)) jobs) Hne).
  - now rewrite existsb_filter_out.
  - reflexivity.
  - now apply forallb_filter.
Qed.

Lemma delete_removes_exactly_witness :
  let jobs := [ JObj [("id", JStr "cron_1")]; JObj [("id", JStr "cron_2")];
                JObj [("id", JStr "cron_1")] ] in
  let d := {| jobs_file := Some (Parsed (JArr jobs)); other_files := [];
              write_fails := false; unlink_fails := fun _ => false |} in
  _load_jobs_file (fst (_delete [("task_id", "cron_1")] d))
  = Returns [JObj [("id", JStr "cron_2")]].
Proof.
  intros jobs d.
  refine (proj1 (proj2 (proj2 (delete_removes_exactly d "cron_1" jobs _ eq_refl eq_refl)
                          eq_refl))).
  discriminate.
Defined.

(** *** Creating a task *)

Lemma parse_empty : parse_natural_language "" = None.
Proof. vm_compute. reflexivity. Qed.

(** X15.  For parameters of Latin-1 characters, creating a task either
    changes nothing and returns an error text or raises (when
    [jobs.json] cannot be decoded, or when the file system refuses the
    write), or appends exactly one job to the list and reports it: the
    earlier jobs and the legacy files are kept, the new job has the fresh
    id, its schedule is the parser's result for the given schedule, which
    has the shape of a cron expression, and its [reply_to] is empty or
    holds a colon. *)
Theorem create_appends_valid_job now fresh p d :
  let d' := fst (_create now fresh p d) in
  let reply_to := param p "reply_to" "" in
  (d' = d
   /\ match snd (_create now fresh p d) with
      | Returns text => startswith "Error: " text = true
      | Raises _ => True
      end)
  \/ (exists jobs entry cron text,
        _load_jobs_file d = Returns jobs
        /\ _load_jobs_file d' = Returns (jobs ++ [entry])
        /\ other_files d' = other_files d
        /\ snd (_create now fresh p d) = Returns text
        /\ startswith "Scheduled task created:" text = true
        /\ field_string entry "id" = Some ("cron_" ++ fresh)%string
        /\ parse_natural_language (param p "schedule" "") = Some cron
        /\ field_string entry "schedule" = Some cron
        /\ cron_shaped cron
        /\ field_string entry "reply_to" = Some reply_to
        /\ (reply_to = ""%string \/ has_colon reply_to = true)).
Proof.
  intros d' reply_to. subst d' reply_to. unfold _create.
  destruct (is_empty (param p "schedule" "")); [left; now split|].
  destruct (negb (is_empty (param p "reply_to" "")) && negb (has_colon (param p "reply_to" "")))
    eqn:Er; [left; now split|].
  destruct (parse_natural_language (param p "schedule" "")) as [cron|] eqn:Ep;
    [|left; now split].
  destruct (_load_jobs_file d) as [jobs|e]; [|left; now split].
  unfold _save_jobs_file. destruct (write_fails d); [left; now split|].
  right. eexists jobs, _, cron, _. cbn [fst snd].
  repeat (split; [reflexivity|]).
  split; [now apply (SchedulerMore.parse_shape (param p "schedule" ""))|].
  split; [reflexivity|].
  destruct (param p "reply_to" "") as [|c r]; [now left|]. right.
  cbn [is_empty negb andb] in Er. now apply negb_false_iff in Er.
Qed.

Lemma create_last_kept {A : Type} (f : A -> bool) l x :
  f x = false -> forallb f l = true -> filter f (l ++ [x]) = l.
Proof.
  intros Hx. induction l as [|y l IH]; cbn [List.app filter forallb].
  - now rewrite Hx.
  - intros H. apply andb_prop in H as [Hy H]. now rewrite Hy, IH.
Qed.

(** X16.  Creating a task and deleting it again by the id it was given
    restores the job list, when the list held job objects none of which
    had that id; when the file system refuses the write, creating raises
    [OSError] and nothing has changed. *)
Theorem create_then_delete now fresh p d jobs cron :
  _load_jobs_file d = Returns jobs ->
  forallb is_object jobs = true ->
  existsb (has_id ("cron_" ++ fresh)%string) jobs = false ->
  parse_natural_language (param p "schedule" "") = Some cron ->
  param p "reply_to" "" = ""%string \/ has_colon (param p "reply_to" "") = true ->
  let d1 := fst (_create now fresh p d) in
  let d2 := fst (_delete [("task_id", ("cron_" ++ fresh)%string)] d1) in
  if write_fails d then _create now fresh p d = (d, Raises OSError)
  else
    _load_jobs_file d1
    = Returns (jobs ++ [new_entry now fresh (param p "task_name" "Unnamed task") cron
                          (param p "command" "") (param p "reply_to" "")])
    /\ snd (_delete [("task_id", ("cron_" ++ fresh)%string)] d1)
       = Returns ("Deleted scheduled task: cron_" ++ fresh)%string
    /\ _load_jobs_file d2 = Returns jobs
    /\ other_files d2 = other_files d.
Proof.
  intros Hl Ho Hid Hp Hr d1 d2. subst d2 d1.
  assert (Hc : _create now fresh p d
          = if write_fails d then (d, Raises OSError)
            else
            (written d
               (jobs ++ [new_entry now fresh (param p "task_name" "Unnamed task") cron
                           (param p "command" "") (param p "reply_to" "")]),
             Returns (created_message fresh (param p "task_name" "Unnamed task") cron
                        (param p "schedule" "") (param p "command" "")
                        (param p "reply_to" "")))).
  { unfold _create.
    destruct (param p "schedule" "") as [|c s] eqn:Es.
    { rewrite parse_empty in Hp. discriminate. }
    cbn [is_empty].
    replace (negb (is_empty (param p "reply_to" ""))
             && negb (has_colon (param p "reply_to" ""))) with false
      by (destruct Hr as [-> | ->]; [reflexivity|now rewrite andb_false_r]).
    rewrite Hp, Hl. unfold _save_jobs_file, written.
    destruct (write_fails d); reflexivity. }
  rewrite Hc. destruct (write_fails d) eqn:Ew; [reflexivity|].
  cbn [fst]. split; [reflexivity|].
  set (entry := new_entry now fresh _ cron _ _).
  rewrite (delete_cases _ ("cron_" ++ fresh)%string (jobs ++ [entry])).
  - rewrite existsb_app, Hid. cbn [existsb orb].
    assert (He : has_id ("cron_" ++ fresh)%string entry = true).
    { unfold entry, new_entry, has_id. cbn [fields_get String.eqb Ascii.eqb Bool.eqb].
      cbn. apply String.eqb_refl. }
    rewrite He. cbn [orb written write_fails]. rewrite Ew. cbn [fst snd].
    split; [reflexivity|]. split; [|reflexivity].
    unfold _load_jobs_file, written. cbn [jobs_file]. f_equal.
    apply create_last_kept; [now rewrite He|].
    rewrite forallb_negb_existsb. now rewrite Hid.
  - discriminate.
  - reflexivity.
  - rewrite forallb_app, Ho. reflexivity.
Qed.

Lemma create_then_delete_witness :
  let d := {| jobs_file := Some (Parsed (JArr [JObj [("id", JStr "cron_0badc0de")]]));
              other_files := [];
              write_fails := false; unlink_fails := fun _ => false |} in
  let p := [("schedule", "every Monday at 3pm"); ("command", "report");
            ("reply_to", "telegram:12345")]%string in
  let d1 := fst (_create "now" "deadbeef" p d) in
  let d2 := fst (_delete [("task_id", "cron_deadbeef")] d1) in
  _load_jobs_file d1
  = Returns [ JObj [("id", JStr "cron_0badc0de")];
              new_entry "now" "deadbeef" "Unnamed task" "0 15 * * 1" "report"
                        "telegram:12345" ]
  /\ snd (_delete [("task_id", "cron_deadbeef")] d1)
     = Returns "Deleted scheduled task: cron_deadbeef"
  /\ _load_jobs_file d2 = Returns [JObj [("id", JStr "cron_0badc0de")]]
  /\ other_files d2 = [].
Proof.
  intros d p.
  apply (create_then_delete "now" "deadbeef" p d
           [JObj [("id", JStr "cron_0badc0de")]] "0 15 * * 1");
    try reflexivity.
  right. reflexivity.
Defined.

End ToolFacts.

(* ===================================================================== *)
(** * The cron-phrase parser follows its table                           *)
(* ===================================================================== *)

Module CronTableFacts.
Import PyStr Regex RegexSpec StrFacts RegexFacts.
Import Scheduler SchedulerSpec SchedulerSpec2 SchedulerFacts SchedulerMore.
Import CronTable CronRules.
Local Open Scope list_scope.
Local Open Scope string_scope.

(** *** Words and white space *)


Lemma lower_length_eq x w : lower x = w -> String.length x = String.length w.
Proof. intros <-. symmetry. apply length_lower. Qed.






(** *** Reading a shape *)




(** *** The matcher on a shape *)







Lemma spaced_lower items rest w : spaced items rest -> In (W w) items -> lower w = w.
Proof.
  induction items as [|[w'|] items IH]; cbn [spaced In]; [contradiction| |].
  - intros (_ & Hl & _ & H) [[= ->]|Hin]; [assumption|now apply IH].
  - intros (_ & H) [Hd|Hin]; [discriminate|now apply IH].
Qed.


(** *** The leftmost match *)

Lemma prev_after_app w1 : forall prev w2,
  prev_after prev (w1 ++ w2) = prev_after (prev_after prev w1) w2.
Proof. induction w1 as [|x w1 IH]; intros prev w2; [reflexivity|apply IH]. Qed.



(** *** The digits and the suffix *)









Lemma am_pm_of_nonempty s : am_pm_of s <> "" -> is_empty (am_pm_of s) = false.
Proof. destruct (am_pm_of s); [intros H; now contradiction H|reflexivity]. Qed.



Lemma hour24_none h : hour24 h "" = h.
Proof. reflexivity. Qed.



(** *** The rows, one by one *)












(** *** The row with the name of a day *)










(** *** Every row: its pattern matches where it applies, and only there *)






(** *** The search for the pattern of a row *)






(** *** The rows in an order *)




(** *** The parser *)








End CronTableFacts.

(* ===================================================================== *)
(** * Properties of the heartbeat beat                                   *)
(* ===================================================================== *)

Module HeartbeatFacts.
Import PyStr Heartbeat HeartbeatSpec.

Lemma split_colon_nonempty s : split_colon s <> None -> is_empty s = false.
Proof. destruct s; simpl; congruence. Qed.

Lemma publish_result_events reply_to publish text :
  _publish_result reply_to publish text
  = (match split_colon reply_to with
     | Some (channel, chat_id) =>
         [PublishOutbound {| channel := channel; chat_id := chat_id; text := text |}]
     | None => []
     end, Returns tt).
Proof.
  unfold _publish_result. destruct (split_colon reply_to) as [[c i]|]; [|reflexivity].
  destruct (publish _); reflexivity.
Qed.

Lemma publish_if_routed_events bus reply_to guard t :
  publish_if_routed bus reply_to guard t
  = (delivery bus reply_to (if guard then Some t else None), Returns tt).
Proof.
  unfold publish_if_routed, delivery.
  destruct bus as [publish|]; [|reflexivity].
  destruct (split_colon reply_to) as [[c i]|] eqn:E.
  - rewrite (split_colon_nonempty reply_to) by congruence. simpl.
    destruct guard; [|reflexivity].
    rewrite publish_result_events, E. reflexivity.
  - destruct (negb (is_empty reply_to) && guard); [|reflexivity].
    rewrite publish_result_events, E. reflexivity.
Qed.

(** The claim as the specification states it fails: with a [reply_to] of
    the form [channel:id] and a bus, an engine that returns the empty
    response has nothing published. *)
Lemma empty_response_not_published :
  let events :=
    fst (_beat silent_engine (Some working_bus) "telegram:99999"
               (Some (Returns "Check health"))) in
  ~ (published events <-> routed "telegram:99999").
Proof.
  intros events [_ H].
  assert (Hr : routed "telegram:99999") by (split; discriminate).
  destruct (H Hr) as [msg Hin]. vm_compute in Hin.
  destruct Hin as [Hin|[]]. discriminate.
Qed.

Lemma published_delivery bus reply_to t :
  published (delivery bus reply_to t)
  <-> bus <> None /\ routed reply_to /\ t <> None.
Proof.
  unfold delivery, published, routed. split.
  - intros [msg H].
    destruct bus as [b|]; [|destruct H].
    destruct (split_colon reply_to) as [[c i]|] eqn:E; [|destruct H].
    destruct t as [t|]; [|destruct H].
    repeat split; try discriminate.
    intros ->. discriminate.
  - intros (Hb & [_ Hs] & Ht).
    destruct bus as [b|]; [|congruence].
    destruct (split_colon reply_to) as [[c i]|]; [|congruence].
    destruct t as [t|]; [|congruence].
    eexists. left. reflexivity.
Qed.

(** C8, amended.  A beat ends with an exception only when reading
    [HEARTBEAT.md] raises, and then nothing is called; an exception of
    the engine never leaves the beat.  Its calls are the expected ones:
    none when [HEARTBEAT.md] is missing or strips to the empty string;
    otherwise one engine call with the stripped contents under the key
    [heartbeat:periodic], followed by one published message exactly when
    there is a bus, [reply_to] has the form [channel:id], and there is
    something to deliver (a non-empty response on success, the
    diagnostic on failure). *)
Theorem beat_events engine_run bus reply_to heartbeat_file :
  _beat engine_run bus reply_to heartbeat_file
  = (expected_events engine_run bus reply_to heartbeat_file,
     expected_end heartbeat_file)
  /\ (forall message,
        snd (_beat engine_run bus reply_to heartbeat_file) = Raises message
        <-> heartbeat_file = Some (Raises message))
  /\ (published (fst (_beat engine_run bus reply_to heartbeat_file))
      <-> exists file_text,
            heartbeat_file = Some (Returns file_text)
            /\ strip file_text <> ""
            /\ bus <> None /\ routed reply_to
            /\ payload engine_run (strip file_text) <> None).
Proof.
  assert (E : _beat engine_run bus reply_to heartbeat_file
              = (expected_events engine_run bus reply_to heartbeat_file,
                 expected_end heartbeat_file)).
  { unfold _beat, expected_events, expected_end.
    destruct heartbeat_file as [[file_text|message]|]; [|reflexivity|reflexivity].
    destruct (is_empty (strip file_text)); [reflexivity|].
    unfold payload.
    destruct (engine_run (strip file_text) SESSION_KEY) as [result|message].
    - rewrite publish_if_routed_events.
      destruct (is_empty (response result)); reflexivity.
    - rewrite publish_if_routed_events. reflexivity. }
  split; [exact E|]. rewrite E. cbn [fst snd]. split.
  - intros message. unfold expected_end.
    destruct heartbeat_file as [[file_text|message']|]; split; congruence.
  - unfold expected_events.
    destruct heartbeat_file as [[file_text|message]|].
    + destruct (strip file_text) as [|c content] eqn:Es; simpl.
      * split; [intros [msg []]|]. intros (t & [= <-] & Hne & _). congruence.
      * split.
        -- intros [msg [Hin|Hin]]; [discriminate|].
           assert (Hp : published (delivery bus reply_to
                                     (payload engine_run (String c content))))
             by (exists msg; exact Hin).
           apply published_delivery in Hp as (Hb & Hr & Ht).
           exists file_text. rewrite Es.
           split; [reflexivity|]. split; [discriminate|]. auto.
        -- intros (t & [= <-] & _ & Hb & Hr & Ht). rewrite Es in Ht.
           destruct (proj2 (published_delivery bus reply_to _) (conj Hb (conj Hr Ht)))
             as [msg Hin].
           exists msg. right. exact Hin.
    + split; [intros [msg []]|]. intros (t & H & _). discriminate.
    + split; [intros [msg []]|]. intros (t & H & _). discriminate.
Qed.

End HeartbeatFacts.

(* ===================================================================== *)
(** * Where a beat delivers                                              *)
(* ===================================================================== *)

Module HeartbeatMore.
Import PyStr Heartbeat HeartbeatSpec HeartbeatSpec2 HeartbeatFacts.
Local Open Scope list_scope.

Lemma split_colon_join : forall s a b,
  split_colon s = Some (a, b) ->
  s = (a ++ ":" ++ b)%string /\ no_colon a = true.
Proof.
  induction s as [|c s IH]; intros a b H; [discriminate|].
  cbn [split_colon] in H. destruct (Ascii.eqb_spec c ":") as [->|Hne].
  - injection H as <- <-. split; reflexivity.
  - destruct (split_colon s) as [[a' b']|]; [|discriminate].
    injection H as <- <-. destruct (IH a' b' eq_refl) as [-> Ha].
    split; [reflexivity|]. unfold no_colon. cbn [all_chars].
    apply Ascii.eqb_neq in Hne. rewrite Hne. exact Ha.
Qed.

Lemma delivery_route bus reply_to t msg :
  In (PublishOutbound msg) (delivery bus reply_to t) ->
  delivery bus reply_to t = [PublishOutbound msg]
  /\ bus <> None
  /\ reply_to = (channel msg ++ ":" ++ chat_id msg)%string
  /\ no_colon (channel msg) = true
  /\ t = Some (text msg).
Proof.
  unfold delivery. destruct bus as [b|]; [|intros []].
  destruct (split_colon reply_to) as [[c i]|] eqn:E; [|intros []].
  destruct t as [t|]; [|intros []].
  intros [[= <-]|[]]. cbn [channel chat_id text].
  destruct (split_colon_join _ _ _ E) as [-> Hc].
  repeat split; try assumption. discriminate.
Qed.

Lemma beat_delivery engine_run bus reply_to heartbeat_file msg :
  In (PublishOutbound msg) (fst (_beat engine_run bus reply_to heartbeat_file)) ->
  exists content t,
    fst (_beat engine_run bus reply_to heartbeat_file)
    = EngineRun content SESSION_KEY :: delivery bus reply_to (Some t)
    /\ In (PublishOutbound msg) (delivery bus reply_to (Some t))
    /\ t <> ""%string.
Proof.
  unfold _beat. destruct heartbeat_file as [[file_text|message]|];
    [|intros []|intros []].
  destruct (is_empty (strip file_text)); [intros []|].
  destruct (engine_run (strip file_text) SESSION_KEY) as [result|message].
  - rewrite publish_if_routed_events.
    destruct (response result) as [|c r] eqn:Er; cbn [is_empty negb fst].
    + intros [H|H]; [discriminate|]. exfalso. revert H. unfold delivery.
      destruct bus; [|intros []]. destruct (split_colon reply_to) as [[a b]|]; intros [].
    + intros [H|H]; [discriminate|].
      exists (strip file_text), (String c r). repeat split; [assumption|discriminate].
  - rewrite publish_if_routed_events. cbn [fst app].
    intros [H|H]; [discriminate|].
    exists (strip file_text), ("Heartbeat run failed: " ++ message)%string.
    repeat split; [assumption|discriminate].
Qed.

(** X23.  A message that a beat publishes goes where [reply_to] says:
    its channel is the part of [reply_to] before the first colon, its
    chat id the rest, and its text is not empty; there is a bus; and it
    is the only message of the beat, published after the engine call. *)
Theorem beat_message_route engine_run bus reply_to heartbeat_file msg :
  In (PublishOutbound msg) (fst (_beat engine_run bus reply_to heartbeat_file)) ->
  reply_to = (channel msg ++ ":" ++ chat_id msg)%string
  /\ no_colon (channel msg) = true
  /\ text msg <> ""%string
  /\ bus <> None
  /\ exists content,
       fst (_beat engine_run bus reply_to heartbeat_file)
       = [EngineRun content SESSION_KEY; PublishOutbound msg].
Proof.
  intros H.
  destruct (beat_delivery _ _ _ _ _ H) as (content & t & Hb & Hin & Ht).
  destruct (delivery_route _ _ _ _ Hin) as (Hd & Hbus & Hr & Hc & Htext).
  injection Htext as ->.
  repeat split; try assumption.
  exists content. now rewrite Hb, Hd.
Qed.

Lemma beat_message_route_witness :
  let msg := {| channel := "telegram"; chat_id := "99:1"; text := "done" |} in
  let engine := fun _ _ : string =>
    Returns {| response := "done"; iterations := 1; total_tokens := 0 |} in
  "telegram:99:1"%string = (channel msg ++ ":" ++ chat_id msg)%string
  /\ no_colon (channel msg) = true
  /\ text msg <> ""%string
  /\ Some working_bus <> None
  /\ exists content,
       fst (_beat engine (Some working_bus) "telegram:99:1"
                  (Some (Returns " check ")))
       = [EngineRun content SESSION_KEY; PublishOutbound msg].
Proof.
  intros msg engine.
  apply (beat_message_route engine (Some working_bus) "telegram:99:1"
           (Some (Returns " check ")) msg).
  vm_compute. right. left. reflexivity.
Defined.

End HeartbeatMore.
